(** * JetAtlas: comparison/scoring engine, summary cache and model probe

    A shallow embedding of the logic of

    - [src/components/AircraftProfile.jsx] (second document: the App module
      with [valueOrZero], [buildMetricStats], [normalizedMetric],
      [computeAnalyzeScore], [scoreboardFor], [bestEfficiency],
      [toggleCompare], [clearCompare]; and with them [METRIC_BY_KEY],
      [metricLeader], the order of the deep-dive cards, the tables,
      [resolveModel] and the compared aircraft of [AppContent], the rank
      and score tables and the [filtered] list of [CatalogPage], and the
      progress of [PageTransition]),
    - [src/components/ModelViewer.jsx] ([modelPathCandidates], [verify];
      and with them what the component renders and the counts of
      [useModelStats]),
    - [src/components/GLTFModel.jsx] (the two effects on the materials),
    - the [useWikiSummaries] hook.

    JavaScript numbers are modelled by [number]: a finite value is an exact
    rational, and [NaN], [+Infinity] and [-Infinity] are kept as values of
    their own, so that [x / 0], [Infinity - Infinity] and the [NaN]
    behaviour of [Math.min], [Math.max], [<=] and [===] are the ones of the
    language.  Rounding of finite results, overflow to infinity and the
    sign of zero are not modelled (the only zero is [+0]). *)

From Stdlib Require Import QArith Qround ZArith String Ascii List Lia Lqa.
From Stdlib Require Import Sorted Permutation OrderedTypeEx.
From stdpp Require Import base option list gmap strings.

Local Open Scope Q_scope.

(** ** JavaScript numbers *)

Inductive number : Type :=
| Fin (q : Q)
| NaN
| PosInf
| NegInf.

Module Num.

Definition of_Z (z : Z) : number := Fin (inject_Z z).

(** [a + b]. *)
Definition add (a b : number) : number :=
  match a, b with
  | NaN, _ | _, NaN => NaN
  | Fin x, Fin y => Fin (x + y)
  | PosInf, NegInf | NegInf, PosInf => NaN
  | PosInf, _ | _, PosInf => PosInf
  | NegInf, _ | _, NegInf => NegInf
  end.

(** [a - b]. *)
Definition sub (a b : number) : number :=
  match a, b with
  | NaN, _ | _, NaN => NaN
  | Fin x, Fin y => Fin (x - y)
  | PosInf, PosInf | NegInf, NegInf => NaN
  | PosInf, _ | _, NegInf => PosInf
  | NegInf, _ | _, PosInf => NegInf
  end.

(** An infinity with the sign of [q]; [NaN] when [q] is zero. *)
Definition signed_inf (pos : bool) (q : Q) : number :=
  match q ?= 0 with
  | Eq => NaN
  | Gt => if pos then PosInf else NegInf
  | Lt => if pos then NegInf else PosInf
  end.

(** [a * b]. *)
Definition mul (a b : number) : number :=
  match a, b with
  | NaN, _ | _, NaN => NaN
  | Fin x, Fin y => Fin (x * y)
  | PosInf, Fin y | Fin y, PosInf => signed_inf true y
  | NegInf, Fin y | Fin y, NegInf => signed_inf false y
  | PosInf, PosInf | NegInf, NegInf => PosInf
  | PosInf, NegInf | NegInf, PosInf => NegInf
  end.

(** [a / b].  A finite value divided by zero is an infinity of the sign
    of the dividend, and [0 / 0] is [NaN]. *)
Definition div (a b : number) : number :=
  match a, b with
  | NaN, _ | _, NaN => NaN
  | Fin x, Fin y =>
      if Qeq_bool y 0 then signed_inf true x else Fin (x / y)
  | Fin _, (PosInf | NegInf) => Fin 0
  | PosInf, Fin y => if Qle_bool 0 y then PosInf else NegInf
  | NegInf, Fin y => if Qle_bool 0 y then NegInf else PosInf
  | (PosInf | NegInf), (PosInf | NegInf) => NaN
  end.

(** [a < b]; false as soon as one side is [NaN]. *)
Definition ltb (a b : number) : bool :=
  match a, b with
  | NaN, _ | _, NaN => false
  | Fin x, Fin y => negb (Qle_bool y x)
  | NegInf, NegInf | PosInf, PosInf => false
  | NegInf, _ | _, PosInf => true
  | PosInf, _ | _, NegInf => false
  end.

(** [a === b] on numbers: [NaN] is not equal to itself. *)
Definition strict_eq (a b : number) : bool :=
  match a, b with
  | Fin x, Fin y => Qeq_bool x y
  | PosInf, PosInf | NegInf, NegInf => true
  | _, _ => false
  end.

(** [a <= b]. *)
Definition leb (a b : number) : bool := ltb a b || strict_eq a b.

(** Truthiness of a number, as [||], [?:] and [if] see it: [0] and [NaN]
    are falsy. *)
Definition truthy (a : number) : bool :=
  match a with
  | Fin x => negb (Qeq_bool x 0)
  | NaN => false
  | PosInf | NegInf => true
  end.

(** [a || b] on numbers. *)
Definition or (a b : number) : number := if truthy a then a else b.

(** The same number: finite values up to equality of rationals. *)
Definition equiv (a b : number) : Prop :=
  match a, b with
  | Fin x, Fin y => x == y
  | NaN, NaN | PosInf, PosInf | NegInf, NegInf => True
  | _, _ => False
  end.

Definition is_finite (a : number) : Prop :=
  match a with Fin _ => True | _ => False end.

(** [lo <= a <= hi] for a finite [a]; false for [NaN] and the
    infinities. *)
Definition between (lo hi : Q) (a : number) : Prop :=
  match a with Fin x => lo <= x <= hi | _ => False end.

End Num.

Declare Scope num_scope.
Delimit Scope num_scope with num.
Bind Scope num_scope with number.
Infix "+" := Num.add : num_scope.
Infix "-" := Num.sub : num_scope.
Infix "*" := Num.mul : num_scope.
Infix "/" := Num.div : num_scope.
Infix "≃" := Num.equiv (at level 70, no associativity) : num_scope.

(** ** The [Math] object *)

Module Math.

Definition min2 (a b : number) : number :=
  match a, b with
  | NaN, _ | _, NaN => NaN
  | _, _ => if Num.ltb b a then b else a
  end.

Definition max2 (a b : number) : number :=
  match a, b with
  | NaN, _ | _, NaN => NaN
  | _, _ => if Num.ltb a b then b else a
  end.

(** [Math.min(...args)]: [+Infinity] without arguments, [NaN] as soon as
    one argument is [NaN]. *)
Definition min (args : list number) : number := fold_left min2 args PosInf.

(** [Math.max(...args)]: [-Infinity] without arguments. *)
Definition max (args : list number) : number := fold_left max2 args NegInf.

(** [Math.round(x)]: the nearest integer, halves going up. *)
Definition round (a : number) : number :=
  match a with
  | Fin x => Fin (inject_Z (Qfloor (x + (1 # 2))))
  | other => other
  end.

End Math.

(** ** JavaScript values held by the properties of a record *)

Inductive value : Type :=
| VUndefined
| VNull
| VBool (b : bool)
| VNumber (n : number)
| VString (s : string).

(** [typeof value === 'number' && Number.isFinite(value) ? value : 0] *)
Definition valueOrZero (v : value) : number :=
  match v with
  | VNumber (Fin q) => Fin q
  | _ => Fin 0
  end.

(** ** Entities, metric descriptors and metric statistics *)

(** An aircraft record of [aircraft.json]: an identifier, a display name
    and further properties, some of which are the numeric attributes. *)
Module Aircraft.

Record t : Type := Build {
  id : string;
  name : string;
  props : gmap string value
}.

(** [aircraft[key]] *)
Definition get (a : t) (key : string) : value :=
  if String.eqb key "id" then VString (id a)
  else if String.eqb key "name" then VString (name a)
  else default VUndefined (props a !! key).

End Aircraft.

Module Metric.

Record t : Type := Build {
  key : string;
  label : string;
  unit : string;
  color : string;
  higherBetter : bool;
  weight : number
}.

End Metric.

(** One entry of a stats table: [{ min, max, span }]. *)
Module Stats.

Record t : Type := Build {
  min : number;
  max : number;
  span : number
}.

(** The entries [normalizedMetric] can divide by: a finite minimum and a
    finite span that is not zero. *)
Definition usable (s : t) : Prop :=
  match min s, span s with
  | Fin _, Fin sp => ~ sp == 0
  | _, _ => False
  end.

End Stats.

Definition ANALYZE_LIMIT : nat := 6.

Definition ANALYZE_METRICS : list Metric.t :=
  [ Metric.Build "topSpeedKmh" "TOP_SPEED" "km/h" "#00ff00" true (Fin (12 # 10));
    Metric.Build "rangeKm" "FERRY_RANGE" "km" "#00ffff" true (Fin (11 # 10));
    Metric.Build "combatRadiusKm" "COMBAT_RADIUS" "km" "#66ffcc" true (Fin (11 # 10));
    Metric.Build "serviceCeilingM" "SERVICE_CEILING" "m" "#ff003c" true (Fin (9 # 10));
    Metric.Build "thrustKn" "TOTAL_THRUST" "kN" "#33ffaa" true (Fin (11 # 10));
    Metric.Build "climbRateMs" "CLIMB_RATE" "m/s" "#aaff00" true (Fin 1);
    Metric.Build "payloadKg" "PAYLOAD" "kg" "#00ff88" true (Fin 1);
    Metric.Build "hardpoints" "HARDPOINTS" EmptyString "#44ffaa" true (Fin (6 # 10));
    Metric.Build "radarRangeKm" "RADAR_RANGE" "km" "#00ccff" true (Fin 1);
    Metric.Build "stealthScore" "STEALTH_SCORE" "/10" "#88ff88" true (Fin (12 # 10));
    Metric.Build "maxTakeoffWeightKg" "MTOW" "kg" "#ffaa00" true (Fin (7 # 10));
    Metric.Build "unitCostMUsd" "UNIT_COST" "M USD" "#ff6680" false (Fin (9 # 10)) ].

(** The values of one metric over a list, after the substitution of [0]
    for what is missing or not a finite number. *)
Definition metricValues (aircraftList : list Aircraft.t) (key : string)
  : list number :=
  map (fun aircraft => valueOrZero (Aircraft.get aircraft key)) aircraftList.

(** The entry [buildMetricStats] stores for one metric. *)
Definition metricStatsEntry (aircraftList : list Aircraft.t) (metric : Metric.t)
  : Stats.t :=
  let values := metricValues aircraftList (Metric.key metric) in
  let min := if Nat.eqb (length values) 0 then Fin 0 else Math.min values in
  let max := if Nat.eqb (length values) 0 then Fin 1 else Math.max values in
  Stats.Build min max (Math.max [(max - min)%num; Fin 1]).

Definition buildMetricStats (aircraftList : list Aircraft.t)
  : gmap string Stats.t :=
  fold_left
    (fun stats metric =>
       <[Metric.key metric := metricStatsEntry aircraftList metric]> stats)
    ANALYZE_METRICS ∅.

Definition normalizedMetric (aircraft : Aircraft.t) (metric : Metric.t)
    (metricStats : gmap string Stats.t) : number :=
  match metricStats !! Metric.key metric with
  | None => Fin 0
  | Some stats =>
      let value := valueOrZero (Aircraft.get aircraft (Metric.key metric)) in
      if Num.strict_eq (Stats.max stats) (Stats.min stats) then Fin 1
      else
        let baseline := ((value - Stats.min stats) / Stats.span stats)%num in
        let normalized :=
          if Metric.higherBetter metric then baseline
          else (Fin 1 - baseline)%num in
        Math.max [Fin 0; Math.min [Fin 1; normalized]]
  end.

(** [computeAnalyzeScore] over an arbitrary configuration of metrics. *)
Definition computeScoreOver (metrics : list Metric.t) (aircraft : Aircraft.t)
    (metricStats : gmap string Stats.t) : number :=
  let totalWeight :=
    fold_left (fun sum metric => (sum + Metric.weight metric)%num)
      metrics (Fin 0) in
  if Num.leb totalWeight (Fin 0) then Fin 0
  else
    let weighted :=
      fold_left
        (fun sum metric =>
           (sum + normalizedMetric aircraft metric metricStats
                  * Metric.weight metric)%num)
        metrics (Fin 0) in
    Math.round ((weighted / totalWeight) * Fin 100)%num.

Definition computeAnalyzeScore (aircraft : Aircraft.t)
    (metricStats : gmap string Stats.t) : number :=
  computeScoreOver ANALYZE_METRICS aircraft metricStats.

(** ** Ranking *)

(** [Array.prototype.sort(comparefn)].  The language fixes the result for a
    consistent comparator: the stable sorted arrangement.  The model is the
    stable insertion sort; [comparefn a b] greater than zero puts [b]
    first, anything else ([NaN] included) leaves [a] before [b]. *)
Module Array.

Section Sort.
Context {A : Type} (comparefn : A -> A -> number).

Fixpoint insert (x : A) (l : list A) : list A :=
  match l with
  | [] => [x]
  | y :: l' =>
      if Num.ltb (Fin 0) (comparefn x y) then y :: insert x l'
      else x :: y :: l'
  end.

Definition sort (l : list A) : list A := fold_right insert [] l.
End Sort.

End Array.

(** An aircraft extended with its composite score:
    [{ ...aircraft, score }]. *)
Module Scored.

Record t : Type := Build {
  aircraft : Aircraft.t;
  score : number
}.

Definition name (item : t) : string := Aircraft.name (aircraft item).

(** [item[key]]: the spread keeps the properties of the aircraft, and
    [score] is set last. *)
Definition get (item : t) (key : string) : value :=
  if String.eqb key "score" then VNumber (score item)
  else Aircraft.get (aircraft item) key.

End Scored.

Section Scoreboard.

(** [a.localeCompare(b)]: negative, zero or positive. *)
Variable localeCompare : string -> string -> Z.

(** [(a, b) => b.score - a.score || a.name.localeCompare(b.name)] *)
Definition scoreboardCompare (a b : Scored.t) : number :=
  Num.or (Scored.score b - Scored.score a)%num
         (Num.of_Z (localeCompare (Scored.name a) (Scored.name b))).

Definition withScore (metricStats : gmap string Stats.t)
    (aircraft : Aircraft.t) : Scored.t :=
  Scored.Build aircraft (computeAnalyzeScore aircraft metricStats).

Definition scoreboardFor (aircraftList : list Aircraft.t)
    (metricStats : gmap string Stats.t) : list Scored.t :=
  Array.sort scoreboardCompare (map (withScore metricStats) aircraftList).

End Scoreboard.

(** A scoreboard item extended with its efficiency:
    [{ ...item, efficiency }]. *)
Module Efficiency.

Record t : Type := Build {
  item : Scored.t;
  efficiency : number
}.

End Efficiency.

(** [valueOrZero(item.unitCostMUsd) || 1] *)
Definition costOf (item : Scored.t) : number :=
  Num.or (valueOrZero (Scored.get item "unitCostMUsd")) (Fin 1).

Definition withEfficiency (item : Scored.t) : Efficiency.t :=
  Efficiency.Build item (Scored.score item / costOf item)%num.

(** The [bestEfficiency] memo of [AnalyzePage]; [None] is [null]. *)
Definition bestEfficiency (scoreboard : list Scored.t) : option Efficiency.t :=
  if Nat.eqb (length scoreboard) 0 then None
  else
    head
      (Array.sort
         (fun a b => (Efficiency.efficiency b - Efficiency.efficiency a)%num)
         (map withEfficiency scoreboard)).

(** ** The comparison selection *)

(** [current.includes(id)] *)
Definition includes (current : list string) (id : string) : bool :=
  existsb (String.eqb id) current.

(** The updater [toggleCompare] hands to [setCompareIds]. *)
Definition toggleCompare (id : string) (current : list string) : list string :=
  if includes current id then
    List.filter (fun item => negb (String.eqb item id)) current
  else if Nat.leb ANALYZE_LIMIT (length current) then current
  else current ++ [id].

(** [clearCompare]: [setCompareIds([])]. *)
Definition clearCompare (current : list string) : list string := [].

(** The selections the two operations can produce from the initial
    [useState([])]. *)
Inductive compareReachable : list string -> Prop :=
| reach_initial : compareReachable []
| reach_toggle id current :
    compareReachable current -> compareReachable (toggleCompare id current)
| reach_clear current :
    compareReachable current -> compareReachable (clearCompare current).

(** ** The model probe of [ModelViewer] *)

Module Str.

(** [s.replace(pattern, replacement)] for a string pattern: the first
    occurrence only.  (The replacement used here holds no [$].) *)
Definition replace (pattern replacement s : string) : string :=
  match String.index 0 pattern s with
  | Some i =>
      String.substring 0 i s ++ replacement
      ++ String.substring (i + String.length pattern)
           (String.length s - (i + String.length pattern)) s
  | None => s
  end.

(** [s.split(sep)] for a separator of one character. *)
Fixpoint split (sep : ascii) (s : string) : list string :=
  match s with
  | EmptyString => [EmptyString]
  | String c rest =>
      if Ascii.eqb c sep then EmptyString :: split sep rest
      else match split sep rest with
           | [] => [String c EmptyString]
           | word :: words => String c word :: words
           end
  end.

(** [parts.join(sep)] *)
Fixpoint join (sep : string) (parts : list string) : string :=
  match parts with
  | [] => EmptyString
  | [part] => part
  | part :: rest => part ++ sep ++ join sep rest
  end.

(** Truthiness of a string: only the empty string is falsy. *)
Definition truthy (s : string) : bool := negb (String.eqb s EmptyString).

End Str.

(** Truthiness of a value. *)
Definition truthy (v : value) : bool :=
  match v with
  | VUndefined | VNull => false
  | VBool b => b
  | VNumber n => Num.truthy n
  | VString s => Str.truthy s
  end.

Definition modelPathCandidates (path : value) : list string :=
  match path with
  | VString path =>
      if Nat.eqb (String.length path) 0 then []
      else if negb (String.prefix "/models/verified/" path) then [path]
      else
        let fallbackPath :=
          Str.replace "/models/verified/" "/models/unverified/" path in
        if String.eqb fallbackPath path then [path] else [path; fallbackPath]
  | _ => []
  end.

Module Viewer.

Inductive availability : Type := checking | ready | missing.

(** The two pieces of state the probe commits. *)
Record state : Type := State {
  avail : availability;
  resolvedPath : value
}.

(** A manifest entry; only [path] matters to the probe. *)
Record model : Type := Model { path : value }.

(** What [await fetch(candidate, { method: 'HEAD' })] yields. *)
Inductive head : Type :=
| Response (status : Z)
| Throws.

(** [response.ok]: a status in the range 200-299. *)
Definition ok (status : Z) : bool := (200 <=? status)%Z && (status <=? 299)%Z.

(** The world a probe runs in: the answer to the [HEAD] request for a
    path, and whether the effect is still [active] when that answer
    arrives (the cleanup sets [active = false], and can only run while
    [verify] is suspended at the [await]). *)
Record world : Type := World {
  fetch : string -> head;
  activeAfter : string -> bool
}.

(** [model?.path] *)
Definition pathOf (m : option model) : value :=
  match m with
  | Some m => path m
  | None => VUndefined
  end.

(** The initial [useState] values. *)
Definition initial (m : option model) : state :=
  State (match m with Some _ => checking | None => missing end)
        (if truthy (pathOf m) then pathOf m else VNull).

(** The [for ... of] loop of [verify] and what follows it.  The result
    is the state after [verify] has returned, with the requests issued,
    in order. *)
Fixpoint probe (w : world) (primary : value) (candidates : list string)
    (active : bool) (st : state) (requests : list string)
  : state * list string :=
  match candidates with
  | [] =>
      if negb active then (st, requests)
      else (State missing primary, requests)
  | candidate :: rest =>
      let requests := requests ++ [candidate] in
      let active := activeAfter w candidate in
      match fetch w candidate with
      | Response status =>
          if negb active then (st, requests)
          else if ok status || (status =? 405)%Z then
            (State ready (VString candidate), requests)
          else probe w primary rest active st requests
      | Throws =>
          if negb active then (st, requests)
          else probe w primary rest active st requests
      end
  end.

Definition verify (w : world) (m : option model) (st : state)
  : state * list string :=
  if negb (truthy (pathOf m)) then (State missing VNull, [])
  else
    let st := State checking (resolvedPath st) in
    probe w (pathOf m) (modelPathCandidates (pathOf m)) true st [].

End Viewer.

(** ** The summary cache of [useWikiSummaries] *)

Module Wiki.

(** The record [fetchSummary] builds; [None] in [image] and [pageUrl] is
    [null]. *)
Record summary : Type := Summary {
  extract : string;
  image : option string;
  pageUrl : option string
}.

(** The optional fields of the response body that are read:
    [extract], [originalimage.source], [thumbnail.source] and
    [content_urls.desktop.page]. *)
Record payload : Type := Payload {
  p_extract : option string;
  p_originalimage : option string;
  p_thumbnail : option string;
  p_page : option string
}.

(** What [await response.json()] yields. *)
Inductive body : Type :=
| Json (p : payload)
| BodyAborted
| BodyError.

(** What [await fetch(url, { signal })] yields. *)
Inductive network : Type :=
| Answer (ok : bool) (b : body)
| Aborted
| NetworkError.

(** How a call of [fetchSummary] ends: it returns a record or [null], or
    it throws; [ThrewAbort] is an error whose [name] is ['AbortError']. *)
Inductive outcome : Type :=
| Returned (s : option summary)
| ThrewAbort
| ThrewOther.

(** [a || b] where [a] and [b] are optional strings. *)
Definition orElse (a b : option string) : option string :=
  match a with
  | Some s => if Str.truthy s then Some s else b
  | None => b
  end.

Definition fetchSummary (n : network) : outcome :=
  match n with
  | Answer false _ => Returned None
  | Answer true (Json p) =>
      Returned
        (Some (Summary (default EmptyString (orElse (p_extract p) None))
                       (orElse (orElse (p_originalimage p) (p_thumbnail p)) None)
                       (orElse (p_page p) None)))
  | Answer true BodyAborted => ThrewAbort
  | Answer true BodyError => ThrewOther
  | Aborted => ThrewAbort
  | NetworkError => ThrewOther
  end.

(** [new Set(...)] spread back into an array: the first occurrence of
    each title, in order. *)
Fixpoint distinct (seen : list string) (titles : list string) : list string :=
  match titles with
  | [] => []
  | title :: rest =>
      if includes seen title then distinct seen rest
      else title :: distinct (title :: seen) rest
  end.

(** [[...new Set(titles.filter(Boolean))]]; a missing title is dropped
    like the empty one. *)
Definition uniqueTitles (titles : list string) : list string :=
  distinct [] (List.filter Str.truthy titles).

Definition NUL : ascii := Ascii.zero.

Definition titlesKey (titles : list string) : string :=
  Str.join (String NUL EmptyString) (uniqueTitles titles).

(** [titlesKey.split('\0').filter(Boolean)] *)
Definition currentTitles (titlesKey : string) : list string :=
  List.filter Str.truthy (Str.split NUL titlesKey).

(** One element of the array handed to [Promise.all]: the title, and
    the entry [[title, summary]] once the callback has returned. *)
Abbreviation slot := (string * option (option summary))%type.

(** The hook instance: the cache of [cacheRef], the [items] state, the
    slots of the run whose effect is current ([None] when there is
    none), the requests of cleaned-up runs that are still in flight,
    and every request issued so far. *)
Record hook : Type := Hook {
  cache : gmap string (option summary);
  items : gmap string (option summary);
  live : option (list slot);
  stale : list string;
  requests : list string
}.

Definition initial : hook := Hook ∅ ∅ None [] [].

(** The synchronous part of the callback for one title: a cached title
    is answered at once, another one is requested. *)
Definition open (c : gmap string (option summary)) (title : string) : slot :=
  match c !! title with
  | Some entry => (title, Some entry)
  | None => (title, None)
  end.

Definition pendingTitles (slots : list slot) : list string :=
  omap (fun s : slot => match s.2 with None => Some s.1 | Some _ => None end)
       slots.

(** [Object.fromEntries(results)] when every slot is settled. *)
Definition entries (slots : list slot) : option (gmap string (option summary)) :=
  foldl
    (fun acc (s : slot) =>
       match acc, s.2 with
       | Some m, Some r => Some (<[s.1 := r]> m)
       | _, _ => None
       end)
    (Some ∅) slots.

(** [if (alive) setItems(Object.fromEntries(results))], once
    [Promise.all] has resolved. *)
Definition publish (slots : list slot) (current : gmap string (option summary))
  : gmap string (option summary) :=
  default current (entries slots).

(** The [try]/[catch] around [await fetchSummary(...)]: the cache after
    it, and the summary of the returned entry. *)
Definition settle (title : string) (o : outcome)
    (c : gmap string (option summary))
  : gmap string (option summary) * option summary :=
  match o with
  | Returned s => (<[title := s]> c, s)
  | ThrewAbort => (c, None)
  | ThrewOther => (<[title := None]> c, None)
  end.

(** The cleanup of the current run: [alive = false] and
    [controller.abort()]; what was pending is now bound to reject with
    an abort error. *)
Definition cleanup (h : hook) : hook :=
  match live h with
  | Some slots =>
      Hook (cache h) (items h) None (stale h ++ pendingTitles slots)
           (requests h)
  | None => h
  end.

(** The effect body for a serialized key, after the cleanup of the
    previous run. *)
Definition effect (key : string) (h : hook) : hook :=
  let h := cleanup h in
  let titles := currentTitles key in
  if Nat.eqb (length titles) 0 then h
  else
    let slots := map (open (cache h)) titles in
    Hook (cache h) (publish slots (items h)) (Some slots) (stale h)
         (requests h ++ pendingTitles slots).

Inductive event : Type :=
| Render (titles : list string)
    (** the effect runs for the key of these titles *)
| Settle (i : nat) (n : network)
    (** the request of slot [i] of the current run comes back *)
| Rejects (title : string)
    (** a request of a cleaned-up run rejects with the abort error *)
| Unmount.

Fixpoint removeFirst (title : string) (l : list string) : list string :=
  match l with
  | [] => []
  | x :: rest => if String.eqb x title then rest else x :: removeFirst title rest
  end.

Definition fire (h : hook) (e : event) : hook :=
  match e with
  | Render titles => effect (titlesKey titles) h
  | Settle i n =>
      match live h with
      | Some slots =>
          match slots !! i with
          | Some (title, None) =>
              let '(c, r) := settle title (fetchSummary n) (cache h) in
              let slots := <[i := (title, Some r)]> slots in
              Hook c (publish slots (items h)) (Some slots) (stale h)
                   (requests h)
          | _ => h
          end
      | None => h
      end
  | Rejects title =>
      if includes (stale h) title then
        Hook (settle title ThrewAbort (cache h)).1 (items h) (live h)
             (removeFirst title (stale h)) (requests h)
      else h
  | Unmount => cleanup h
  end.

Definition run (h : hook) (events : list event) : hook :=
  fold_left fire events h.

End Wiki.

(** ** The scoring rules in the words of the specification *)

(** The clamp to [[0,1]]. *)
Definition spec_clamp01 (x : number) : number :=
  if Num.ltb x (Fin 0) then Fin 0
  else if Num.ltb (Fin 1) x then Fin 1
  else x.

(** [baseline = (value - stats.min) / stats.span], taken as it is when
    higher is better and as [1 - baseline] otherwise; the value is 0 when
    the attribute is missing or not a finite number. *)
Definition spec_directional (aircraft : Aircraft.t) (metric : Metric.t)
    (stats : Stats.t) : number :=
  let value :=
    match Aircraft.get aircraft (Metric.key metric) with
    | VNumber (Fin q) => Fin q
    | _ => Fin 0
    end in
  let baseline := ((value - Stats.min stats) / Stats.span stats)%num in
  if Metric.higherBetter metric then baseline else (Fin 1 - baseline)%num.

(** The sum of a list of numbers. *)
Definition spec_sum (l : list number) : number :=
  fold_right Num.add (Fin 0) l.

(** [round(100 * Σ(normalize(entity, m, stats) * m.weight) / Σ(m.weight))]
    over the configured metric descriptors. *)
Definition spec_score (aircraft : Aircraft.t)
    (metricStats : gmap string Stats.t) : number :=
  Math.round
    ((Fin 100
      * spec_sum (map (fun m => (normalizedMetric aircraft m metricStats
                                 * Metric.weight m)%num) ANALYZE_METRICS))
     / spec_sum (map Metric.weight ANALYZE_METRICS))%num.

(** [x] may stay before [y] in a sorted array: the comparator does not ask
    for [y] first. *)
Definition keeps {A : Type} (comparefn : A -> A -> number) (x y : A) : Prop :=
  Num.ltb (Fin 0) (comparefn x y) = false.

(** The order of the leaderboard: a higher score first, and for the same
    score the name that [localeCompare] puts first (or level). *)
Definition rankedBefore (localeCompare : string -> string -> Z)
    (x y : Scored.t) : Prop :=
  Num.ltb (Scored.score y) (Scored.score x) = true
  \/ (Num.strict_eq (Scored.score x) (Scored.score y) = true
      /\ (localeCompare (Scored.name x) (Scored.name y) <= 0)%Z).

(** What [localeCompare] has to satisfy to be a consistent comparator. *)
Definition consistentCompare (localeCompare : string -> string -> Z) : Prop :=
  (forall a b, Z.sgn (localeCompare b a) = (- Z.sgn (localeCompare a b))%Z)
  /\ (forall a b c,
        (localeCompare a b <= 0)%Z -> (localeCompare b c <= 0)%Z ->
        (localeCompare a c <= 0)%Z).

(** The comparison of strings by their code units, as one collation that
    [localeCompare] can implement. *)
Definition codeUnitCompare (a b : string) : Z :=
  match String_as_OT.cmp a b with
  | Lt => (-1)%Z
  | Eq => 0%Z
  | Gt => 1%Z
  end.

(** [score / max(cost, 1)], the cost being 0 when the attribute is
    missing. *)
Definition spec_efficiency (item : Scored.t) : number :=
  (Scored.score item
   / Math.max [valueOrZero (Scored.get item "unitCostMUsd"); Fin 1])%num.

(** [score / cost], the cost being 1 when the attribute is zero or
    missing. *)
Definition efficiencyOf (item : Scored.t) : number :=
  let cost := valueOrZero (Scored.get item "unitCostMUsd") in
  (Scored.score item / (if Num.strict_eq cost (Fin 0) then Fin 1 else cost))%num.

(** A candidate counts as available when its [HEAD] request is answered
    with a success status or with 405. *)
Definition available (w : Viewer.world) (candidate : string) : bool :=
  match Viewer.fetch w candidate with
  | Viewer.Response status => Viewer.ok status || (status =? 405)%Z
  | Viewer.Throws => false
  end.

(** The effect is still active when the answers for these candidates
    arrive. *)
Definition staysActive (w : Viewer.world) (candidates : list string) : Prop :=
  List.Forall (fun candidate => Viewer.activeAfter w candidate = true) candidates.

(** [s.includes(c)] for one character. *)
Fixpoint hasChar (c : ascii) (s : string) : bool :=
  match s with
  | EmptyString => false
  | String c' rest => Ascii.eqb c' c || hasChar c rest
  end.

(** The titles of a render hold no NUL, the character that separates them
    in the serialized key. *)
Definition nulFree (e : Wiki.event) : Prop :=
  match e with
  | Wiki.Render titles =>
      List.Forall (fun title => hasChar Wiki.NUL title = false) titles
  | _ => True
  end.

(** The titles of the requests of the current run that are in flight. *)
Definition pendingOf (h : Wiki.hook) : list string :=
  match Wiki.live h with
  | Some slots => Wiki.pendingTitles slots
  | None => []
  end.

(** No title is requested twice within the current run. *)
Definition singleFlight (h : Wiki.hook) : Prop := List.NoDup (pendingOf h).

(** The event is the return of a request of the current run, and not with
    the abort error. *)
Definition settles (e : Wiki.event) : Prop :=
  match e with
  | Wiki.Settle _ n => Wiki.fetchSummary n <> Wiki.ThrewAbort
  | _ => False
  end.

(** The current run is for the titles [ts], and each of them is in flight
    or cached. *)
Definition covers (h : Wiki.hook) (ts : list string) : Prop :=
  exists slots,
    Wiki.live h = Some slots
    /\ map fst slots = ts
    /\ forall j t r, slots !! j = Some (t, r) ->
                     r = None \/ is_Some (Wiki.cache h !! t).

(** Every number of the list is finite. *)
Definition allFinite (l : list number) : Prop := List.Forall Num.is_finite l.

(** The entries of a table that [normalizedMetric] divides by, for one
    metric, are usable. *)
Definition usableFor (metricStats : gmap string Stats.t) (metric : Metric.t)
  : Prop :=
  forall stats,
    metricStats !! Metric.key metric = Some stats ->
    Num.strict_eq (Stats.max stats) (Stats.min stats) = false ->
    Stats.usable stats.

(** ** Sample data *)

Module Sample.

Definition topSpeed : Metric.t :=
  Metric.Build "topSpeedKmh" "TOP_SPEED" "km/h" "#00ff00" true (Fin (12 # 10)).

Definition alpha : Aircraft.t :=
  Aircraft.Build "alpha" "Alpha"
    {[ "topSpeedKmh" := VNumber (Fin 1000);
       "unitCostMUsd" := VNumber (Fin (1 # 2)) ]}.

Definition bravo : Aircraft.t :=
  Aircraft.Build "bravo" "Bravo"
    {[ "topSpeedKmh" := VNumber (Fin 2000);
       "unitCostMUsd" := VNumber (Fin 1) ]}.

Definition speedEntry : Stats.t := Stats.Build (Fin 1000) (Fin 2000) (Fin 1000).

Definition speedTable : gmap string Stats.t := {[ "topSpeedKmh" := speedEntry ]}.

Definition anton : Aircraft.t :=
  Aircraft.Build "anton" "a"
    {[ "topSpeedKmh" := VNumber (Fin 5); "rangeKm" := VNumber (Fin 10) ]}.

(** An aircraft without any numeric attribute. *)
Definition mike : Aircraft.t := Aircraft.Build "mike" "m" ∅.

Definition zulu : Aircraft.t :=
  Aircraft.Build "zulu" "z"
    {[ "topSpeedKmh" := VNumber (Fin 5); "rangeKm" := VNumber (Fin 90) ]}.

(** An entry with [max !== min] and a span of zero, which
    [buildMetricStats] never stores. *)
Definition flatEntry : Stats.t := Stats.Build (Fin 0) (Fin 1) (Fin 0).

(** The table built over the three aircraft, with the entry of the top
    speed replaced by the one of span zero. *)
Definition flatTable : gmap string Stats.t :=
  <[ "topSpeedKmh" := flatEntry ]> (buildMetricStats [anton; mike; zulu]).

Definition f22 : Viewer.model :=
  Viewer.Model (VString "/models/verified/f22.glb").

(** The verified model is not served, the unverified one is. *)
Definition onlyUnverified : Viewer.world :=
  Viewer.World
    (fun url =>
       if String.eqb url "/models/unverified/f22.glb" then Viewer.Response 200
       else Viewer.Response 404)
    (fun _ => true).

(** Nothing is served: every request throws. *)
Definition offline : Viewer.world :=
  Viewer.World (fun _ => Viewer.Throws) (fun _ => true).

(** Every model is served, but the effect is cleaned up while the first
    request is in flight. *)
Definition tornDown : Viewer.world :=
  Viewer.World (fun _ => Viewer.Response 200) (fun _ => false).

(** Nothing is served, and the effect is cleaned up while the first
    request is in flight. *)
Definition offlineTornDown : Viewer.world :=
  Viewer.World (fun _ => Viewer.Throws) (fun _ => false).

Definition page : Wiki.payload :=
  Wiki.Payload (Some "A fighter.") None (Some "thumb.png")
    (Some "https://en.wikipedia.org/wiki/A").

(** Two titles, the first of which holds the separator of the key. *)
Definition nulTitles : list string :=
  [String "a" (String Wiki.NUL "b"); "a"%string].

End Sample.

(** * The callers of the scoring engine, the selection and the viewer *)

(** ** Leaders of one metric *)

(** [METRIC_BY_KEY]: [ANALYZE_METRICS] reduced into an object by key; the
    table holds the properties of the object itself. *)
Definition METRIC_BY_KEY : gmap string Metric.t :=
  fold_left (fun table metric => <[Metric.key metric := metric]> table)
    ANALYZE_METRICS ∅.

Section Leader.

Variable localeCompare : string -> string -> Z.

(** The comparator of [metricLeader]: the difference of the normalized
    values when it is not [0] ([NaN] is not), the comparison of the names
    otherwise. *)
Definition leaderCompare (metric : Metric.t) (metricStats : gmap string Stats.t)
    (a b : Aircraft.t) : number :=
  let delta := (normalizedMetric b metric metricStats
                - normalizedMetric a metric metricStats)%num in
  if negb (Num.strict_eq delta (Fin 0)) then delta
  else Num.of_Z (localeCompare (Aircraft.name a) (Aircraft.name b)).

(** [metricLeader]; a metric that [METRIC_BY_KEY] does not hold is
    [undefined], here [None], and so is the result [null]. *)
Definition metricLeader (aircraftList : list Aircraft.t)
    (metric : option Metric.t) (metricStats : gmap string Stats.t)
  : option Aircraft.t :=
  match metric with
  | None => None
  | Some metric =>
      if Nat.eqb (length aircraftList) 0 then None
      else head (Array.sort (leaderCompare metric metricStats) aircraftList)
  end.

End Leader.

(** The order of one card of the metric deep dive:
    [[...compareAircraft].sort((a, b) => normalizedMetric(b, ...) -
    normalizedMetric(a, ...))]. *)
Definition deepDiveOrder (compareAircraft : list Aircraft.t) (metric : Metric.t)
    (metricStats : gmap string Stats.t) : list Aircraft.t :=
  Array.sort
    (fun a b => (normalizedMetric b metric metricStats
                 - normalizedMetric a metric metricStats)%num)
    compareAircraft.

(** ** The tables of [AppContent] and the compared aircraft *)

(** [new Map(items.map((item) => [key(item), item]))]: the entries are set
    in order, so a later item replaces an earlier one of the same key. *)
Definition mapBy {A : Type} (key : A -> string) (items : list A)
  : gmap string A :=
  fold_left (fun table item => <[key item := item]> table) items ∅.

Definition aircraftById (aircraftData : list Aircraft.t)
  : gmap string Aircraft.t :=
  mapBy Aircraft.id aircraftData.

(** [compareIds.map((id) => aircraftById.get(id)).filter(Boolean)] *)
Definition compareAircraft (aircraftById : gmap string Aircraft.t)
    (compareIds : list string) : list Aircraft.t :=
  omap (fun found : option Aircraft.t => found)
       (map (fun id => aircraftById !! id) compareIds).

(** [compareIds.length >= ANALYZE_LIMIT && !inCompare], which disables the
    button of a card. *)
Definition compareLocked (compareIds : list string) (id : string) : bool :=
  Nat.leb ANALYZE_LIMIT (length compareIds) && negb (includes compareIds id).

(** The number of [AWAITING_DATA] cards of the dock:
    [Array.from({ length: ANALYZE_LIMIT - compareAircraft.length })]; a
    negative length gives no card. *)
Definition emptySlots (compareAircraft : list Aircraft.t) : nat :=
  (ANALYZE_LIMIT - length compareAircraft)%nat.

(** ** Notions used to state how the score behaves *)

(** The entries of the configured metrics have a finite minimum and a
    positive finite span. *)
Definition positiveSpans (metricStats : gmap string Stats.t) : Prop :=
  forall m stats,
    In m ANALYZE_METRICS -> metricStats !! Metric.key m = Some stats ->
    exists mn sp,
      Stats.min stats = Fin mn /\ Stats.span stats = Fin sp /\ 0 < sp.

(** [b] is at least as good as [a] on the metric: its value, 0 when
    missing or not finite, is not lower when higher is better, and not
    higher otherwise. *)
Definition atLeastAsGood (metric : Metric.t) (a b : Aircraft.t) : Prop :=
  (if Metric.higherBetter metric
   then Num.leb (valueOrZero (Aircraft.get a (Metric.key metric)))
                (valueOrZero (Aircraft.get b (Metric.key metric)))
   else Num.leb (valueOrZero (Aircraft.get b (Metric.key metric)))
                (valueOrZero (Aircraft.get a (Metric.key metric)))) = true.

(** ** The rank and score tables of the dock *)

(** [new Map(entries)] for entries keyed by strings. *)
Definition mapOf {V : Type} (entries : list (string * V)) : gmap string V :=
  fold_left (fun table (entry : string * V) => <[entry.1 := entry.2]> table)
    entries ∅.

(** [array.map((item, index) => f(item, index))], counting from [index]. *)
Fixpoint mapIndexed {A B : Type} (f : A -> nat -> B) (index : nat) (l : list A)
  : list B :=
  match l with
  | [] => []
  | item :: rest => f item index :: mapIndexed f (S index) rest
  end.

(** [new Map(compareScoreboard.map((item) => [item.id, item.score]))] *)
Definition compareScoreById (compareScoreboard : list Scored.t)
  : gmap string number :=
  mapOf (map (fun item => (Aircraft.id (Scored.aircraft item), Scored.score item))
             compareScoreboard).

(** [new Map(compareScoreboard.map((item, index) => [item.id, index + 1]))] *)
Definition compareRankById (compareScoreboard : list Scored.t)
  : gmap string nat :=
  mapOf (mapIndexed
           (fun item index => (Aircraft.id (Scored.aircraft item), (index + 1)%nat))
           0 compareScoreboard).

(** ** The list of the catalog *)

(** [value === s] for a string [s]. *)
Definition strictEqString (v : value) (s : string) : bool :=
  match v with
  | VString x => String.eqb x s
  | _ => false
  end.

(** [text.includes(needle)] *)
Definition stringIncludes (text needle : string) : bool :=
  match String.index 0 needle text with
  | Some _ => true
  | None => false
  end.

Section Catalog.

Variable localeCompare : string -> string -> Z.

(** Functions of the language that are taken as they are:
    [String.prototype.toLowerCase], [String.prototype.trim], the
    conversion to a string of a template literal and the conversion to a
    number of the operands of [-]. *)
Variable toLowerCase : string -> string.
Variable trim : string -> string.
Variable toString : value -> string.
Variable toNumber : value -> number.

(** The query, the three filters and the sort key of the page. *)
Variable query : string.
Variable roleFilter : string.
Variable countryFilter : string.
Variable generationFilter : string.
Variable sortBy : string.

(** The text the query is looked up in. *)
Definition searchText (item : Aircraft.t) : string :=
  toLowerCase
    (Aircraft.name item ++ " " ++ toString (Aircraft.get item "country")
     ++ " " ++ toString (Aircraft.get item "role")
     ++ " " ++ toString (Aircraft.get item "generation")
     ++ " " ++ toString (Aircraft.get item "manufacturer"))%string.

Definition passesQuery (item : Aircraft.t) : bool :=
  if negb (Str.truthy (trim query)) then true
  else stringIncludes (searchText item) (toLowerCase (trim query)).

Definition passesFilter (filter key : string) (item : Aircraft.t) : bool :=
  if String.eqb filter "All" then true
  else strictEqString (Aircraft.get item key) filter.

(** [(a, b) => b[key] - a[key]] *)
Definition descendingBy (key : string) (a b : Aircraft.t) : number :=
  (toNumber (Aircraft.get b key) - toNumber (Aircraft.get a key))%num.

(** The [filtered] memo of [CatalogPage]. *)
Definition filtered (aircraft : list Aircraft.t) : list Aircraft.t :=
  let list :=
    List.filter (passesFilter generationFilter "generation")
      (List.filter (passesFilter countryFilter "country")
         (List.filter (passesFilter roleFilter "role")
            (List.filter passesQuery aircraft))) in
  if String.eqb sortBy "speed" then
    Array.sort (descendingBy "topSpeedKmh") list
  else if String.eqb sortBy "range" then
    Array.sort (descendingBy "rangeKm") list
  else if String.eqb sortBy "combatRadius" then
    Array.sort (descendingBy "combatRadiusKm") list
  else if String.eqb sortBy "ceiling" then
    Array.sort (descendingBy "serviceCeilingM") list
  else if String.eqb sortBy "stealth" then
    Array.sort (descendingBy "stealthScore") list
  else if String.eqb sortBy "cost" then
    Array.sort (fun a b => descendingBy "unitCostMUsd" b a) list
  else if String.eqb sortBy "firstFlight" then
    Array.sort (descendingBy "firstFlight") list
  else if String.eqb sortBy "introduced" then
    Array.sort (descendingBy "introduced") list
  else
    Array.sort
      (fun a b => Num.of_Z (localeCompare (Aircraft.name a) (Aircraft.name b)))
      list.

(** An aircraft passes every active filter. *)
Definition passesAll (item : Aircraft.t) : bool :=
  passesQuery item && passesFilter roleFilter "role" item
  && passesFilter countryFilter "country" item
  && passesFilter generationFilter "generation" item.

End Catalog.

(** ** The model manifest *)

Module Manifest.

(** An entry of [models.manifest.json]: the identifier of the model, the
    identifier of the aircraft it shows and the path of the file; scale,
    position and rotation are not read by what follows. *)
Record item : Type := Item {
  id : string;
  aircraftId : string;
  path : value
}.

(** The entry as the [model] property of [ModelViewer]. *)
Definition toModel (entry : item) : Viewer.model := Viewer.Model (path entry).

End Manifest.

Definition modelsById (modelsManifest : list Manifest.item)
  : gmap string Manifest.item :=
  mapBy Manifest.id modelsManifest.

Definition modelsByAircraftId (modelsManifest : list Manifest.item)
  : gmap string Manifest.item :=
  mapBy Manifest.aircraftId modelsManifest.

(** [table.get(key)] for a key that is any value: the keys of these tables
    are strings, so only a string finds an entry. *)
Definition mapGet {A : Type} (table : gmap string A) (key : value) : option A :=
  match key with
  | VString s => table !! s
  | _ => None
  end.

(** [table.has(key)] *)
Definition mapHas {A : Type} (table : gmap string A) (key : value) : bool :=
  match mapGet table key with
  | Some _ => true
  | None => false
  end.

(** [resolveModel]; [None] is [null], for the aircraft as for the result. *)
Definition resolveModel (modelsManifest : list Manifest.item)
    (aircraft : option Aircraft.t) : option Manifest.item :=
  match aircraft with
  | None => None
  | Some aircraft =>
      let modelId := Aircraft.get aircraft "modelId" in
      if truthy modelId && mapHas (modelsById modelsManifest) modelId
      then mapGet (modelsById modelsManifest) modelId
      else modelsByAircraftId modelsManifest !! Aircraft.id aircraft
  end.

(** ** What [ModelViewer] renders *)

Module Screen.

Inductive t : Type :=
| Fallback                    (** [<FallbackMessage />] *)
| Verifying                   (** the panel [VERIFYING_MODEL_PATH] *)
| Canvas (modelPath : value). (** the canvas on [resolvedPath] *)

End Screen.

Definition isAvailability (a b : Viewer.availability) : bool :=
  match a, b with
  | Viewer.checking, Viewer.checking
  | Viewer.ready, Viewer.ready
  | Viewer.missing, Viewer.missing => true
  | _, _ => false
  end.

(** The [return] statements of [ModelViewer], in their order. *)
Definition render (model : option Viewer.model) (st : Viewer.state) : Screen.t :=
  match model with
  | None => Screen.Fallback
  | Some _ =>
      if isAvailability (Viewer.avail st) Viewer.checking
         || negb (truthy (Viewer.resolvedPath st))
      then Screen.Verifying
      else if isAvailability (Viewer.avail st) Viewer.missing
      then Screen.Fallback
      else Screen.Canvas (Viewer.resolvedPath st)
  end.

(** The state of a mounted viewer once [verify] has returned. *)
Definition mounted (w : Viewer.world) (model : option Viewer.model)
  : Viewer.state :=
  (Viewer.verify w model (Viewer.initial model)).1.

(** ** The materials of [GLTFModel] *)

Module Gltf.

(** A material: the shared wireframe material [hackerMaterial], or a
    material of the loaded file. *)
Inductive Material : Type :=
| hackerMaterial
| Loaded (n : nat).

(** What the two effects read and write of an object of the scene. *)
Record object3D : Type := Object3D {
  uuid : string;
  isMesh : bool;
  material : Material;
  castShadow : bool;
  receiveShadow : bool
}.

(** The first effect: [scene.traverse] over the objects (the list holds
    them in the order of the traversal), storing the material of each mesh
    whose [uuid] is not stored yet. *)
Definition storeOriginals (stored : gmap string Material)
    (scene : list object3D) : gmap string Material :=
  fold_left
    (fun stored object =>
       if isMesh object && negb (bool_decide (is_Some (stored !! uuid object)))
       then <[uuid object := material object]> stored
       else stored)
    scene stored.

(** The second effect on one object. *)
Definition switchObject (wireframe : bool) (stored : gmap string Material)
    (object : object3D) : object3D :=
  if isMesh object then
    if wireframe then
      Object3D (uuid object) (isMesh object) hackerMaterial false false
    else
      Object3D (uuid object) (isMesh object)
        (match stored !! uuid object with
         | Some original => original
         | None => material object
         end)
        true true
  else object.

Definition switchMaterials (wireframe : bool) (stored : gmap string Material)
    (scene : list object3D) : list object3D :=
  map (switchObject wireframe stored) scene.

(** The component: the map of [originalMaterials] and the scene. *)
Record component : Type := Component {
  stored : gmap string Material;
  scene : list object3D
}.

Inductive effect : Type :=
| Store                      (** the first effect runs *)
| Switch (wireframe : bool). (** the second effect runs *)

Definition fire (c : component) (e : effect) : component :=
  match e with
  | Store => Component (storeOriginals (stored c) (scene c)) (scene c)
  | Switch wireframe =>
      Component (stored c) (switchMaterials wireframe (stored c) (scene c))
  end.

Definition run (c : component) (effects : list effect) : component :=
  fold_left fire effects c.

(** The [wireframe] of the last run of the second effect. *)
Definition lastSwitch (effects : list effect) : option bool :=
  fold_left
    (fun last e => match e with Switch w => Some w | Store => last end)
    effects None.

End Gltf.

(** ** The geometry statistics of [useModelStats] *)

Module ModelStats.

(** What the callback reads of a geometry: [index.count] when the geometry
    has an index, [attributes.position.count] when it has positions. *)
Record geometry : Type := Geometry {
  indexCount : option number;
  positionCount : option number
}.

(** An object of the scene, as the callback sees it. *)
Record object3D : Type := Object3D {
  isMesh : bool;
  geo : option geometry
}.

(** [{ triangles, vertices, meshes }] *)
Record t : Type := Stats {
  triangles : number;
  vertices : number;
  meshes : number
}.

(** The callback handed to [scene.traverse], on the running counts. *)
Definition visit (acc : t) (object : object3D) : t :=
  if isMesh object then
    let meshes := (meshes acc + Fin 1)%num in
    match geo object with
    | Some g =>
        let triangles :=
          match indexCount g with
          | Some count => (triangles acc + count / Fin 3)%num
          | None =>
              match positionCount g with
              | Some count => (triangles acc + count / Fin 3)%num
              | None => triangles acc
              end
          end in
        let vertices :=
          match positionCount g with
          | Some count => (vertices acc + count)%num
          | None => vertices acc
          end in
        Stats triangles vertices meshes
    | None => Stats (triangles acc) (vertices acc) meshes
    end
  else acc.

(** [onSceneReady] over the objects of the scene, in the order of the
    traversal; the result is what [setStats] receives. *)
Definition onSceneReady (scene : list object3D) : t :=
  let counted := fold_left visit scene (Stats (Fin 0) (Fin 0) (Fin 0)) in
  Stats (Math.round (triangles counted)) (vertices counted) (meshes counted).

(** A mesh of the object is a plain list of triangles: no index, and a
    number of positions that is a multiple of three. *)
Definition triangleList (object : object3D) : Prop :=
  isMesh object = true ->
  exists k : Z,
    (0 <= k)%Z
    /\ geo object = Some (Geometry None (Some (Fin (inject_Z (3 * k))))).

End ModelStats.

(** ** The progress bar of [PageTransition] *)

(** [Math.floor(x)] *)
Definition Math_floor (a : number) : number :=
  match a with
  | Fin x => Fin (inject_Z (Qfloor x))
  | other => other
  end.

(** The updater a tick of the interval hands to [setProgress], for the
    number [Math.random()] returns at that tick. *)
Definition bootProgress (random current : number) : number :=
  if Num.leb (Fin 100) current then Fin 100
  else Math.min [Fin 100; ((current + Math_floor (random * Fin 25)) + Fin 5)%num].

(** The progress after the ticks that drew these numbers, from
    [setProgress(0)]. *)
Definition bootTicks (randoms : list number) : number :=
  fold_left (fun current random => bootProgress random current) randoms (Fin 0).

(** A number [Math.random()] can return: finite, at least 0 and below 1. *)
Definition isRandom (r : number) : Prop :=
  match r with
  | Fin q => 0 <= q < 1
  | _ => False
  end.

(** ** Notions used to state what the hook publishes *)

(** Every summary of [items] is the one the cache holds for the title. *)
Definition itemsFromCache (h : Wiki.hook) : Prop :=
  forall t s,
    Wiki.items h !! t = Some (Some s) -> Wiki.cache h !! t = Some (Some s).

(** The slots of the current run are for distinct titles; a slot that
    returned a summary returned the cached one, and a title in flight is
    not cached. *)
Definition slotsAgree (h : Wiki.hook) : Prop :=
  match Wiki.live h with
  | Some slots =>
      List.NoDup (map fst slots)
      /\ (forall j t s, slots !! j = Some (t, Some (Some s)) ->
                        Wiki.cache h !! t = Some (Some s))
      /\ (forall j t, slots !! j = Some (t, None) -> Wiki.cache h !! t = None)
  | None => True
  end.

(** When every slot of the current run has returned, [items] is the
    object built from the slots. *)
Definition itemsPublished (h : Wiki.hook) : Prop :=
  forall slots m,
    Wiki.live h = Some slots -> Wiki.entries slots = Some m ->
    Wiki.items h = m.

(** ** Further sample data *)

Module Fleet.

Definition unitCost : Metric.t :=
  Metric.Build "unitCostMUsd" "UNIT_COST" "M USD" "#ff6680" false (Fin (9 # 10)).

(** The three aircraft of the samples that carry a top speed or a cost. *)
Definition all : list Aircraft.t := [Sample.alpha; Sample.bravo; Sample.mike].

(** A scene of two meshes under a group. *)
Definition scene : list Gltf.object3D :=
  [ Gltf.Object3D "group" false Gltf.hackerMaterial false false;
    Gltf.Object3D "hull" true (Gltf.Loaded 1) false false;
    Gltf.Object3D "canopy" true (Gltf.Loaded 2) true false ].

End Fleet.

(** * Properties *)

(** ** Numbers *)

Lemma Qle_bool_false (x y : Q) : Qle_bool x y = false <-> y < x.
Proof.
  split; intros H.
  - apply Qnot_le_lt. intros Hle. apply Qle_bool_iff in Hle. congruence.
  - destruct (Qle_bool x y) eqn:E; [|reflexivity].
    apply Qle_bool_iff in E. exfalso. apply (Qlt_not_le _ _ H E).
Qed.

Lemma ltb_Fin (x y : Q) : Num.ltb (Fin x) (Fin y) = true <-> x < y.
Proof.
  simpl. rewrite negb_true_iff. apply Qle_bool_false.
Qed.

Lemma ltb_Fin_false (x y : Q) : Num.ltb (Fin x) (Fin y) = false <-> y <= x.
Proof.
  simpl. rewrite negb_false_iff. apply Qle_bool_iff.
Qed.

Lemma leb_Fin (x y : Q) : Num.leb (Fin x) (Fin y) = true <-> x <= y.
Proof.
  unfold Num.leb. rewrite orb_true_iff, ltb_Fin. simpl.
  rewrite Qeq_bool_iff. split.
  - intros [H | H]; [apply Qlt_le_weak, H | rewrite H; apply Qle_refl].
  - intros H. apply Qle_lt_or_eq in H. tauto.
Qed.

Lemma strict_eq_Fin (x y : Q) : Num.strict_eq (Fin x) (Fin y) = true <-> x == y.
Proof. simpl. apply Qeq_bool_iff. Qed.

Lemma equiv_refl (a : number) : (a ≃ a)%num.
Proof. destruct a; simpl; auto. apply Qeq_refl. Qed.

Lemma equiv_sym (a b : number) : (a ≃ b)%num -> (b ≃ a)%num.
Proof. destruct a, b; simpl; auto. apply Qeq_sym. Qed.

Lemma equiv_trans (a b c : number) : (a ≃ b)%num -> (b ≃ c)%num -> (a ≃ c)%num.
Proof. destruct a, b, c; simpl; try tauto. apply Qeq_trans. Qed.

Lemma round_equiv (a b : number) : (a ≃ b)%num -> Math.round a = Math.round b.
Proof.
  destruct a, b; try (simpl; tauto). intros H. simpl in H.
  unfold Math.round. f_equal. f_equal.
  apply Qfloor_comp. rewrite H. reflexivity.
Qed.

Lemma valueOrZero_finite (v : value) : exists q, valueOrZero v = Fin q.
Proof. destruct v as [| | |[]|]; simpl; eauto. Qed.

(** [Math.min] and [Math.max] of two finite numbers. *)
Lemma min2_Fin (x y : Q) :
  Math.min2 (Fin x) (Fin y) = if Num.ltb (Fin y) (Fin x) then Fin y else Fin x.
Proof. reflexivity. Qed.

Lemma max2_Fin (x y : Q) :
  Math.max2 (Fin x) (Fin y) = if Num.ltb (Fin x) (Fin y) then Fin y else Fin x.
Proof. reflexivity. Qed.

Lemma metricValues_finite (l : list Aircraft.t) (key : string) :
  allFinite (metricValues l key).
Proof.
  unfold allFinite, metricValues. apply Forall_map, Forall_forall.
  intros a _. destruct (valueOrZero_finite (Aircraft.get a key)) as [q ->].
  exact I.
Qed.

(** The running minimum of finite numbers is one of them and lies below
    all of them. *)
Lemma fold_min2_finite (l : list number) (q : Q) :
  allFinite l ->
  exists m, fold_left Math.min2 l (Fin q) = Fin m
            /\ In (Fin m) (Fin q :: l)
            /\ Forall (fun v => Num.leb (Fin m) v = true) (Fin q :: l).
Proof.
  revert q. induction l as [|v l IH]; intros q Hfin.
  - exists q. simpl. repeat split; auto. constructor; [|constructor].
    apply leb_Fin, Qle_refl.
  - inversion Hfin as [|? ? Hv Hl]; subst. destruct v as [x| | |]; try easy.
    cbn [fold_left]. rewrite min2_Fin.
    destruct (Num.ltb (Fin x) (Fin q)) eqn:E.
    + apply ltb_Fin in E. destruct (IH x Hl) as (m & Hm & Hin & Hall).
      exists m. split; [exact Hm|]. split.
      * simpl in Hin |- *. tauto.
      * inversion Hall as [|? ? Hmx Hrest]; subst.
        constructor; [|constructor; assumption].
        apply leb_Fin. apply leb_Fin in Hmx.
        apply Qle_trans with x; [exact Hmx | apply Qlt_le_weak, E].
    + apply ltb_Fin_false in E. destruct (IH q Hl) as (m & Hm & Hin & Hall).
      exists m. split; [exact Hm|]. split.
      * simpl in Hin |- *. tauto.
      * inversion Hall as [|? ? Hmq Hrest]; subst.
        constructor; [assumption|]. constructor; [|assumption].
        apply leb_Fin. apply leb_Fin in Hmq.
        apply Qle_trans with q; assumption.
Qed.

Lemma fold_max2_finite (l : list number) (q : Q) :
  allFinite l ->
  exists m, fold_left Math.max2 l (Fin q) = Fin m
            /\ In (Fin m) (Fin q :: l)
            /\ Forall (fun v => Num.leb v (Fin m) = true) (Fin q :: l).
Proof.
  revert q. induction l as [|v l IH]; intros q Hfin.
  - exists q. simpl. repeat split; auto. constructor; [|constructor].
    apply leb_Fin, Qle_refl.
  - inversion Hfin as [|? ? Hv Hl]; subst. destruct v as [x| | |]; try easy.
    cbn [fold_left]. rewrite max2_Fin.
    destruct (Num.ltb (Fin q) (Fin x)) eqn:E.
    + apply ltb_Fin in E. destruct (IH x Hl) as (m & Hm & Hin & Hall).
      exists m. split; [exact Hm|]. split.
      * simpl in Hin |- *. tauto.
      * inversion Hall as [|? ? Hmx Hrest]; subst.
        constructor; [|constructor; assumption].
        apply leb_Fin. apply leb_Fin in Hmx.
        apply Qle_trans with x; [apply Qlt_le_weak, E | exact Hmx].
    + apply ltb_Fin_false in E. destruct (IH q Hl) as (m & Hm & Hin & Hall).
      exists m. split; [exact Hm|]. split.
      * simpl in Hin |- *. tauto.
      * inversion Hall as [|? ? Hmq Hrest]; subst.
        constructor; [assumption|]. constructor; [|assumption].
        apply leb_Fin. apply leb_Fin in Hmq.
        apply Qle_trans with q; assumption.
Qed.

(** [Math.min(...values)] of a non-empty list of finite numbers: finite,
    attained, and a lower bound. *)
Lemma Math_min_finite (l : list number) :
  allFinite l -> l <> [] ->
  exists m, Math.min l = Fin m /\ In (Fin m) l
            /\ Forall (fun v => Num.leb (Fin m) v = true) l.
Proof.
  intros Hfin Hne. destruct l as [|v l]; [congruence|].
  inversion Hfin as [|? ? Hv Hl]; subst. destruct v as [x| | |]; try easy.
  unfold Math.min. cbn [fold_left]. apply fold_min2_finite, Hl.
Qed.

Lemma Math_max_finite (l : list number) :
  allFinite l -> l <> [] ->
  exists m, Math.max l = Fin m /\ In (Fin m) l
            /\ Forall (fun v => Num.leb v (Fin m) = true) l.
Proof.
  intros Hfin Hne. destruct l as [|v l]; [congruence|].
  inversion Hfin as [|? ? Hv Hl]; subst. destruct v as [x| | |]; try easy.
  unfold Math.max. cbn [fold_left]. apply fold_max2_finite, Hl.
Qed.

(** ** The stats table *)

Section FoldInsert.
Context {V : Type} (f : Metric.t -> V).

Let step (table : gmap string V) (metric : Metric.t) : gmap string V :=
  <[Metric.key metric := f metric]> table.

Lemma fold_insert_other (metrics : list Metric.t) (table : gmap string V)
    (k : string) :
  ~ In k (map Metric.key metrics) ->
  fold_left step metrics table !! k = table !! k.
Proof.
  revert table. induction metrics as [|m metrics IH]; intros table Hk.
  - reflexivity.
  - simpl in *. rewrite IH by tauto. unfold step.
    apply lookup_insert_ne. intros E. apply Hk. left. exact E.
Qed.

Lemma fold_insert_lookup (metrics : list Metric.t) (table : gmap string V)
    (m : Metric.t) :
  List.NoDup (map Metric.key metrics) -> In m metrics ->
  fold_left step metrics table !! Metric.key m = Some (f m).
Proof.
  revert table. induction metrics as [|m0 metrics IH]; intros table Hnd Hin.
  - destruct Hin.
  - simpl in *. inversion Hnd as [|? ? Hnotin Hnd']; subst.
    destruct Hin as [-> | Hin].
    + rewrite fold_insert_other by exact Hnotin. unfold step.
      apply lookup_insert_eq.
    + apply IH; assumption.
Qed.
End FoldInsert.

Lemma ANALYZE_METRICS_keys_NoDup : List.NoDup (map Metric.key ANALYZE_METRICS).
Proof.
  simpl. repeat (constructor; [simpl; intros H; repeat (destruct H as [H|H]; [discriminate H|]); exact H|]).
  constructor.
Qed.

Lemma buildMetricStats_lookup (l : list Aircraft.t) (m : Metric.t) :
  In m ANALYZE_METRICS ->
  buildMetricStats l !! Metric.key m = Some (metricStatsEntry l m).
Proof.
  intros Hin. unfold buildMetricStats.
  apply (fold_insert_lookup (metricStatsEntry l)); [|exact Hin].
  apply ANALYZE_METRICS_keys_NoDup.
Qed.

Lemma metricValues_nil (l : list Aircraft.t) (key : string) :
  l <> [] -> Nat.eqb (length (metricValues l key)) 0 = false.
Proof.
  intros H. unfold metricValues. rewrite length_map.
  destruct l; [congruence | reflexivity].
Qed.

(** The span [Math.max(max - min, 1)] of finite bounds. *)
Lemma span_finite (mn mx : Q) :
  exists sp, Math.max [(Fin mx - Fin mn)%num; Fin 1] = Fin sp /\ 1 <= sp
             /\ (sp == mx - mn \/ sp == 1) /\ mx - mn <= sp.
Proof.
  unfold Math.max. cbn [fold_left Num.sub].
  change (Math.max2 NegInf (Fin (mx - mn))) with (Fin (mx - mn)).
  rewrite max2_Fin. destruct (Num.ltb (Fin (mx - mn)) (Fin 1)) eqn:E.
  - apply ltb_Fin in E. exists 1. repeat split.
    + apply Qle_refl.
    + right. reflexivity.
    + apply Qlt_le_weak, E.
  - apply ltb_Fin_false in E. exists (mx - mn). repeat split.
    + exact E.
    + left. reflexivity.
    + apply Qle_refl.
Qed.

(** The bounds of an entry of [buildMetricStats] are finite, whatever the
    list. *)
Lemma metricStatsEntry_finite (l : list Aircraft.t) (m : Metric.t) :
  exists mn mx,
    Stats.min (metricStatsEntry l m) = Fin mn
    /\ Stats.max (metricStatsEntry l m) = Fin mx.
Proof.
  unfold metricStatsEntry. cbn [Stats.min Stats.max].
  destruct l as [|a l].
  - exists 0, 1. split; reflexivity.
  - rewrite metricValues_nil by discriminate.
    destruct (Math_min_finite (metricValues (a :: l) (Metric.key m)))
      as (mn & Hmn & _); [apply metricValues_finite | discriminate |].
    destruct (Math_max_finite (metricValues (a :: l) (Metric.key m)))
      as (mx & Hmx & _); [apply metricValues_finite | discriminate |].
    exists mn, mx. split; assumption.
Qed.

(** The span of an entry of [buildMetricStats] is finite and at least 1,
    whatever the list. *)
Lemma metricStatsEntry_span (l : list Aircraft.t) (m : Metric.t) :
  exists sp, Stats.span (metricStatsEntry l m) = Fin sp /\ 1 <= sp.
Proof.
  destruct (metricStatsEntry_finite l m) as (mn & mx & Hmn & Hmx).
  destruct (span_finite mn mx) as (sp & Hsp & Hsp1 & _).
  exists sp. split; [|exact Hsp1].
  change (Stats.span (metricStatsEntry l m))
    with (Math.max [(Stats.max (metricStatsEntry l m)
                     - Stats.min (metricStatsEntry l m))%num; Fin 1]).
  rewrite Hmn, Hmx. exact Hsp.
Qed.

(** Over a non-empty list the bounds of an entry are [Math.min] and
    [Math.max] of the substituted values: attained, and bounds of all. *)
Lemma metricStatsEntry_attained (l : list Aircraft.t) (m : Metric.t) :
  l <> [] ->
  let values := metricValues l (Metric.key m) in
  Stats.min (metricStatsEntry l m) = Math.min values
  /\ Stats.max (metricStatsEntry l m) = Math.max values
  /\ exists mn mx,
       Math.min values = Fin mn /\ Math.max values = Fin mx
       /\ In (Fin mn) values
       /\ List.Forall (fun v => Num.leb (Fin mn) v = true) values
       /\ In (Fin mx) values
       /\ List.Forall (fun v => Num.leb v (Fin mx) = true) values.
Proof.
  intros Hne values.
  assert (Hvne : values <> []).
  { unfold values, metricValues. destruct l; [congruence | discriminate]. }
  split; [|split].
  - unfold metricStatsEntry. cbn [Stats.min].
    rewrite metricValues_nil by exact Hne. reflexivity.
  - unfold metricStatsEntry. cbn [Stats.max].
    rewrite metricValues_nil by exact Hne. reflexivity.
  - destruct (Math_min_finite values) as (mn & Hmn & Hinmn & Hlow);
      [apply metricValues_finite | exact Hvne |].
    destruct (Math_max_finite values) as (mx & Hmx & Hinmx & Hup);
      [apply metricValues_finite | exact Hvne |].
    exists mn, mx. repeat (split; [assumption|]). assumption.
Qed.


(** ** Normalization *)

(** C3. When the entry of the metric has [max === min], [normalizedMetric]
    returns exactly 1 for every aircraft, whatever the direction flag; in
    particular this is so for the table built over a non-empty list whose
    substituted values for that metric all coincide. *)
Theorem normalizedMetric_tie
    (aircraft : Aircraft.t) (metric : Metric.t)
    (metricStats : gmap string Stats.t) (stats : Stats.t)
    (aircraftList : list Aircraft.t) :
  (metricStats !! Metric.key metric = Some stats ->
   Num.strict_eq (Stats.max stats) (Stats.min stats) = true ->
   normalizedMetric aircraft metric metricStats = Fin 1)
  /\ (aircraftList <> [] ->
      In (Metric.key metric) (map Metric.key ANALYZE_METRICS) ->
      (forall a b, In a aircraftList -> In b aircraftList ->
         Num.strict_eq (valueOrZero (Aircraft.get a (Metric.key metric)))
                       (valueOrZero (Aircraft.get b (Metric.key metric)))
         = true) ->
      normalizedMetric aircraft metric (buildMetricStats aircraftList) = Fin 1).
Proof.
  assert (General : forall table st,
            table !! Metric.key metric = Some st ->
            Num.strict_eq (Stats.max st) (Stats.min st) = true ->
            normalizedMetric aircraft metric table = Fin 1).
  { intros table st Hlook Heq. unfold normalizedMetric.
    rewrite Hlook. cbn zeta. rewrite Heq. reflexivity. }
  split; [apply General|].
  intros Hne Hkey Htie.
  apply in_map_iff in Hkey. destruct Hkey as (m0 & Hk0 & Hm0).
  pose proof (buildMetricStats_lookup aircraftList m0 Hm0) as Hlook.
  destruct (metricStatsEntry_attained aircraftList m0 Hne)
    as (Emin & Emax & mn & mx & Hmn & Hmx & Hinmn & _ & Hinmx & _).
  rewrite Hk0 in *.
  apply (General _ _ Hlook). rewrite Emin, Emax, Hmn, Hmx.
  unfold metricValues in Hinmn, Hinmx.
  apply in_map_iff in Hinmn. destruct Hinmn as (a & Ea & Ha).
  apply in_map_iff in Hinmx. destruct Hinmx as (b & Eb & Hb).
  rewrite <- Ea, <- Eb. apply Htie; assumption.
Qed.

Lemma clamp_spec (x : number) :
  (Math.max [Fin 0; Math.min [Fin 1; x]] ≃ spec_clamp01 x)%num.
Proof.
  destruct x as [q| | |]; try exact I; try (vm_compute; reflexivity).
  unfold Math.max, Math.min, spec_clamp01. cbn [fold_left].
  change (Math.min2 PosInf (Fin 1)) with (Fin 1).
  change (Math.max2 NegInf (Fin 0)) with (Fin 0).
  rewrite min2_Fin.
  destruct (Num.ltb (Fin q) (Fin 1)) eqn:E1.
  - rewrite max2_Fin.
    destruct (Num.ltb (Fin 0) (Fin q)) eqn:E0.
    + apply ltb_Fin in E0, E1.
      assert (Num.ltb (Fin q) (Fin 0) = false) as ->
        by (apply ltb_Fin_false, Qlt_le_weak, E0).
      assert (Num.ltb (Fin 1) (Fin q) = false) as ->
        by (apply ltb_Fin_false, Qlt_le_weak, E1).
      apply equiv_refl.
    + apply ltb_Fin_false in E0. apply ltb_Fin in E1.
      destruct (Num.ltb (Fin q) (Fin 0)) eqn:E; [apply equiv_refl|].
      apply ltb_Fin_false in E.
      assert (Num.ltb (Fin 1) (Fin q) = false) as ->
        by (apply ltb_Fin_false, Qlt_le_weak, E1).
      simpl. apply Qle_antisym; assumption.
  - apply ltb_Fin_false in E1. rewrite max2_Fin.
    assert (Num.ltb (Fin 0) (Fin 1) = true) as -> by reflexivity.
    assert (Num.ltb (Fin q) (Fin 0) = false) as ->.
    { apply ltb_Fin_false. apply Qle_trans with 1; [discriminate | exact E1]. }
    destruct (Num.ltb (Fin 1) (Fin q)) eqn:E; [apply equiv_refl|].
    apply ltb_Fin_false in E. simpl. apply Qle_antisym; assumption.
Qed.

Lemma clamp_between (q : Q) :
  Num.between 0 1 (Math.max [Fin 0; Math.min [Fin 1; Fin q]]).
Proof.
  unfold Math.max, Math.min. cbn [fold_left].
  change (Math.min2 PosInf (Fin 1)) with (Fin 1).
  change (Math.max2 NegInf (Fin 0)) with (Fin 0).
  rewrite min2_Fin.
  destruct (Num.ltb (Fin q) (Fin 1)) eqn:E1.
  - rewrite max2_Fin. apply ltb_Fin in E1.
    destruct (Num.ltb (Fin 0) (Fin q)) eqn:E0.
    + apply ltb_Fin in E0. simpl. split; apply Qlt_le_weak; assumption.
    + simpl. split; [apply Qle_refl | discriminate].
  - rewrite max2_Fin. assert (Num.ltb (Fin 0) (Fin 1) = true) as -> by reflexivity.
    simpl. split; [discriminate | apply Qle_refl].
Qed.

Lemma valueOrZero_spec (v : value) :
  valueOrZero v = match v with VNumber (Fin q) => Fin q | _ => Fin 0 end.
Proof. reflexivity. Qed.

(** For a usable entry the directional baseline is finite. *)
Lemma spec_directional_finite (aircraft : Aircraft.t) (metric : Metric.t)
    (stats : Stats.t) :
  Stats.usable stats ->
  exists q, spec_directional aircraft metric stats = Fin q.
Proof.
  unfold Stats.usable, spec_directional. intros Hu.
  destruct (Stats.min stats) as [mn| | |]; try contradiction.
  destruct (Stats.span stats) as [sp| | |]; try contradiction.
  rewrite <- valueOrZero_spec.
  destruct (valueOrZero_finite (Aircraft.get aircraft (Metric.key metric)))
    as [v ->].
  cbn [Num.sub Num.div].
  assert (Qeq_bool sp 0 = false) as ->.
  { destruct (Qeq_bool sp 0) eqn:E; [|reflexivity].
    apply Qeq_bool_iff in E. contradiction. }
  destruct (Metric.higherBetter metric); cbn [Num.sub]; eauto.
Qed.

Lemma normalizedMetric_unfold
    (aircraft : Aircraft.t) (metric : Metric.t)
    (metricStats : gmap string Stats.t) (stats : Stats.t) :
  metricStats !! Metric.key metric = Some stats ->
  Num.strict_eq (Stats.max stats) (Stats.min stats) = false ->
  normalizedMetric aircraft metric metricStats
  = Math.max [Fin 0; Math.min [Fin 1; spec_directional aircraft metric stats]].
Proof.
  intros Hlook Hne. unfold normalizedMetric. rewrite Hlook. cbn zeta.
  rewrite Hne. reflexivity.
Qed.

Lemma normalizedMetric_between
    (aircraft : Aircraft.t) (metric : Metric.t)
    (metricStats : gmap string Stats.t) :
  usableFor metricStats metric ->
  Num.between 0 1 (normalizedMetric aircraft metric metricStats).
Proof.
  intros Hu. unfold usableFor in Hu.
  destruct (metricStats !! Metric.key metric) as [stats|] eqn:Hlook.
  - destruct (Num.strict_eq (Stats.max stats) (Stats.min stats)) eqn:Hne.
    + unfold normalizedMetric. rewrite Hlook. cbn zeta. rewrite Hne.
      simpl. split; [discriminate | apply Qle_refl].
    + rewrite (normalizedMetric_unfold _ _ _ stats Hlook Hne).
      destruct (spec_directional_finite aircraft metric stats (Hu stats eq_refl Hne))
        as [q ->].
      apply clamp_between.
  - unfold normalizedMetric. rewrite Hlook. simpl.
    split; [apply Qle_refl | discriminate].
Qed.

(** Every table built by [buildMetricStats] is usable. *)
Lemma buildMetricStats_usable (aircraftList : list Aircraft.t) (m : Metric.t) :
  In m ANALYZE_METRICS -> usableFor (buildMetricStats aircraftList) m.
Proof.
  intros Hm stats Hlook _.
  rewrite (buildMetricStats_lookup aircraftList m Hm) in Hlook.
  injection Hlook as <-.
  destruct (metricStatsEntry_finite aircraftList m) as (mn & mx & Hmn & _).
  destruct (metricStatsEntry_span aircraftList m) as (sp & Hsp & Hsp1).
  unfold Stats.usable. rewrite Hmn, Hsp. intros E. rewrite E in Hsp1.
  apply Hsp1. reflexivity.
Qed.

(** The clamp of anything but [NaN] lies in [[0,1]]. *)
Lemma clamp_cases (x : number) :
  (x = NaN /\ Math.max [Fin 0; Math.min [Fin 1; x]] = NaN)
  \/ (x <> NaN /\ Num.between 0 1 (Math.max [Fin 0; Math.min [Fin 1; x]])).
Proof.
  destruct x as [q| | |].
  - right. split; [discriminate | apply clamp_between].
  - left. split; reflexivity.
  - right. split; [discriminate|]. vm_compute. split; discriminate.
  - right. split; [discriminate|]. vm_compute. split; discriminate.
Qed.

(** [normalizedMetric] returns [NaN] or a number of [[0,1]], whatever the
    table. *)
Lemma normalizedMetric_cases
    (aircraft : Aircraft.t) (metric : Metric.t)
    (metricStats : gmap string Stats.t) :
  normalizedMetric aircraft metric metricStats = NaN
  \/ Num.between 0 1 (normalizedMetric aircraft metric metricStats).
Proof.
  destruct (metricStats !! Metric.key metric) as [stats|] eqn:Hlook.
  - destruct (Num.strict_eq (Stats.max stats) (Stats.min stats)) eqn:Hne.
    + right. unfold normalizedMetric. rewrite Hlook. cbn zeta. rewrite Hne.
      simpl. split; [discriminate | apply Qle_refl].
    + rewrite (normalizedMetric_unfold _ _ _ stats Hlook Hne).
      destruct (clamp_cases (spec_directional aircraft metric stats))
        as [[_ H] | [_ H]]; [left | right]; exact H.
  - right. unfold normalizedMetric. rewrite Hlook. simpl.
    split; [apply Qle_refl | discriminate].
Qed.


(** ** The composite score *)

Lemma add_equiv (a a' b b' : number) :
  (a ≃ a')%num -> (b ≃ b')%num -> (a + b ≃ a' + b')%num.
Proof.
  destruct a, a', b, b'; simpl; try tauto.
  intros H1 H2. rewrite H1, H2. reflexivity.
Qed.

Lemma add_assoc (a b c : number) : ((a + b) + c ≃ a + (b + c))%num.
Proof.
  destruct a, b, c; simpl; auto. symmetry. apply Qplus_assoc.
Qed.

Lemma add_zero_r (a : number) : (a + Fin 0 ≃ a)%num.
Proof. destruct a; simpl; auto. apply Qplus_0_r. Qed.

(** The accumulating loop of [reduce] adds up the terms. *)
Lemma fold_left_add_sum {A : Type} (f : A -> number) (l : list A) (acc : number) :
  (fold_left (fun sum x => sum + f x) l acc ≃ acc + spec_sum (map f l))%num.
Proof.
  revert acc. induction l as [|x l IH]; intros acc.
  - simpl. apply equiv_sym, add_zero_r.
  - cbn [fold_left map spec_sum fold_right].
    eapply equiv_trans; [apply IH|]. apply add_assoc.
Qed.

Lemma add_zero_l (a : number) : (Fin 0 + a ≃ a)%num.
Proof. destruct a; simpl; auto. apply Qplus_0_l. Qed.

Lemma scale_equiv (w w' : number) (t t' : Q) :
  (w ≃ w')%num -> t == t' -> 0 < t ->
  ((w / Fin t) * Fin 100 ≃ (Fin 100 * w') / Fin t')%num.
Proof.
  intros Hw Ht Hpos.
  assert (Hpos' : 0 < t') by (rewrite <- Ht; exact Hpos).
  assert (Et : Qeq_bool t 0 = false).
  { destruct (Qeq_bool t 0) eqn:E; [|reflexivity]. apply Qeq_bool_iff in E.
    rewrite E in Hpos. discriminate. }
  assert (Et' : Qeq_bool t' 0 = false).
  { destruct (Qeq_bool t' 0) eqn:E; [|reflexivity]. apply Qeq_bool_iff in E.
    rewrite E in Hpos'. discriminate. }
  assert (Lt : Qle_bool 0 t = true) by (apply Qle_bool_iff, Qlt_le_weak, Hpos).
  assert (Lt' : Qle_bool 0 t' = true) by (apply Qle_bool_iff, Qlt_le_weak, Hpos').
  destruct w as [x| | |], w' as [x'| | |]; simpl in Hw; try contradiction.
  - cbn [Num.div Num.mul]. rewrite Et, Et'. cbn [Num.mul Num.equiv].
    rewrite Hw, Ht. field.
    intros E. rewrite E in Hpos'. discriminate.
  - exact I.
  - change (Fin 100 * PosInf)%num with PosInf.
    cbn [Num.div]. rewrite Lt, Lt'. exact I.
  - change (Fin 100 * NegInf)%num with NegInf.
    cbn [Num.div]. rewrite Lt, Lt'. exact I.
Qed.

(** Once [NaN], the weighted sum stays [NaN]. *)
Lemma weighted_NaN (aircraft : Aircraft.t) (metricStats : gmap string Stats.t)
    (metrics : list Metric.t) :
  fold_left
    (fun sum m => (sum + normalizedMetric aircraft m metricStats
                         * Metric.weight m)%num) metrics NaN = NaN.
Proof. induction metrics as [|m metrics IH]; [reflexivity | exact IH]. Qed.

(** The weighted sum is [NaN] when some metric normalizes to [NaN];
    otherwise it stays between 0 and the total weight (no weight being
    negative). *)
Lemma weighted_cases (aircraft : Aircraft.t) (metricStats : gmap string Stats.t)
    (metrics : list Metric.t) (a b : Q) :
  (forall m, In m metrics -> exists w, Metric.weight m = Fin w /\ 0 <= w) ->
  ((exists m, In m metrics /\ normalizedMetric aircraft m metricStats = NaN)
   /\ fold_left
        (fun sum m => (sum + normalizedMetric aircraft m metricStats
                             * Metric.weight m)%num) metrics (Fin a) = NaN)
  \/ ((forall m, In m metrics -> normalizedMetric aircraft m metricStats <> NaN)
      /\ exists s t,
          fold_left
            (fun sum m => (sum + normalizedMetric aircraft m metricStats
                                 * Metric.weight m)%num) metrics (Fin a) = Fin s
          /\ fold_left (fun sum m => (sum + Metric.weight m)%num) metrics (Fin b)
             = Fin t
          /\ a <= s /\ s - a <= t - b).
Proof.
  revert a b. induction metrics as [|m metrics IH]; intros a b Hall.
  - right. split; [intros m []|]. exists a, b. simpl.
    repeat split; try apply Qle_refl. lra.
  - destruct (Hall m (or_introl eq_refl)) as (w & Hw & Hw0).
    cbn [fold_left]. rewrite Hw.
    destruct (normalizedMetric_cases aircraft m metricStats) as [Hnan | Hb].
    + left. split; [exists m; split; [left; reflexivity | exact Hnan]|].
      rewrite Hnan. apply weighted_NaN.
    + destruct (normalizedMetric aircraft m metricStats) as [n| | |] eqn:En;
        try contradiction.
      simpl in Hb. destruct Hb as [Hn0 Hn1]. cbn [Num.mul Num.add].
      destruct (IH (a + n * w) (b + w)) as [[(m' & Hm' & Hnan) Hfold] | [Hnot Hsum]].
      { intros m' Hm'. apply Hall. right. exact Hm'. }
      * left. split; [exists m'; split; [right; exact Hm' | exact Hnan]|].
        exact Hfold.
      * right. split.
        { intros m' [<- | Hm']; [rewrite En; discriminate | apply Hnot, Hm']. }
        destruct Hsum as (s & t & Hs & Ht & Has & Hst).
        exists s, t. split; [exact Hs|]. split; [exact Ht|].
        assert (0 <= n * w) by (apply Qmult_le_0_compat; assumption).
        assert (0 <= (1 - n) * w) by (apply Qmult_le_0_compat; [lra | assumption]).
        split; lra.
Qed.

Lemma ANALYZE_METRICS_weights (m : Metric.t) :
  In m ANALYZE_METRICS -> exists w, Metric.weight m = Fin w /\ 0 <= w.
Proof.
  intros H. simpl in H.
  repeat (destruct H as [<- | H];
          [eexists; split; [reflexivity | discriminate]|]).
  destruct H.
Qed.

Lemma round_percent (x : Q) :
  0 <= x -> x <= 100 ->
  exists z : Z, Math.round (Fin x) = Fin (inject_Z z) /\ (0 <= z <= 100)%Z.
Proof.
  intros H0 H100. exists (Qfloor (x + (1 # 2))). split; [reflexivity|]. split.
  - change 0%Z with (Qfloor 0). apply Qfloor_resp_le. lra.
  - change 100%Z with (Qfloor (201 # 2)). apply Qfloor_resp_le. lra.
Qed.

(** The total weight of the configured metrics is a positive number. *)
Lemma totalWeight_positive :
  exists t, fold_left (fun sum m => (sum + Metric.weight m)%num)
              ANALYZE_METRICS (Fin 0) = Fin t /\ 0 < t
            /\ exists t', spec_sum (map Metric.weight ANALYZE_METRICS) = Fin t'
                          /\ t == t'.
Proof.
  eexists. split; [vm_compute; reflexivity|]. split; [reflexivity|].
  eexists. split; [vm_compute; reflexivity | reflexivity].
Qed.

Lemma leb_positive_zero (t : Q) : 0 < t -> Num.leb (Fin t) (Fin 0) = false.
Proof.
  intros Hpos. destruct (Num.leb (Fin t) (Fin 0)) eqn:E; [|reflexivity].
  apply leb_Fin in E. lra.
Qed.

Lemma Qeq_bool_positive (t : Q) : 0 < t -> Qeq_bool t 0 = false.
Proof.
  intros Hpos. destruct (Qeq_bool t 0) eqn:E; [|reflexivity].
  apply Qeq_bool_iff in E. lra.
Qed.

(** The score is [NaN] when some configured metric normalizes to [NaN],
    and an integer between 0 and 100 otherwise. *)
Lemma computeAnalyzeScore_cases
    (aircraft : Aircraft.t) (metricStats : gmap string Stats.t) :
  ((exists m, In m ANALYZE_METRICS
              /\ normalizedMetric aircraft m metricStats = NaN)
   /\ computeAnalyzeScore aircraft metricStats = NaN)
  \/ ((forall m, In m ANALYZE_METRICS ->
                 normalizedMetric aircraft m metricStats <> NaN)
      /\ exists z : Z,
          computeAnalyzeScore aircraft metricStats = Fin (inject_Z z)
          /\ (0 <= z <= 100)%Z).
Proof.
  unfold computeAnalyzeScore, computeScoreOver.
  destruct totalWeight_positive as (t & Ht & Hpos & _).
  cbn zeta. rewrite Ht, (leb_positive_zero t Hpos).
  destruct (weighted_cases aircraft metricStats ANALYZE_METRICS 0 0
              ANALYZE_METRICS_weights)
    as [[Hsome Hfold] | [Hnone (s & t0 & Hs & Ht0 & Hs0 & Hst)]].
  - left. split; [exact Hsome|]. rewrite Hfold. reflexivity.
  - right. split; [exact Hnone|].
    rewrite Hs. assert (t0 = t) by congruence. subst t0.
    cbn [Num.div]. rewrite (Qeq_bool_positive t Hpos).
    cbn [Num.mul]. apply round_percent.
    + apply Qmult_le_0_compat; [|discriminate].
      apply Qle_shift_div_l; [exact Hpos | lra].
    + assert (s / t <= 1) by (apply Qle_shift_div_r; [exact Hpos | lra]).
      lra.
Qed.

(** With usable entries the score is an integer between 0 and 100. *)
Lemma computeAnalyzeScore_range
    (aircraft : Aircraft.t) (metricStats : gmap string Stats.t) :
  (forall m, In m ANALYZE_METRICS -> usableFor metricStats m) ->
  exists z : Z,
    computeAnalyzeScore aircraft metricStats = Fin (inject_Z z)
    /\ (0 <= z <= 100)%Z.
Proof.
  intros Hu.
  destruct (computeAnalyzeScore_cases aircraft metricStats)
    as [[(m & Hm & Hnan) _] | [_ H]]; [|exact H].
  pose proof (normalizedMetric_between aircraft m metricStats (Hu m Hm)) as Hb.
  rewrite Hnan in Hb. destruct Hb.
Qed.


(** ** Sorting *)

Section SortFacts.
Context {A : Type} (comparefn : A -> A -> number) (P : A -> Prop).

Local Abbreviation keeps := (keeps comparefn).

Hypothesis swap_once :
  forall x y, P x -> P y ->
              Num.ltb (Fin 0) (comparefn x y) = true -> keeps y x.
Hypothesis keeps_trans :
  forall x y z, P x -> P y -> P z -> keeps x y -> keeps y z -> keeps x z.

Lemma insert_Permutation (x : A) (l : list A) :
  Permutation (x :: l) (Array.insert comparefn x l).
Proof.
  induction l as [|y l IH]; cbn [Array.insert].
  - reflexivity.
  - destruct (Num.ltb (Fin 0) (comparefn x y)).
    + eapply perm_trans; [apply perm_swap | apply perm_skip, IH].
    + reflexivity.
Qed.

Lemma sort_Permutation (l : list A) : Permutation l (Array.sort comparefn l).
Proof.
  induction l as [|x l IH]; cbn [Array.sort fold_right].
  - reflexivity.
  - eapply perm_trans; [apply perm_skip, IH | apply insert_Permutation].
Qed.

Lemma insert_sorted (x : A) (l : list A) :
  P x -> List.Forall P l -> StronglySorted keeps l ->
  StronglySorted keeps (Array.insert comparefn x l).
Proof.
  intros Hx Hl Hs. induction Hs as [|y l Hs IH Hy]; cbn [Array.insert].
  - constructor; constructor.
  - inversion Hl as [|? ? HPy HPl]; subst.
    destruct (Num.ltb (Fin 0) (comparefn x y)) eqn:E.
    + constructor; [apply IH, HPl|].
      apply (Permutation_Forall (insert_Permutation x l)).
      constructor; [apply swap_once; assumption | exact Hy].
    + constructor; [constructor; assumption|].
      constructor; [exact E|].
      rewrite List.Forall_forall in Hy, HPl |- *.
      intros z Hz. apply (keeps_trans x y z); auto.
Qed.

Lemma sort_sorted (l : list A) :
  List.Forall P l -> StronglySorted keeps (Array.sort comparefn l).
Proof.
  induction l as [|x l IH]; intros Hl; cbn [Array.sort fold_right].
  - constructor.
  - inversion Hl as [|? ? Hx Hl']; subst.
    apply insert_sorted; [exact Hx | | apply IH, Hl'].
    apply (Permutation_Forall (sort_Permutation l)), Hl'.
Qed.
End SortFacts.

Lemma StronglySorted_impl {A : Type} (R R' : A -> A -> Prop) (P : A -> Prop)
    (l : list A) :
  (forall x y, P x -> P y -> R x y -> R' x y) ->
  List.Forall P l -> StronglySorted R l -> StronglySorted R' l.
Proof.
  intros Himpl HP Hs. induction Hs as [|x l Hs IH Hx].
  - constructor.
  - inversion HP as [|? ? HPx HPl]; subst.
    constructor; [apply IH, HPl|].
    rewrite List.Forall_forall in Hx, HPl |- *.
    intros y Hy. apply Himpl; auto.
Qed.

(** ** The leaderboard *)

Section ScoreboardFacts.
Variable localeCompare : string -> string -> Z.
Hypothesis consistent : consistentCompare localeCompare.

Let finiteScore (x : Scored.t) : Prop := Num.is_finite (Scored.score x).

(** On finite scores the comparator of [scoreboardFor] keeps [x] before
    [y] exactly when [x] is ranked before [y]. *)
Lemma scoreboardCompare_keeps (x y : Scored.t) :
  finiteScore x -> finiteScore y ->
  keeps (scoreboardCompare localeCompare) x y <-> rankedBefore localeCompare x y.
Proof.
  unfold finiteScore, keeps, rankedBefore, scoreboardCompare.
  destruct (Scored.score x) as [sx| | |], (Scored.score y) as [sy| | |];
    try contradiction.
  intros _ _. cbn [Num.sub]. unfold Num.or. cbn [Num.truthy].
  rewrite ltb_Fin, strict_eq_Fin.
  destruct (Qeq_bool (sy - sx) 0) eqn:E; cbn [negb].
  - apply Qeq_bool_iff in E. unfold Num.of_Z. rewrite ltb_Fin_false.
    change 0 with (inject_Z 0). rewrite <- Zle_Qle. split.
    + intros H. right. split; [lra | exact H].
    + intros [H | [_ H]]; [lra | exact H].
  - apply Qeq_bool_neq in E. rewrite ltb_Fin_false. split.
    + intros H. left. apply Qle_lt_or_eq in H. destruct H as [H | H]; [lra|].
      exfalso. apply E. exact H.
    + intros [H | [H _]]; [lra|]. exfalso. apply E. lra.
Qed.

Lemma rankedBefore_total (x y : Scored.t) :
  finiteScore x -> finiteScore y ->
  ~ rankedBefore localeCompare x y -> rankedBefore localeCompare y x.
Proof.
  unfold finiteScore, rankedBefore. destruct consistent as [Hanti _].
  destruct (Scored.score x) as [sx| | |], (Scored.score y) as [sy| | |];
    try contradiction.
  intros _ _. rewrite !ltb_Fin, !strict_eq_Fin. intros Hn.
  destruct (Q_dec sx sy) as [[H | H] | H].
  - left. exact H.
  - exfalso. apply Hn. left. exact H.
  - right. split; [symmetry; exact H|].
    specialize (Hanti (Scored.name x) (Scored.name y)).
    assert (~ (localeCompare (Scored.name x) (Scored.name y) <= 0)%Z)
      by (intros Hle; apply Hn; right; split; assumption).
    lia.
Qed.

Lemma rankedBefore_trans (x y z : Scored.t) :
  finiteScore x -> finiteScore y -> finiteScore z ->
  rankedBefore localeCompare x y -> rankedBefore localeCompare y z ->
  rankedBefore localeCompare x z.
Proof.
  unfold finiteScore, rankedBefore. destruct consistent as [_ Htrans].
  destruct (Scored.score x) as [sx| | |], (Scored.score y) as [sy| | |],
    (Scored.score z) as [sz| | |]; try contradiction.
  intros _ _ _. rewrite !ltb_Fin, !strict_eq_Fin.
  intros [H1 | [H1 N1]] [H2 | [H2 N2]].
  - left. lra.
  - left. lra.
  - left. lra.
  - right. split; [lra|]. eapply Htrans; eassumption.
Qed.

Lemma scoreboard_sorted (items : list Scored.t) :
  List.Forall finiteScore items ->
  StronglySorted (rankedBefore localeCompare)
    (Array.sort (scoreboardCompare localeCompare) items).
Proof.
  intros Hfin.
  apply (StronglySorted_impl (keeps (scoreboardCompare localeCompare)) _ finiteScore).
  - intros x y Hx Hy. apply scoreboardCompare_keeps; assumption.
  - apply (Permutation_Forall (sort_Permutation _ items)), Hfin.
  - apply (sort_sorted _ finiteScore); [| |exact Hfin].
    + intros x y Hx Hy Hswap. apply scoreboardCompare_keeps; [assumption..|].
      apply rankedBefore_total; [assumption..|].
      intros Hr. apply scoreboardCompare_keeps in Hr; [|assumption..].
      unfold keeps in Hr. congruence.
    + intros x y z Hx Hy Hz Hxy Hyz.
      apply scoreboardCompare_keeps; [assumption..|].
      apply (rankedBefore_trans x y z); [assumption..| |];
        apply scoreboardCompare_keeps; assumption.
Qed.

End ScoreboardFacts.

(** Over usable entries no score of the leaderboard is [NaN]. *)
Lemma scoreboardFor_finite (localeCompare : string -> string -> Z)
    (aircraftList : list Aircraft.t) (metricStats : gmap string Stats.t) :
  (forall m, In m ANALYZE_METRICS -> usableFor metricStats m) ->
  List.Forall (fun item => Scored.score item <> NaN)
    (scoreboardFor localeCompare aircraftList metricStats).
Proof.
  intros Hu. unfold scoreboardFor.
  apply (Permutation_Forall (sort_Permutation _ _)).
  apply List.Forall_forall. intros item Hitem.
  apply in_map_iff in Hitem. destruct Hitem as (a & <- & _).
  unfold withScore. cbn [Scored.score].
  destruct (computeAnalyzeScore_range a metricStats Hu) as (z & -> & _).
  discriminate.
Qed.

(** ** Best value for cost *)

Lemma costOf_nonzero (item : Scored.t) :
  exists c, costOf item = Fin c /\ ~ c == 0
            /\ costOf item
               = (let cost := valueOrZero (Scored.get item "unitCostMUsd") in
                  if Num.strict_eq cost (Fin 0) then Fin 1 else cost).
Proof.
  unfold costOf, Num.or. cbn zeta.
  destruct (valueOrZero_finite (Scored.get item "unitCostMUsd")) as [c ->].
  cbn [Num.truthy Num.strict_eq].
  destruct (Qeq_bool c 0) eqn:E; cbn [negb].
  - exists 1. repeat split. discriminate.
  - exists c. repeat split. apply Qeq_bool_neq, E.
Qed.

Lemma withEfficiency_spec (item : Scored.t) :
  Efficiency.efficiency (withEfficiency item) = efficiencyOf item.
Proof.
  unfold withEfficiency, efficiencyOf. cbn [Efficiency.efficiency].
  destruct (costOf_nonzero item) as (c & _ & _ & ->). reflexivity.
Qed.

Lemma withEfficiency_number (item : Scored.t) :
  Scored.score item <> NaN ->
  Efficiency.efficiency (withEfficiency item) <> NaN.
Proof.
  unfold withEfficiency. cbn [Efficiency.efficiency].
  destruct (costOf_nonzero item) as (c & -> & Hc & _).
  destruct (Scored.score item) as [s| | |]; intros Hs; try congruence;
    cbn [Num.div].
  - destruct (Qeq_bool c 0) eqn:E; [|discriminate].
    apply Qeq_bool_iff in E. contradiction.
  - destruct (Qle_bool 0 c); discriminate.
  - destruct (Qle_bool 0 c); discriminate.
Qed.

(** Away from [NaN], the comparator [b - a] keeps [a] first exactly when
    [b <= a]. *)
Lemma sub_keeps (x y : number) :
  x <> NaN -> y <> NaN ->
  Num.ltb (Fin 0) (y - x)%num = false <-> Num.leb y x = true.
Proof.
  destruct x as [x| | |], y as [y| | |]; intros Hx Hy; try congruence;
    try (vm_compute; split; congruence).
  cbn [Num.sub]. rewrite ltb_Fin_false, leb_Fin. split; lra.
Qed.

Lemma leb_total (x y : number) :
  x <> NaN -> y <> NaN -> Num.leb x y = false -> Num.leb y x = true.
Proof.
  destruct x as [x| | |], y as [y| | |]; intros Hx Hy; try congruence;
    try (vm_compute; congruence).
  intros H. apply leb_Fin.
  destruct (Num.leb (Fin y) (Fin x)) eqn:E; [apply leb_Fin, E|].
  assert (~ x <= y) by (intros Hle; apply leb_Fin in Hle; congruence).
  lra.
Qed.

Lemma leb_trans (x y z : number) :
  Num.leb x y = true -> Num.leb y z = true -> Num.leb x z = true.
Proof.
  destruct x as [x| | |], y as [y| | |], z as [z| | |];
    try (vm_compute; congruence).
  rewrite !leb_Fin. apply Qle_trans.
Qed.

Lemma leb_refl (x : number) : x <> NaN -> Num.leb x x = true.
Proof.
  destruct x as [x| | |]; intros H; try congruence; try reflexivity.
  apply leb_Fin, Qle_refl.
Qed.

(** C5 (amended). For every non-empty scoreboard without a [NaN] score,
    [bestEfficiency] returns an item of the scoreboard, extended with its
    efficiency, that maximizes [score / cost] over the scoreboard, where
    the cost is the unit-cost attribute (0 when missing or not finite) and
    a cost of exactly 0 is replaced by 1. *)
Theorem bestEfficiency_greatest (scoreboard : list Scored.t) :
  scoreboard <> [] ->
  List.Forall (fun item => Scored.score item <> NaN) scoreboard ->
  exists best,
    bestEfficiency scoreboard = Some best
    /\ In (Efficiency.item best) scoreboard
    /\ Efficiency.efficiency best = efficiencyOf (Efficiency.item best)
    /\ forall item, In item scoreboard ->
         Num.leb (efficiencyOf item) (efficiencyOf (Efficiency.item best)) = true.
Proof.
  intros Hne Hnum. unfold bestEfficiency.
  set (cmp := fun a b => (Efficiency.efficiency b - Efficiency.efficiency a)%num).
  set (P := fun e : Efficiency.t => Efficiency.efficiency e <> NaN).
  assert (HP : forall item, In item scoreboard -> P (withEfficiency item)).
  { intros item Hitem. apply withEfficiency_number.
    rewrite List.Forall_forall in Hnum. apply Hnum, Hitem. }
  assert (HPall : List.Forall P (map withEfficiency scoreboard)).
  { apply List.Forall_forall. intros e He. apply in_map_iff in He.
    destruct He as (item & <- & Hitem). apply HP, Hitem. }
  pose proof (sort_Permutation cmp (map withEfficiency scoreboard)) as Hperm.
  assert (Hsorted : StronglySorted (keeps cmp)
                      (Array.sort cmp (map withEfficiency scoreboard))).
  { apply (sort_sorted cmp P); [| |exact HPall].
    - intros x y Hx Hy Hswap. apply sub_keeps; [assumption..|].
      apply leb_total; [assumption..|].
      destruct (Num.leb (Efficiency.efficiency y) (Efficiency.efficiency x))
        eqn:E; [|reflexivity].
      apply sub_keeps in E; [|assumption..]. unfold cmp in Hswap. congruence.
    - intros x y z Hx Hy Hz Hxy Hyz.
      apply sub_keeps in Hxy, Hyz; try assumption.
      apply sub_keeps; try assumption.
      apply (leb_trans _ (Efficiency.efficiency y)); assumption. }
  destruct scoreboard as [|item0 rest]; [congruence|].
  cbn [length Nat.eqb].
  destruct (Array.sort cmp (map withEfficiency (item0 :: rest)))
    as [|best sorted] eqn:Es.
  { apply Permutation_length in Hperm. discriminate Hperm. }
  exists best. split; [reflexivity|].
  assert (Hbest : In best (map withEfficiency (item0 :: rest))).
  { apply (Permutation_in best (Permutation_sym Hperm)). left. reflexivity. }
  apply in_map_iff in Hbest. destruct Hbest as (b & Eb & Hb).
  split; [rewrite <- Eb; exact Hb|].
  split; [rewrite <- Eb; apply withEfficiency_spec|].
  intros item Hitem.
  assert (Hin : In (withEfficiency item) (best :: sorted)).
  { apply (Permutation_in _ Hperm), in_map, Hitem. }
  rewrite <- Eb in Hin, Hsorted |- *. cbn [Efficiency.item].
  rewrite <- !withEfficiency_spec.
  apply StronglySorted_inv in Hsorted. destruct Hsorted as [_ Hall].
  destruct Hin as [E | Hin].
  - rewrite <- E. apply leb_refl, HP, Hb.
  - rewrite List.Forall_forall in Hall.
    apply sub_keeps; [apply HP, Hb | apply HP, Hitem | apply (Hall _ Hin)].
Qed.

(** ** The comparison selection *)

Local Close Scope Q_scope.

Lemma includes_In (current : list string) (id : string) :
  includes current id = true <-> In id current.
Proof.
  unfold includes. rewrite existsb_exists. split.
  - intros (x & Hx & E). apply String.eqb_eq in E. subst. exact Hx.
  - intros H. exists id. split; [exact H | apply String.eqb_refl].
Qed.

Lemma includes_not_In (current : list string) (id : string) :
  includes current id = false <-> ~ In id current.
Proof.
  split; intros H.
  - intros Hin. apply includes_In in Hin. congruence.
  - destruct (includes current id) eqn:E; [|reflexivity].
    exfalso. apply H, includes_In, E.
Qed.

Lemma filter_other_id (id : string) (l : list string) :
  ~ In id l -> List.filter (fun item => negb (String.eqb item id)) l = l.
Proof.
  induction l as [|x l IH]; intros Hn; simpl.
  - reflexivity.
  - destruct (String.eqb_spec x id) as [-> | Hne]; simpl.
    + exfalso. apply Hn. left. reflexivity.
    + f_equal. apply IH. intros H. apply Hn. right. exact H.
Qed.

Lemma filter_removes_id (id : string) (current : list string) :
  List.NoDup current -> In id current ->
  exists before after,
    current = before ++ id :: after
    /\ List.filter (fun item => negb (String.eqb item id)) current
       = before ++ after.
Proof.
  intros Hnd Hin. apply in_split in Hin. destruct Hin as (l1 & l2 & ->).
  exists l1, l2. split; [reflexivity|].
  apply NoDup_remove_2 in Hnd.
  rewrite List.filter_app. simpl. rewrite String.eqb_refl. simpl.
  rewrite !filter_other_id; [reflexivity | |];
    intros H; apply Hnd, in_or_app; tauto.
Qed.

Lemma toggleCompare_invariant (id : string) (current : list string) :
  List.NoDup current /\ length current <= ANALYZE_LIMIT ->
  List.NoDup (toggleCompare id current)
  /\ length (toggleCompare id current) <= ANALYZE_LIMIT.
Proof.
  intros [Hnd Hlen]. unfold toggleCompare.
  destruct (includes current id) eqn:E.
  - split; [apply List.NoDup_filter, Hnd|].
    eapply Nat.le_trans; [apply List.filter_length_le | exact Hlen].
  - destruct (Nat.leb ANALYZE_LIMIT (length current)) eqn:L.
    + split; assumption.
    + apply Nat.leb_gt in L. apply includes_not_In in E. split.
      * apply List.NoDup_app; [exact Hnd | repeat constructor; intros [] |].
        intros x Hx [<- | []]. contradiction.
      * rewrite length_app. simpl. lia.
Qed.

(** C9. Every selection reachable from the empty one by [toggleCompare]
    and [clearCompare] has no duplicate identifier and at most 6 entries.
    On such a selection, toggling a selected identifier removes exactly
    that identifier, toggling an unselected one appends it when fewer than
    6 are selected and changes nothing when 6 are; [clearCompare] yields
    the empty selection. *)
Theorem compare_selection_invariant (id : string) (current : list string) :
  compareReachable current ->
  (List.NoDup current /\ length current <= 6)
  /\ (In id current ->
      exists before after,
        current = before ++ id :: after
        /\ toggleCompare id current = before ++ after
        /\ ~ In id (toggleCompare id current))
  /\ (~ In id current -> length current < 6 ->
      toggleCompare id current = current ++ [id])
  /\ (~ In id current -> length current = 6 ->
      toggleCompare id current = current)
  /\ clearCompare current = []
  /\ compareReachable (toggleCompare id current)
  /\ compareReachable (clearCompare current).
Proof.
  intros Hreach.
  assert (Hinv : List.NoDup current /\ length current <= ANALYZE_LIMIT).
  { induction Hreach as [|id' current' _ IH|current' _ _].
    - split; [constructor | simpl; lia].
    - apply toggleCompare_invariant, IH.
    - split; [constructor | simpl; lia]. }
  split; [exact Hinv|]. destruct Hinv as [Hnd Hlen].
  split; [|split; [|split; [|split; [reflexivity|split; constructor; exact Hreach]]]].
  - intros Hin. destruct (filter_removes_id id current Hnd Hin)
      as (before & after & Hcur & Hfilter).
    exists before, after. split; [exact Hcur|].
    unfold toggleCompare. apply includes_In in Hin. rewrite Hin.
    split; [exact Hfilter|].
    rewrite Hfilter. rewrite Hcur in Hnd. apply NoDup_remove_2 in Hnd. exact Hnd.
  - intros Hnot Hlt. unfold toggleCompare.
    apply includes_not_In in Hnot. rewrite Hnot.
    assert (Nat.leb ANALYZE_LIMIT (length current) = false) as ->
      by (apply Nat.leb_gt; exact Hlt).
    reflexivity.
  - intros Hnot Heq. unfold toggleCompare.
    apply includes_not_In in Hnot. rewrite Hnot.
    assert (Nat.leb ANALYZE_LIMIT (length current) = true) as ->
      by (apply Nat.leb_le; unfold ANALYZE_LIMIT; lia).
    reflexivity.
Qed.

(** ** The model probe *)

Lemma prefix_split (p s : string) :
  String.prefix p s = true -> exists rest, s = (p ++ rest)%string.
Proof.
  revert s. induction p as [|c p IH]; intros s H.
  - exists s. reflexivity.
  - destruct s as [|c' s]; [discriminate|]. simpl in H.
    destruct (ascii_dec c c') as [<- | Hne]; [|discriminate].
    destruct (IH s H) as (rest & ->). exists rest. reflexivity.
Qed.

Lemma substring_all (s : string) : String.substring 0 (String.length s) s = s.
Proof. induction s as [|c s IH]; simpl; [reflexivity | rewrite IH; reflexivity]. Qed.

Lemma replace_verified_prefix (rest : string) :
  Str.replace "/models/verified/" "/models/unverified/"
    ("/models/verified/" ++ rest)
  = ("/models/unverified/" ++ rest)%string.
Proof.
  unfold Str.replace.
  assert (String.index 0 "/models/verified/" ("/models/verified/" ++ rest) = Some 0)
    as ->.
  { cbv [String.append]. fold String.append. cbn. destruct rest; reflexivity. }
  cbv [String.append]. fold String.append. cbn.
  rewrite Nat.sub_0_r, substring_all. reflexivity.
Qed.

Lemma modelPathCandidates_verified (rest : string) :
  modelPathCandidates (VString ("/models/verified/" ++ rest))
  = [("/models/verified/" ++ rest)%string; ("/models/unverified/" ++ rest)%string].
Proof.
  unfold modelPathCandidates.
  rewrite replace_verified_prefix.
  assert (String.prefix "/models/verified/" ("/models/verified/" ++ rest) = true)
    as -> by (cbv [String.append]; cbn; destruct rest; reflexivity).
  cbv [String.append]. reflexivity.
Qed.

Lemma modelPathCandidates_other (path : string) :
  path <> EmptyString -> String.prefix "/models/verified/" path = false ->
  modelPathCandidates (VString path) = [path].
Proof.
  intros Hne Hp. unfold modelPathCandidates. rewrite Hp.
  destruct path; [congruence | reflexivity].
Qed.

Lemma probe_ready (w : Viewer.world) (primary : value)
    (before : list string) (c : string) (after : list string)
    (st : Viewer.state) (requests : list string) :
  staysActive w (before ++ [c]) ->
  List.Forall (fun x => available w x = false) before ->
  available w c = true ->
  Viewer.probe w primary (before ++ c :: after) true st requests
  = (Viewer.State Viewer.ready (VString c), requests ++ before ++ [c]).
Proof.
  unfold staysActive, available. revert requests.
  induction before as [|x before IH]; intros requests Hact Hbefore Hc.
  - simpl in *. inversion Hact as [|? ? Hactc _]; subst. rewrite Hactc.
    destruct (Viewer.fetch w c) as [status|]; [|discriminate].
    rewrite Hc. reflexivity.
  - simpl in Hact. inversion Hact as [|? ? Hactx Hact']; subst.
    inversion Hbefore as [|? ? Hx Hbefore']; subst.
    cbn [app Viewer.probe]. rewrite Hactx.
    destruct (Viewer.fetch w x) as [status|].
    + rewrite Hx. cbn [negb]. rewrite (IH _ Hact' Hbefore' Hc).
      rewrite <- !app_assoc. reflexivity.
    + cbn [negb]. rewrite (IH _ Hact' Hbefore' Hc).
      rewrite <- !app_assoc. reflexivity.
Qed.

Lemma probe_missing (w : Viewer.world) (primary : value)
    (candidates : list string) (st : Viewer.state) (requests : list string) :
  staysActive w candidates ->
  List.Forall (fun x => available w x = false) candidates ->
  Viewer.probe w primary candidates true st requests
  = (Viewer.State Viewer.missing primary, requests ++ candidates).
Proof.
  unfold staysActive, available. revert requests.
  induction candidates as [|x candidates IH]; intros requests Hact Hall.
  - simpl. rewrite app_nil_r. reflexivity.
  - inversion Hact as [|? ? Hactx Hact']; subst.
    inversion Hall as [|? ? Hx Hall']; subst.
    cbn [Viewer.probe]. rewrite Hactx.
    destruct (Viewer.fetch w x) as [status|].
    + rewrite Hx. cbn [negb]. rewrite (IH _ Hact' Hall').
      rewrite <- app_assoc. reflexivity.
    + cbn [negb]. rewrite (IH _ Hact' Hall').
      rewrite <- app_assoc. reflexivity.
Qed.

(** A probe whose effect is cleaned up while the request for [c] is in
    flight returns when the answer arrives, and commits nothing. *)
Lemma probe_stale (w : Viewer.world) (primary : value)
    (before : list string) (c : string) (after : list string)
    (st : Viewer.state) (requests : list string) :
  staysActive w before ->
  List.Forall (fun x => available w x = false) before ->
  Viewer.activeAfter w c = false ->
  Viewer.probe w primary (before ++ c :: after) true st requests
  = (st, requests ++ before ++ [c]).
Proof.
  unfold staysActive, available. revert requests.
  induction before as [|x before IH]; intros requests Hact Hbefore Hc.
  - cbn [app Viewer.probe]. rewrite Hc.
    destruct (Viewer.fetch w c); reflexivity.
  - inversion Hact as [|? ? Hactx Hact']; subst.
    inversion Hbefore as [|? ? Hx Hbefore']; subst.
    cbn [app Viewer.probe]. rewrite Hactx.
    destruct (Viewer.fetch w x) as [status|].
    + rewrite Hx. cbn [negb]. rewrite (IH _ Hact' Hbefore' Hc).
      rewrite <- !app_assoc. reflexivity.
    + cbn [negb]. rewrite (IH _ Hact' Hbefore' Hc).
      rewrite <- !app_assoc. reflexivity.
Qed.



(** ** The summary cache *)

Lemma cleanup_cache (h : Wiki.hook) : Wiki.cache (Wiki.cleanup h) = Wiki.cache h.
Proof. unfold Wiki.cleanup. destruct (Wiki.live h); reflexivity. Qed.

Lemma cleanup_requests (h : Wiki.hook) :
  Wiki.requests (Wiki.cleanup h) = Wiki.requests h.
Proof. unfold Wiki.cleanup. destruct (Wiki.live h); reflexivity. Qed.

Lemma cleanup_live (h : Wiki.hook) : Wiki.live (Wiki.cleanup h) = None.
Proof. unfold Wiki.cleanup. destruct (Wiki.live h) eqn:E; [reflexivity | exact E]. Qed.

Lemma open_cached (c : gmap string (option Wiki.summary)) (x : string)
    (entry : option Wiki.summary) :
  c !! x = Some entry -> Wiki.open c x = (x, Some entry).
Proof. intros E. unfold Wiki.open. rewrite E. reflexivity. Qed.

Lemma open_absent (c : gmap string (option Wiki.summary)) (x : string) :
  c !! x = None -> Wiki.open c x = (x, None).
Proof. intros E. unfold Wiki.open. rewrite E. reflexivity. Qed.

(** Only the titles that the cache does not hold are requested. *)
Lemma pending_open (c : gmap string (option Wiki.summary))
    (titles : list string) (t : string) :
  In t (Wiki.pendingTitles (map (Wiki.open c) titles)) ->
  c !! t = None /\ In t titles.
Proof.
  unfold Wiki.pendingTitles.
  induction titles as [|x titles IH]; cbn [map omap list_omap]; intros H.
  - destruct H.
  - destruct (c !! x) as [entry|] eqn:E.
    + rewrite (open_cached c x entry E) in H. cbn in H.
      destruct (IH H) as [H1 H2]. split; [exact H1 | right; exact H2].
    + rewrite (open_absent c x E) in H. cbn in H.
      destruct H as [Ht | H].
      * subst t. split; [exact E | left; reflexivity].
      * destruct (IH H) as [H1 H2]. split; [exact H1 | right; exact H2].
Qed.

Lemma pending_open_cached (c : gmap string (option Wiki.summary))
    (titles : list string) :
  (forall t, In t titles -> is_Some (c !! t)) ->
  Wiki.pendingTitles (map (Wiki.open c) titles) = [].
Proof.
  intros Hall.
  destruct (Wiki.pendingTitles (map (Wiki.open c) titles)) as [|t rest] eqn:E;
    [reflexivity|].
  assert (Hin : In t (Wiki.pendingTitles (map (Wiki.open c) titles)))
    by (rewrite E; left; reflexivity).
  apply pending_open in Hin. destruct Hin as [Hnone Hin].
  destruct (Hall t Hin) as [v Hv]. congruence.
Qed.

Lemma settle_cache_mono (title : string) (o : Wiki.outcome)
    (c : gmap string (option Wiki.summary)) (k : string) :
  is_Some (c !! k) -> is_Some ((Wiki.settle title o c).1 !! k).
Proof.
  intros Hk. destruct o; cbn [Wiki.settle fst]; try exact Hk;
    (destruct (decide (title = k)) as [-> | Hne];
     [rewrite lookup_insert_eq; eauto | rewrite lookup_insert_ne; assumption]).
Qed.

Lemma settle_cache_other (title : string) (o : Wiki.outcome)
    (c : gmap string (option Wiki.summary)) (k : string) :
  title <> k -> (Wiki.settle title o c).1 !! k = c !! k.
Proof.
  intros Hne. destruct o; cbn [Wiki.settle fst]; try reflexivity;
    apply lookup_insert_ne, Hne.
Qed.

Lemma fire_settle (h : Wiki.hook) (i : nat) (n : Wiki.network)
    (slots : list Wiki.slot) (title : string) :
  Wiki.live h = Some slots -> slots !! i = Some (title, None) ->
  Wiki.fire h (Wiki.Settle i n)
  = let r := Wiki.settle title (Wiki.fetchSummary n) (Wiki.cache h) in
    let slots' := <[i := (title, Some r.2)]> slots in
    Wiki.Hook r.1 (Wiki.publish slots' (Wiki.items h)) (Some slots')
      (Wiki.stale h) (Wiki.requests h).
Proof.
  intros Hlive Hslot. cbn [Wiki.fire]. rewrite Hlive, Hslot.
  destruct (Wiki.settle title (Wiki.fetchSummary n) (Wiki.cache h)); reflexivity.
Qed.

Lemma fire_settle_idle (h : Wiki.hook) (i : nat) (n : Wiki.network) :
  (forall slots title, Wiki.live h = Some slots ->
                       slots !! i <> Some (title, None)) ->
  Wiki.fire h (Wiki.Settle i n) = h.
Proof.
  intros Hidle. cbn [Wiki.fire].
  destruct (Wiki.live h) as [slots|] eqn:Hlive; [|reflexivity].
  destruct (slots !! i) as [[title [r|]]|] eqn:Hslot; try reflexivity.
  exfalso. apply (Hidle slots title eq_refl Hslot).
Qed.

(** A step either changes nothing for the slot of an event, or the event
    is the settling of a pending slot. *)
Lemma settle_cases (h : Wiki.hook) (i : nat) :
  (exists slots title,
      Wiki.live h = Some slots /\ slots !! i = Some (title, None))
  \/ (forall slots title, Wiki.live h = Some slots ->
                          slots !! i <> Some (title, None)).
Proof.
  destruct (Wiki.live h) as [slots|]; [|right; intros ? ? H; discriminate H].
  destruct (slots !! i) as [[title [r|]]|] eqn:Hslot.
  - right. intros slots' title' E H. injection E as <-.
    rewrite Hslot in H. discriminate H.
  - left. eauto.
  - right. intros slots' title' E H. injection E as <-.
    rewrite Hslot in H. discriminate H.
Qed.

(** The keys of the cache are never removed. *)
Lemma fire_cache_mono (h : Wiki.hook) (e : Wiki.event) (k : string) :
  is_Some (Wiki.cache h !! k) -> is_Some (Wiki.cache (Wiki.fire h e) !! k).
Proof.
  intros Hk. destruct e as [titles|i n|title|].
  - cbn [Wiki.fire]. unfold Wiki.effect.
    destruct (Nat.eqb _ 0); cbn [Wiki.cache]; rewrite cleanup_cache; exact Hk.
  - destruct (settle_cases h i) as [(slots & title & Hlive & Hslot) | Hidle].
    + rewrite (fire_settle h i n slots title Hlive Hslot). cbn [Wiki.cache].
      apply settle_cache_mono, Hk.
    + rewrite (fire_settle_idle h i n Hidle). exact Hk.
  - cbn [Wiki.fire]. destruct (includes (Wiki.stale h) title); exact Hk.
  - cbn [Wiki.fire]. rewrite cleanup_cache. exact Hk.
Qed.

(** What a step requests was absent from the cache. *)
Lemma fire_requests (h : Wiki.hook) (e : Wiki.event) :
  exists new,
    Wiki.requests (Wiki.fire h e) = Wiki.requests h ++ new
    /\ forall t, In t new -> Wiki.cache h !! t = None.
Proof.
  destruct e as [titles|i n|title|].
  - cbn [Wiki.fire]. unfold Wiki.effect.
    destruct (Nat.eqb _ 0).
    + exists []. rewrite cleanup_requests, app_nil_r. split; [reflexivity|].
      intros t [].
    + eexists. cbn [Wiki.requests]. rewrite cleanup_requests, cleanup_cache.
      split; [reflexivity|]. intros t Ht. apply pending_open in Ht. apply Ht.
  - exists []. rewrite app_nil_r. split; [|intros t []].
    destruct (settle_cases h i) as [(slots & title & Hlive & Hslot) | Hidle].
    + rewrite (fire_settle h i n slots title Hlive Hslot). reflexivity.
    + rewrite (fire_settle_idle h i n Hidle). reflexivity.
  - exists []. rewrite app_nil_r. split; [|intros t []].
    cbn [Wiki.fire]. destruct (includes (Wiki.stale h) title); reflexivity.
  - exists []. rewrite app_nil_r. split; [|intros t []].
    cbn [Wiki.fire]. apply cleanup_requests.
Qed.

(** A key that the cache holds is not requested by any later step. *)
Lemma run_no_refetch (events : list Wiki.event) (h : Wiki.hook) :
  exists new,
    Wiki.requests (Wiki.run h events) = Wiki.requests h ++ new
    /\ forall t, is_Some (Wiki.cache h !! t) -> ~ In t new.
Proof.
  revert h. induction events as [|e events IH]; intros h.
  - exists []. simpl. rewrite app_nil_r. split; [reflexivity | intros t _ []].
  - destruct (fire_requests h e) as (new1 & Hreq1 & Hnew1).
    destruct (IH (Wiki.fire h e)) as (new2 & Hreq2 & Hnew2).
    exists (new1 ++ new2). split.
    + cbn [Wiki.run fold_left]. unfold Wiki.run in Hreq2.
      rewrite Hreq2, Hreq1, app_assoc. reflexivity.
    + intros t Ht Hin. apply in_app_or in Hin. destruct Hin as [Hin | Hin].
      * specialize (Hnew1 t Hin). destruct Ht as [v Hv]. congruence.
      * apply (Hnew2 t); [apply fire_cache_mono, Ht | exact Hin].
Qed.

(** *** The serialized key *)

Lemma split_plain (c : ascii) (x : string) :
  hasChar c x = false -> Str.split c x = [x].
Proof.
  induction x as [|a x IH]; cbn [hasChar Str.split]; intros H.
  - reflexivity.
  - apply orb_false_iff in H. destruct H as [Ha Hx].
    rewrite Ha, (IH Hx). reflexivity.
Qed.

Lemma append_cons (a : ascii) (x rest : string) :
  (String a x ++ rest)%string = String a (x ++ rest).
Proof. reflexivity. Qed.

Lemma split_app (c : ascii) (x rest : string) :
  hasChar c x = false ->
  Str.split c (x ++ String c rest) = x :: Str.split c rest.
Proof.
  induction x as [|a x IH]; intros H.
  - change (EmptyString ++ String c rest)%string with (String c rest).
    cbn [Str.split]. rewrite Ascii.eqb_refl. reflexivity.
  - cbn [hasChar] in H. apply orb_false_iff in H. destruct H as [Ha Hx].
    rewrite append_cons. cbn [Str.split]. rewrite Ha, (IH Hx). reflexivity.
Qed.

Lemma split_join (c : ascii) (l : list string) :
  l <> [] -> List.Forall (fun t => hasChar c t = false) l ->
  Str.split c (Str.join (String c EmptyString) l) = l.
Proof.
  induction l as [|x l IH]; intros Hne Hall; [congruence|].
  inversion Hall as [|? ? Hx Hl]; subst.
  destruct l as [|y l].
  - cbn [Str.join]. apply split_plain, Hx.
  - change (Str.join (String c EmptyString) (x :: y :: l))
      with (x ++ String c (Str.join (String c EmptyString) (y :: l)))%string.
    rewrite (split_app c x _ Hx). f_equal. apply IH; [discriminate | exact Hl].
Qed.

Lemma filter_truthy_id (l : list string) :
  List.Forall (fun t => Str.truthy t = true) l -> List.filter Str.truthy l = l.
Proof.
  induction 1 as [|x l Hx _ IH]; simpl; [reflexivity|].
  rewrite Hx, IH. reflexivity.
Qed.

Lemma distinct_In (seen titles : list string) (t : string) :
  In t (Wiki.distinct seen titles) -> In t titles /\ ~ In t seen.
Proof.
  revert seen. induction titles as [|x titles IH]; intros seen H.
  - destruct H.
  - cbn [Wiki.distinct] in H. destruct (includes seen x) eqn:E.
    + destruct (IH _ H) as [H1 H2]. split; [right; exact H1 | exact H2].
    + destruct H as [<- | H].
      * split; [left; reflexivity | apply includes_not_In, E].
      * destruct (IH _ H) as [H1 H2]. split; [right; exact H1|].
        intros Hs. apply H2. right. exact Hs.
Qed.

Lemma distinct_NoDup (seen titles : list string) :
  List.NoDup (Wiki.distinct seen titles).
Proof.
  revert seen. induction titles as [|x titles IH]; intros seen.
  - constructor.
  - cbn [Wiki.distinct]. destruct (includes seen x); [apply IH|].
    constructor; [|apply IH].
    intros H. apply distinct_In in H. destruct H as [_ H]. apply H.
    left. reflexivity.
Qed.

(** Without NUL in the titles, splitting the serialized key gives back
    the distinct non-empty titles. *)
Lemma currentTitles_unique (titles : list string) :
  List.Forall (fun t => hasChar Wiki.NUL t = false) titles ->
  Wiki.currentTitles (Wiki.titlesKey titles) = Wiki.uniqueTitles titles.
Proof.
  intros Hnul. unfold Wiki.currentTitles, Wiki.titlesKey.
  assert (Hall : forall t, In t (Wiki.uniqueTitles titles) ->
                           Str.truthy t = true /\ hasChar Wiki.NUL t = false).
  { intros t Ht. unfold Wiki.uniqueTitles in Ht. apply distinct_In in Ht.
    destruct Ht as [Ht _]. apply List.filter_In in Ht. destruct Ht as [Ht Htrue].
    split; [exact Htrue|]. rewrite List.Forall_forall in Hnul. apply Hnul, Ht. }
  destruct (Wiki.uniqueTitles titles) as [|x l] eqn:E; [reflexivity|].
  rewrite split_join.
  - apply filter_truthy_id, List.Forall_forall. intros t Ht. apply Hall, Ht.
  - discriminate.
  - apply List.Forall_forall. intros t Ht. apply Hall, Ht.
Qed.

(** *** One request in flight per title *)

Lemma pending_open_NoDup (c : gmap string (option Wiki.summary))
    (titles : list string) :
  List.NoDup titles -> List.NoDup (Wiki.pendingTitles (map (Wiki.open c) titles)).
Proof.
  induction 1 as [|x titles Hx _ IH].
  - constructor.
  - unfold Wiki.pendingTitles in *. cbn [map omap list_omap].
    destruct (c !! x) as [entry|] eqn:E.
    + rewrite (open_cached c x entry E). cbn. exact IH.
    + rewrite (open_absent c x E). cbn. constructor; [|exact IH].
      intros H. apply (pending_open c titles x) in H. apply Hx, H.
Qed.

(** Settling a pending slot takes its title, once, out of the pending
    titles. *)
Lemma pending_insert (slots : list Wiki.slot) (i : nat) (title : string)
    (r : option Wiki.summary) :
  slots !! i = Some (title, None) ->
  exists l1 l2,
    Wiki.pendingTitles slots = l1 ++ title :: l2
    /\ Wiki.pendingTitles (<[i := (title, Some r)]> slots) = l1 ++ l2.
Proof.
  unfold Wiki.pendingTitles. revert i.
  induction slots as [|[t o] slots IH]; intros i Hi.
  - destruct i; discriminate Hi.
  - destruct i as [|i].
    + cbn in Hi. injection Hi as -> ->. exists [], (omap
        (fun s : Wiki.slot => match s.2 with None => Some s.1 | Some _ => None end)
        slots).
      split; reflexivity.
    + cbn in Hi. destruct (IH i Hi) as (l1 & l2 & H1 & H2).
      cbn [insert list_insert omap list_omap].
      destruct o as [res|]; cbn.
      * exists l1, l2. split; [exact H1 | exact H2].
      * exists (t :: l1), l2. cbn. rewrite H1.
        split; [reflexivity | f_equal; exact H2].
Qed.

Lemma fire_singleFlight (h : Wiki.hook) (e : Wiki.event) :
  nulFree e -> singleFlight h -> singleFlight (Wiki.fire h e).
Proof.
  unfold singleFlight, pendingOf. intros Hnul Hh.
  destruct e as [titles|i n|title|].
  - cbn [Wiki.fire]. unfold Wiki.effect.
    destruct (Nat.eqb _ 0); cbn [Wiki.live].
    + rewrite cleanup_live. constructor.
    + apply pending_open_NoDup. rewrite (currentTitles_unique titles Hnul).
      apply distinct_NoDup.
  - destruct (settle_cases h i) as [(slots & title & Hlive & Hslot) | Hidle].
    + rewrite (fire_settle h i n slots title Hlive Hslot). cbn [Wiki.live].
      rewrite Hlive in Hh.
      destruct (pending_insert slots i title
                  (Wiki.settle title (Wiki.fetchSummary n) (Wiki.cache h)).2 Hslot)
        as (l1 & l2 & H1 & H2).
      rewrite H2. rewrite H1 in Hh. apply NoDup_remove_1 in Hh. exact Hh.
    + rewrite (fire_settle_idle h i n Hidle). exact Hh.
  - cbn [Wiki.fire]. destruct (includes (Wiki.stale h) title); exact Hh.
  - cbn [Wiki.fire]. rewrite cleanup_live. constructor.
Qed.

(** An entry whose title has no request in flight in the current run is
    left as it is by every step. *)
Lemma fire_keeps_entry (h : Wiki.hook) (e : Wiki.event) (k : string)
    (entry : option Wiki.summary) :
  Wiki.cache h !! k = Some entry -> ~ In k (pendingOf h) ->
  Wiki.cache (Wiki.fire h e) !! k = Some entry
  /\ ~ In k (pendingOf (Wiki.fire h e)).
Proof.
  unfold pendingOf. intros Hk Hpend.
  destruct e as [titles|i n|title|].
  - cbn [Wiki.fire]. unfold Wiki.effect.
    destruct (Nat.eqb _ 0); cbn [Wiki.live Wiki.cache].
    + rewrite cleanup_live, cleanup_cache. split; [exact Hk | intros []].
    + rewrite cleanup_cache. split; [exact Hk|].
      intros H. apply pending_open in H. destruct H as [H _]. congruence.
  - destruct (settle_cases h i) as [(slots & title & Hlive & Hslot) | Hidle].
    + rewrite (fire_settle h i n slots title Hlive Hslot).
      cbn [Wiki.live Wiki.cache]. rewrite Hlive in Hpend.
      destruct (pending_insert slots i title
                  (Wiki.settle title (Wiki.fetchSummary n) (Wiki.cache h)).2 Hslot)
        as (l1 & l2 & H1 & H2).
      rewrite H1 in Hpend. split.
      * rewrite settle_cache_other; [exact Hk|].
        intros ->. apply Hpend, in_or_app. right. left. reflexivity.
      * rewrite H2. intros H. apply Hpend.
        apply in_app_or in H. apply in_or_app. simpl. tauto.
    + rewrite (fire_settle_idle h i n Hidle). split; assumption.
  - cbn [Wiki.fire]. destruct (includes (Wiki.stale h) title);
      cbn [Wiki.live Wiki.cache Wiki.settle fst]; split; assumption.
  - cbn [Wiki.fire]. rewrite cleanup_live, cleanup_cache.
    split; [exact Hk | intros []].
Qed.

Lemma run_keeps_entry (events : list Wiki.event) (h : Wiki.hook) (k : string)
    (entry : option Wiki.summary) :
  Wiki.cache h !! k = Some entry -> ~ In k (pendingOf h) ->
  Wiki.cache (Wiki.run h events) !! k = Some entry.
Proof.
  revert h. induction events as [|e events IH]; intros h Hk Hpend.
  - exact Hk.
  - destruct (fire_keeps_entry h e k entry Hk Hpend) as [Hk' Hpend'].
    apply (IH _ Hk' Hpend').
Qed.

Lemma run_singleFlight (events : list Wiki.event) (h : Wiki.hook) :
  List.Forall nulFree events -> singleFlight h ->
  singleFlight (Wiki.run h events).
Proof.
  revert h. induction events as [|e events IH]; intros h Hall Hh.
  - exact Hh.
  - inversion Hall as [|? ? He Hrest]; subst.
    apply IH; [exact Hrest | apply fire_singleFlight; assumption].
Qed.

(** *** A settled run *)

Lemma insert_fst (slots : list Wiki.slot) (i : nat) (t : string)
    (r0 r : option (option Wiki.summary)) :
  slots !! i = Some (t, r0) ->
  map fst (<[i := (t, r)]> slots) = map fst slots.
Proof.
  revert i. induction slots as [|[t' r'] slots IH]; intros i Hi.
  - reflexivity.
  - destruct i as [|i].
    + cbn in Hi. injection Hi as -> ->. reflexivity.
    + cbn in Hi. cbn [insert list_insert map]. f_equal. apply (IH i Hi).
Qed.

Lemma open_covers (c : gmap string (option Wiki.summary)) (ts : list string)
    (j : nat) (t : string) (r : option (option Wiki.summary)) :
  map (Wiki.open c) ts !! j = Some (t, r) -> r = None \/ is_Some (c !! t).
Proof.
  revert j. induction ts as [|x ts IH]; intros j Hj.
  - destruct j; discriminate Hj.
  - destruct j as [|j]; [|apply (IH j Hj)].
    cbn in Hj. unfold Wiki.open in Hj.
    destruct (c !! x) as [entry|] eqn:E; injection Hj as <- <-.
    + right. rewrite E. eauto.
    + left. reflexivity.
Qed.

Lemma open_fst (c : gmap string (option Wiki.summary)) (ts : list string) :
  map fst (map (Wiki.open c) ts) = ts.
Proof.
  induction ts as [|x ts IH]; [reflexivity|].
  cbn [map]. rewrite IH. unfold Wiki.open. destruct (c !! x); reflexivity.
Qed.

Lemma render_covers (h : Wiki.hook) (titles : list string) :
  Wiki.currentTitles (Wiki.titlesKey titles) <> [] ->
  covers (Wiki.fire h (Wiki.Render titles))
    (Wiki.currentTitles (Wiki.titlesKey titles)).
Proof.
  intros Hne. cbn [Wiki.fire]. unfold Wiki.effect, covers.
  destruct (Wiki.currentTitles (Wiki.titlesKey titles)) as [|t ts] eqn:E;
    [congruence|].
  cbn [length Nat.eqb Wiki.live Wiki.cache].
  eexists. split; [reflexivity|]. split; [apply open_fst|].
  intros j t' r Hj. apply (open_covers _ _ _ _ _ Hj).
Qed.

Lemma settle_writes (title : string) (o : Wiki.outcome)
    (c : gmap string (option Wiki.summary)) :
  o <> Wiki.ThrewAbort -> is_Some ((Wiki.settle title o c).1 !! title).
Proof.
  destruct o; intros H; [| congruence |]; cbn [Wiki.settle fst];
    rewrite lookup_insert_eq; eauto.
Qed.

Lemma settles_covers (h : Wiki.hook) (e : Wiki.event) (ts : list string) :
  settles e -> covers h ts -> covers (Wiki.fire h e) ts.
Proof.
  destruct e as [titles|i n|title|]; cbn [settles]; try contradiction.
  intros Hn (slots & Hlive & Hfst & Hall).
  destruct (settle_cases h i) as [(slots' & title & Hlive' & Hslot) | Hidle].
  - assert (slots' = slots) by congruence. subst slots'.
    rewrite (fire_settle h i n slots title Hlive Hslot).
    cbv zeta. unfold covers. cbn [Wiki.live Wiki.cache].
    eexists. split; [reflexivity|].
    split; [rewrite (insert_fst slots i title None _ Hslot); exact Hfst|].
    intros j t r Hj.
    destruct (decide (i = j)) as [<- | Hne].
    + rewrite list_lookup_insert_eq in Hj
        by (apply lookup_lt_Some in Hslot; exact Hslot).
      injection Hj as <- <-. right. apply settle_writes, Hn.
    + rewrite list_lookup_insert_ne in Hj by exact Hne.
      destruct (Hall j t r Hj) as [-> | Hc]; [left; reflexivity|].
      right. apply settle_cache_mono, Hc.
  - rewrite (fire_settle_idle h i n Hidle). exists slots. auto.
Qed.

Lemma run_settles_covers (events : list Wiki.event) (h : Wiki.hook)
    (ts : list string) :
  List.Forall settles events -> covers h ts -> covers (Wiki.run h events) ts.
Proof.
  revert h. induction events as [|e events IH]; intros h Hall Hc.
  - exact Hc.
  - inversion Hall as [|? ? He Hrest]; subst.
    apply IH; [exact Hrest | apply settles_covers; assumption].
Qed.

Lemma pending_none (slots : list Wiki.slot) (j : nat) (t : string) :
  Wiki.pendingTitles slots = [] -> slots !! j <> Some (t, None).
Proof.
  unfold Wiki.pendingTitles. revert j.
  induction slots as [|[t' r'] slots IH]; intros j Hnil Hj.
  - destruct j; discriminate Hj.
  - cbn [omap list_omap] in Hnil. destruct r' as [r'|]; cbn in Hnil;
      [|discriminate Hnil].
    destruct j as [|j]; [cbn in Hj; discriminate Hj|].
    apply (IH j Hnil Hj).
Qed.

(** Once every request of a run has come back, and none with the abort
    error, the titles of the run are all cached. *)
Lemma settled_run_cached (h : Wiki.hook) (titles : list string)
    (events : list Wiki.event) :
  List.Forall settles events ->
  pendingOf (Wiki.run (Wiki.fire h (Wiki.Render titles)) events) = [] ->
  forall t, In t (Wiki.currentTitles (Wiki.titlesKey titles)) ->
            is_Some (Wiki.cache
                       (Wiki.run (Wiki.fire h (Wiki.Render titles)) events) !! t).
Proof.
  intros Hall Hpending t Ht.
  assert (Hne : Wiki.currentTitles (Wiki.titlesKey titles) <> [])
    by (intros E; rewrite E in Ht; destruct Ht).
  destruct (run_settles_covers events _ _ Hall (render_covers h titles Hne))
    as (slots & Hlive & Hfst & Hcov).
  unfold pendingOf in Hpending. rewrite Hlive in Hpending.
  rewrite <- Hfst in Ht. apply in_map_iff in Ht.
  destruct Ht as ([t' r] & Et & Hin). cbn in Et. subst t'.
  apply list_elem_of_In, list_elem_of_lookup in Hin. destruct Hin as [j Hj].
  destruct (Hcov j t r Hj) as [-> | Hc]; [|exact Hc].
  exfalso. apply (pending_none slots j t Hpending Hj).
Qed.


(** ** A consistent comparison of names *)

Lemma codeUnitCompare_consistent : consistentCompare codeUnitCompare.
Proof.
  unfold consistentCompare, codeUnitCompare. split.
  - intros a b. rewrite (String_as_OT.cmp_antisym a b).
    destruct (String_as_OT.cmp b a); reflexivity.
  - intros a b c Hab Hbc.
    destruct (String_as_OT.cmp a b) eqn:Eab; [| |lia];
      destruct (String_as_OT.cmp b c) eqn:Ebc; try lia.
    + apply String_as_OT.cmp_eq in Eab, Ebc. subst.
      assert (String_as_OT.cmp c c = Eq) as -> by (apply String_as_OT.cmp_eq; reflexivity).
      lia.
    + apply String_as_OT.cmp_eq in Eab. subst. rewrite Ebc. lia.
    + apply String_as_OT.cmp_eq in Ebc. subst. rewrite Eab. lia.
    + apply String_as_OT.cmp_lt in Eab, Ebc.
      assert (String_as_OT.cmp a c = Lt) as ->
        by (apply String_as_OT.cmp_lt; eapply String_as_OT.lt_trans; eassumption).
      lia.
Qed.

(** * Worked instances *)

(** ** Normalization and score *)





Lemma normalizedMetric_tie_witness :
  normalizedMetric Sample.bravo Sample.topSpeed
    {[ Metric.key Sample.topSpeed := Stats.Build (Fin 7) (Fin 7) (Fin 1) ]}
  = Fin 1
  /\ normalizedMetric Sample.bravo Sample.topSpeed
       (buildMetricStats [Sample.alpha]) = Fin 1.
Proof.
  pose proof (normalizedMetric_tie Sample.bravo Sample.topSpeed
                {[ Metric.key Sample.topSpeed := Stats.Build (Fin 7) (Fin 7) (Fin 1) ]}
                (Stats.Build (Fin 7) (Fin 7) (Fin 1))
                [Sample.alpha]) as [H1 H2].
  split.
  - apply H1; reflexivity.
  - apply H2.
    + discriminate.
    + left. reflexivity.
    + intros a b [<- | []] [<- | []]. reflexivity.
Defined.


(** ** Leaderboard and best value for cost *)

(** An item whose score is [NaN] is ranked neither before nor after any
    other item. *)
Lemma rankedBefore_NaN (localeCompare : string -> string -> Z) (x y : Scored.t) :
  Scored.score x = NaN \/ Scored.score y = NaN ->
  ~ rankedBefore localeCompare x y.
Proof.
  unfold rankedBefore. intros [E | E]; rewrite E.
  - intros [H | [H _]]; [destruct (Scored.score y) | ]; discriminate H.
  - intros [H | [H _]]; [|destruct (Scored.score x)]; discriminate H.
Qed.



(** C5, as stated, fails for a cost between 0 and 1: over the table built
    from the two aircraft, Alpha scores 90 at a cost of 0.5 and Bravo 96
    at a cost of 1.  The code divides 90 by 0.5 and returns Alpha, with an
    efficiency of 180, whereas [score / max(cost, 1)] is 90 for Alpha and
    96 for Bravo. *)
Lemma bestEfficiency_fractional_cost :
  let scoreboard :=
    scoreboardFor codeUnitCompare [Sample.alpha; Sample.bravo]
      (buildMetricStats [Sample.alpha; Sample.bravo]) in
  let alpha := Scored.Build Sample.alpha (Fin 90) in
  let bravo := Scored.Build Sample.bravo (Fin 96) in
  scoreboard = [bravo; alpha]
  /\ bestEfficiency scoreboard = Some (Efficiency.Build alpha (Fin 180))
  /\ (spec_efficiency alpha ≃ Fin 90)%num
  /\ (spec_efficiency bravo ≃ Fin 96)%num
  /\ Num.leb (spec_efficiency bravo) (spec_efficiency alpha) = false.
Proof.
  cbv zeta. split; [vm_compute; reflexivity|].
  split; [vm_compute; reflexivity|].
  split; [vm_compute; reflexivity|].
  split; [vm_compute; reflexivity|].
  vm_compute; reflexivity.
Qed.

(** The scores have to be finite for the selection to be a maximum: next
    to an item whose score is [NaN], the comparator yields [NaN], nothing
    is moved, and the first item is returned whatever the others are. *)
Lemma bestEfficiency_NaN_score :
  let scoreboard :=
    [Scored.Build Sample.mike NaN; Scored.Build Sample.bravo (Fin 96)] in
  bestEfficiency scoreboard
  = Some (Efficiency.Build (Scored.Build Sample.mike NaN) NaN)
  /\ Num.leb (efficiencyOf (Scored.Build Sample.bravo (Fin 96))) NaN = false.
Proof. cbv zeta. split; vm_compute; reflexivity. Qed.

Lemma bestEfficiency_greatest_witness :
  let scoreboard :=
    scoreboardFor codeUnitCompare [Sample.alpha; Sample.bravo]
      (buildMetricStats [Sample.alpha; Sample.bravo]) in
  exists best,
    bestEfficiency scoreboard = Some best
    /\ In (Efficiency.item best) scoreboard
    /\ Efficiency.efficiency best = efficiencyOf (Efficiency.item best)
    /\ Num.leb (efficiencyOf (Scored.Build Sample.bravo (Fin 96)))
               (efficiencyOf (Efficiency.item best)) = true.
Proof.
  cbv zeta.
  destruct (bestEfficiency_greatest
              (scoreboardFor codeUnitCompare [Sample.alpha; Sample.bravo]
                 (buildMetricStats [Sample.alpha; Sample.bravo])))
    as (best & Hbest & Hin & Heff & Hmax).
  - vm_compute. discriminate.
  - apply scoreboardFor_finite. intros m Hm. apply buildMetricStats_usable, Hm.
  - exists best. split; [exact Hbest|]. split; [exact Hin|].
    split; [exact Heff|].
    apply Hmax. vm_compute. left. reflexivity.
Defined.

(** ** Summary cache *)



(** ** Model probe *)





(** ** Comparison selection *)

Lemma compare_selection_invariant_witness :
  compareReachable ["f22"; "su57"]%string
  /\ toggleCompare "f22" ["f22"; "su57"]%string = ["su57"%string]
  /\ toggleCompare "j20" ["f22"; "su57"]%string = ["f22"; "su57"; "j20"]%string
  /\ List.NoDup ["f22"; "su57"]%string.
Proof.
  assert (Hreach : compareReachable ["f22"; "su57"]%string).
  { apply (reach_toggle "su57" ["f22"%string]).
    apply (reach_toggle "f22" []). apply reach_initial. }
  destruct (compare_selection_invariant "f22" ["f22"; "su57"]%string Hreach)
    as ((Hnd & _) & Hremove & _).
  destruct (compare_selection_invariant "j20" ["f22"; "su57"]%string Hreach)
    as (_ & _ & Happend & _).
  split; [exact Hreach|].
  split.
  - destruct (Hremove (or_introl eq_refl)) as (before & after & _ & _ & Hgone).
    clear before after. reflexivity.
  - split; [|exact Hnd].
    apply Happend.
    + intros [H | [H | []]]; discriminate H.
    + simpl. lia.
Defined.

(** * Further properties *)

Local Open Scope Q_scope.

(** ** Normalized values as rationals *)

(** The clamp of a finite number, by cases. *)
Lemma clamp_Fin (x : Q) :
  exists r, Math.max [Fin 0; Math.min [Fin 1; Fin x]] = Fin r
            /\ 0 <= r <= 1
            /\ (x <= 0 -> r == 0)
            /\ (0 <= x <= 1 -> r == x)
            /\ (1 <= x -> r == 1).
Proof.
  unfold Math.max, Math.min. cbn [fold_left].
  change (Math.min2 PosInf (Fin 1)) with (Fin 1).
  change (Math.max2 NegInf (Fin 0)) with (Fin 0).
  rewrite min2_Fin.
  destruct (Num.ltb (Fin x) (Fin 1)) eqn:E1.
  - apply ltb_Fin in E1. rewrite max2_Fin.
    destruct (Num.ltb (Fin 0) (Fin x)) eqn:E0.
    + apply ltb_Fin in E0. exists x. repeat split; try lra.
    + apply ltb_Fin_false in E0. exists 0. repeat split; try lra.
  - apply ltb_Fin_false in E1. rewrite max2_Fin.
    change (Num.ltb (Fin 0) (Fin 1)) with true.
    exists 1. repeat split; try lra.
Qed.

(** The value [normalizedMetric] returns over an entry with a finite
    minimum and a positive finite span. *)
Lemma normalizedMetric_value (a : Aircraft.t) (m : Metric.t)
    (table : gmap string Stats.t) (stats : Stats.t) (mn sp : Q) :
  table !! Metric.key m = Some stats ->
  Stats.min stats = Fin mn -> Stats.span stats = Fin sp -> 0 < sp ->
  exists q r,
    valueOrZero (Aircraft.get a (Metric.key m)) = Fin q
    /\ normalizedMetric a m table = Fin r
    /\ 0 <= r <= 1
    /\ (Num.strict_eq (Stats.max stats) (Stats.min stats) = true ->
        normalizedMetric a m table = Fin 1)
    /\ (Num.strict_eq (Stats.max stats) (Stats.min stats) = false ->
        let d := if Metric.higherBetter m then (q - mn) / sp
                 else 1 - (q - mn) / sp in
        (d <= 0 -> r == 0) /\ (0 <= d <= 1 -> r == d) /\ (1 <= d -> r == 1)).
Proof.
  intros Hlookup Hmin Hspan Hpos. unfold normalizedMetric.
  rewrite Hlookup. cbv zeta.
  destruct (valueOrZero_finite (Aircraft.get a (Metric.key m))) as [q Hq].
  rewrite Hq, Hmin, Hspan. exists q.
  destruct (Num.strict_eq (Stats.max stats) (Fin mn)) eqn:Etie.
  - exists 1. repeat split; try lra; try reflexivity; try discriminate.
  - cbn [Num.sub Num.div]. rewrite (Qeq_bool_positive sp Hpos).
    destruct (Metric.higherBetter m).
    + destruct (clamp_Fin ((q - mn) / sp)) as (r & -> & Hr & H0 & H01 & H1).
      exists r. repeat split; try tauto; try discriminate.
    + cbn [Num.sub].
      destruct (clamp_Fin (1 - (q - mn) / sp)) as (r & -> & Hr & H0 & H01 & H1).
      exists r. repeat split; try tauto; try discriminate.
Qed.

(** Over a positive span the normalized value does not decrease when the
    value moves in the direction the metric rewards. *)
Lemma normalizedMetric_monotone (a a' : Aircraft.t) (m : Metric.t)
    (table : gmap string Stats.t) (stats : Stats.t) (mn sp : Q) :
  table !! Metric.key m = Some stats ->
  Stats.min stats = Fin mn -> Stats.span stats = Fin sp -> 0 < sp ->
  atLeastAsGood m a a' ->
  exists r r',
    normalizedMetric a m table = Fin r
    /\ normalizedMetric a' m table = Fin r'
    /\ 0 <= r /\ r <= r' /\ r' <= 1.
Proof.
  intros Hlookup Hmin Hspan Hpos Hdir.
  destruct (normalizedMetric_value a m table stats mn sp Hlookup Hmin Hspan Hpos)
    as (q & r & Hq & Hr & Hr01 & Htie & Hval).
  destruct (normalizedMetric_value a' m table stats mn sp Hlookup Hmin Hspan Hpos)
    as (q' & r' & Hq' & Hr' & Hr01' & Htie' & Hval').
  exists r, r'. split; [exact Hr|]. split; [exact Hr'|].
  split; [lra|]. split; [|lra].
  destruct (Num.strict_eq (Stats.max stats) (Stats.min stats)) eqn:Etie.
  - specialize (Htie eq_refl). specialize (Htie' eq_refl).
    rewrite Hr in Htie. rewrite Hr' in Htie'.
    injection Htie as ->. injection Htie' as ->. lra.
  - specialize (Hval eq_refl). specialize (Hval' eq_refl). cbv zeta in Hval, Hval'.
    unfold atLeastAsGood in Hdir. rewrite Hq, Hq' in Hdir.
    assert (Hk : 0 < / sp) by (apply Qinv_lt_0_compat, Hpos).
    unfold Qdiv in Hval, Hval'.
    destruct (Metric.higherBetter m).
    + apply leb_Fin in Hdir.
      assert (Hle : (q - mn) * / sp <= (q' - mn) * / sp)
        by (apply Qmult_le_compat_r; lra).
      destruct Hval as (H0 & H01 & H1). destruct Hval' as (H0' & H01' & H1').
      destruct (Qlt_le_dec ((q - mn) * / sp) 0) as [Hn | Hn];
        [rewrite H0 by lra; lra|].
      destruct (Qlt_le_dec 1 ((q - mn) * / sp)) as [Hb | Hb];
        [rewrite H1, H1' by lra; lra|].
      rewrite H01 by lra.
      destruct (Qlt_le_dec 1 ((q' - mn) * / sp)) as [Hb' | Hb'];
        [rewrite H1' by lra; lra|].
      rewrite H01' by lra. lra.
    + apply leb_Fin in Hdir.
      assert (Hle : (q' - mn) * / sp <= (q - mn) * / sp)
        by (apply Qmult_le_compat_r; lra).
      destruct Hval as (H0 & H01 & H1). destruct Hval' as (H0' & H01' & H1').
      destruct (Qlt_le_dec (1 - (q - mn) * / sp) 0) as [Hn | Hn];
        [rewrite H0 by lra; lra|].
      destruct (Qlt_le_dec 1 (1 - (q - mn) * / sp)) as [Hb | Hb];
        [rewrite H1, H1' by lra; lra|].
      rewrite H01 by lra.
      destruct (Qlt_le_dec 1 (1 - (q' - mn) * / sp)) as [Hb' | Hb'];
        [rewrite H1' by lra; lra|].
      rewrite H01' by lra. lra.
Qed.

(** ** The score rewards better values *)

Lemma buildMetricStats_positiveSpans (aircraftList : list Aircraft.t) :
  positiveSpans (buildMetricStats aircraftList).
Proof.
  intros m stats Hm Hlookup.
  rewrite (buildMetricStats_lookup aircraftList m Hm) in Hlookup.
  injection Hlookup as <-.
  destruct (metricStatsEntry_finite aircraftList m) as (mn & mx & Hmn & _).
  destruct (metricStatsEntry_span aircraftList m) as (sp & Hsp & Hle).
  exists mn, sp. repeat split; [exact Hmn | exact Hsp | lra].
Qed.

Lemma normalizedMetric_pointwise (metricStats : gmap string Stats.t)
    (a a' : Aircraft.t) (m : Metric.t) :
  positiveSpans metricStats -> In m ANALYZE_METRICS -> atLeastAsGood m a a' ->
  exists r r',
    normalizedMetric a m metricStats = Fin r
    /\ normalizedMetric a' m metricStats = Fin r'
    /\ 0 <= r /\ r <= r' /\ r' <= 1.
Proof.
  intros Hpos Hm Hgood.
  destruct (metricStats !! Metric.key m) as [stats|] eqn:Hlookup.
  - destruct (Hpos m stats Hm Hlookup) as (mn & sp & Hmn & Hsp & Hlt).
    apply (normalizedMetric_monotone a a' m metricStats stats mn sp); assumption.
  - exists 0, 0. unfold normalizedMetric. rewrite Hlookup.
    repeat split; lra.
Qed.

Lemma weighted_monotone (metricStats metricStats' : gmap string Stats.t)
    (a a' : Aircraft.t) (metrics : list Metric.t) :
  (forall m, In m metrics ->
     exists w r r',
       Metric.weight m = Fin w /\ 0 <= w
       /\ normalizedMetric a m metricStats = Fin r
       /\ normalizedMetric a' m metricStats' = Fin r' /\ r <= r') ->
  forall s s', s <= s' ->
  exists t t',
    fold_left
      (fun sum m => (sum + normalizedMetric a m metricStats
                           * Metric.weight m)%num) metrics (Fin s) = Fin t
    /\ fold_left
         (fun sum m => (sum + normalizedMetric a' m metricStats'
                              * Metric.weight m)%num) metrics (Fin s') = Fin t'
    /\ t <= t'.
Proof.
  induction metrics as [|m metrics IH]; intros Hall s s' Hle.
  - exists s, s'. repeat split. exact Hle.
  - destruct (Hall m (or_introl eq_refl)) as (w & r & r' & Hw & Hw0 & Hr & Hr' & Hrr).
    cbn [fold_left]. rewrite Hw, Hr, Hr'. cbn [Num.mul Num.add].
    apply IH.
    + intros m' Hm'. apply Hall. right. exact Hm'.
    + assert (r * w <= r' * w) by (apply Qmult_le_compat_r; assumption). lra.
Qed.

(** Rounding keeps the order of finite numbers. *)
Lemma round_monotone (x y : Q) :
  x <= y -> Num.leb (Math.round (Fin x)) (Math.round (Fin y)) = true.
Proof.
  intros Hle. unfold Math.round. apply leb_Fin. rewrite <- Zle_Qle.
  apply Qfloor_resp_le. lra.
Qed.

Lemma computeAnalyzeScore_pointwise (metricStats metricStats' : gmap string Stats.t)
    (a a' : Aircraft.t) :
  (forall m, In m ANALYZE_METRICS ->
     exists r r',
       normalizedMetric a m metricStats = Fin r
       /\ normalizedMetric a' m metricStats' = Fin r' /\ r <= r') ->
  Num.leb (computeAnalyzeScore a metricStats)
          (computeAnalyzeScore a' metricStats') = true.
Proof.
  intros Hall.
  destruct totalWeight_positive as (t & Ht & Hpos & _).
  destruct (weighted_monotone metricStats metricStats' a a' ANALYZE_METRICS)
    with (s := 0) (s' := 0) as (u & u' & Hu & Hu' & Hle).
  - intros m Hm. destruct (ANALYZE_METRICS_weights m Hm) as (w & Hw & Hw0).
    destruct (Hall m Hm) as (r & r' & Hr & Hr' & Hrr).
    exists w, r, r'. repeat split; assumption.
  - lra.
  - unfold computeAnalyzeScore, computeScoreOver. cbv zeta.
    rewrite Ht, (leb_positive_zero t Hpos), Hu, Hu'.
    cbn [Num.div]. rewrite (Qeq_bool_positive t Hpos). cbn [Num.mul].
    apply round_monotone.
    assert (Hk : 0 < / t) by (apply Qinv_lt_0_compat, Hpos).
    unfold Qdiv.
    assert (u * / t <= u' * / t) by (apply Qmult_le_compat_r; lra). lra.
Qed.



(** ** The score does not depend on the order of the data *)

Lemma metricStatsEntry_Permutation (l l' : list Aircraft.t) (m : Metric.t) :
  Permutation l l' ->
  exists mn mx sp mn' mx' sp',
    Stats.min (metricStatsEntry l m) = Fin mn
    /\ Stats.max (metricStatsEntry l m) = Fin mx
    /\ Stats.span (metricStatsEntry l m) = Fin sp
    /\ Stats.min (metricStatsEntry l' m) = Fin mn'
    /\ Stats.max (metricStatsEntry l' m) = Fin mx'
    /\ Stats.span (metricStatsEntry l' m) = Fin sp'
    /\ mn == mn' /\ mx == mx' /\ sp == sp' /\ 0 < sp /\ 0 < sp'.
Proof.
  intros Hperm. destruct l as [|x l].
  - apply Permutation_nil in Hperm. subst l'.
    exists 0, 1, 1, 0, 1, 1. repeat split; try reflexivity; lra.
  - assert (Hne : x :: l <> []) by discriminate.
    assert (Hne' : l' <> []).
    { intros ->. apply Permutation_sym, Permutation_nil in Hperm.
      discriminate Hperm. }
    destruct (metricStatsEntry_attained (x :: l) m Hne)
      as (Hmin & Hmax & mn & mx & Emin & Emax & Hinmn & Hlow & Hinmx & Hhigh).
    destruct (metricStatsEntry_attained l' m Hne')
      as (Hmin' & Hmax' & mn' & mx' & Emin' & Emax' & Hinmn' & Hlow' & Hinmx'
          & Hhigh').
    cbv zeta in Hmin, Hmax, Hmin', Hmax'.
    destruct (span_finite mn mx) as (sp & Hsp & Hsp1 & Hcases & Hsple).
    destruct (span_finite mn' mx') as (sp' & Hsp' & Hsp1' & Hcases' & Hsple').
    assert (Hvalues : Permutation (metricValues (x :: l) (Metric.key m))
                                  (metricValues l' (Metric.key m))).
    { unfold metricValues. apply Permutation_map, Hperm. }
    rewrite List.Forall_forall in Hlow, Hhigh, Hlow', Hhigh'.
    assert (H1 : mn' <= mn)
      by (apply leb_Fin, Hlow', (Permutation_in _ Hvalues), Hinmn).
    assert (H2 : mn <= mn')
      by (apply leb_Fin, Hlow, (Permutation_in _ (Permutation_sym Hvalues)), Hinmn').
    assert (H3 : mx <= mx')
      by (apply leb_Fin, Hhigh', (Permutation_in _ Hvalues), Hinmx).
    assert (H4 : mx' <= mx)
      by (apply leb_Fin, Hhigh, (Permutation_in _ (Permutation_sym Hvalues)), Hinmx').
    exists mn, mx, sp, mn', mx', sp'.
    split; [rewrite Hmin; exact Emin|]. split; [rewrite Hmax; exact Emax|].
    split.
    { change (Stats.span (metricStatsEntry (x :: l) m))
        with (Math.max [(Stats.max (metricStatsEntry (x :: l) m)
                         - Stats.min (metricStatsEntry (x :: l) m))%num; Fin 1]).
      rewrite Hmin, Hmax, Emin, Emax. exact Hsp. }
    split; [rewrite Hmin'; exact Emin'|]. split; [rewrite Hmax'; exact Emax'|].
    split.
    { change (Stats.span (metricStatsEntry l' m))
        with (Math.max [(Stats.max (metricStatsEntry l' m)
                         - Stats.min (metricStatsEntry l' m))%num; Fin 1]).
      rewrite Hmin', Hmax', Emin', Emax'. exact Hsp'. }
    split; [lra|]. split; [lra|]. split; [|split; lra].
    destruct Hcases as [E | E], Hcases' as [E' | E']; lra.
Qed.

Lemma normalizedMetric_Permutation (l l' : list Aircraft.t) (a : Aircraft.t)
    (m : Metric.t) :
  In m ANALYZE_METRICS -> Permutation l l' ->
  exists r r',
    normalizedMetric a m (buildMetricStats l) = Fin r
    /\ normalizedMetric a m (buildMetricStats l') = Fin r'
    /\ r == r'.
Proof.
  intros Hm Hperm.
  destruct (metricStatsEntry_Permutation l l' m Hperm)
    as (mn & mx & sp & mn' & mx' & sp' & Hmin & Hmax & Hspan & Hmin' & Hmax'
        & Hspan' & Emn & Emx & Esp & Hpos & Hpos').
  destruct (normalizedMetric_value a m (buildMetricStats l) (metricStatsEntry l m)
              mn sp (buildMetricStats_lookup l m Hm) Hmin Hspan Hpos)
    as (q & r & Hq & Hr & Hr01 & Htie & Hval).
  destruct (normalizedMetric_value a m (buildMetricStats l') (metricStatsEntry l' m)
              mn' sp' (buildMetricStats_lookup l' m Hm) Hmin' Hspan' Hpos')
    as (q' & r' & Hq' & Hr' & Hr01' & Htie' & Hval').
  assert (q' = q) by congruence. subst q'.
  exists r, r'. split; [exact Hr|]. split; [exact Hr'|].
  rewrite Hmax, Hmin in Htie, Hval. rewrite Hmax', Hmin' in Htie', Hval'.
  assert (Hsame : Num.strict_eq (Fin mx') (Fin mn') = Num.strict_eq (Fin mx) (Fin mn)).
  { destruct (Num.strict_eq (Fin mx) (Fin mn)) eqn:E.
    - apply strict_eq_Fin. apply strict_eq_Fin in E. lra.
    - destruct (Num.strict_eq (Fin mx') (Fin mn')) eqn:E'; [|reflexivity].
      apply strict_eq_Fin in E'.
      assert (Num.strict_eq (Fin mx) (Fin mn) = true)
        by (apply strict_eq_Fin; lra).
      congruence. }
  rewrite Hsame in Htie', Hval'.
  destruct (Num.strict_eq (Fin mx) (Fin mn)).
  - specialize (Htie eq_refl). specialize (Htie' eq_refl).
    rewrite Hr in Htie. rewrite Hr' in Htie'.
    injection Htie as ->. injection Htie' as ->. reflexivity.
  - specialize (Hval eq_refl). specialize (Hval' eq_refl).
    cbv zeta in Hval, Hval'.
    assert (Hbase : (q - mn) / sp == (q - mn') / sp')
      by (rewrite Emn, Esp; reflexivity).
    destruct (Metric.higherBetter m).
    + rewrite <- Hbase in Hval'.
      destruct Hval as (H0 & H01 & H1). destruct Hval' as (H0' & H01' & H1').
      destruct (Qlt_le_dec ((q - mn) / sp) 0) as [Hn | Hn];
        [rewrite H0, H0' by lra; reflexivity|].
      destruct (Qlt_le_dec 1 ((q - mn) / sp)) as [Hb | Hb];
        [rewrite H1, H1' by lra; reflexivity|].
      rewrite H01, H01' by lra. reflexivity.
    + rewrite <- Hbase in Hval'.
      destruct Hval as (H0 & H01 & H1). destruct Hval' as (H0' & H01' & H1').
      destruct (Qlt_le_dec (1 - (q - mn) / sp) 0) as [Hn | Hn];
        [rewrite H0, H0' by lra; reflexivity|].
      destruct (Qlt_le_dec 1 (1 - (q - mn) / sp)) as [Hb | Hb];
        [rewrite H1, H1' by lra; reflexivity|].
      rewrite H01, H01' by lra. reflexivity.
Qed.

(** X2: the scores do not depend on the order of the data.  Two
    lists that hold the same aircraft, in whatever order, give tables over
    which every aircraft gets the same normalized values, up to the
    equality of rationals, and the same composite score. *)
Theorem computeAnalyzeScore_Permutation (l l' : list Aircraft.t)
    (a : Aircraft.t) :
  Permutation l l' ->
  (forall m, In m ANALYZE_METRICS ->
     (normalizedMetric a m (buildMetricStats l)
      ≃ normalizedMetric a m (buildMetricStats l'))%num)
  /\ computeAnalyzeScore a (buildMetricStats l)
     = computeAnalyzeScore a (buildMetricStats l').
Proof.
  intros Hperm. split.
  - intros m Hm.
    destruct (normalizedMetric_Permutation l l' a m Hm Hperm)
      as (r & r' & -> & -> & Heq).
    exact Heq.
  - assert (Hle : Num.leb (computeAnalyzeScore a (buildMetricStats l))
                          (computeAnalyzeScore a (buildMetricStats l')) = true).
    { apply computeAnalyzeScore_pointwise. intros m Hm.
      destruct (normalizedMetric_Permutation l l' a m Hm Hperm)
        as (r & r' & Hr & Hr' & Heq).
      exists r, r'. repeat split; try assumption. lra. }
    assert (Hge : Num.leb (computeAnalyzeScore a (buildMetricStats l'))
                          (computeAnalyzeScore a (buildMetricStats l)) = true).
    { apply computeAnalyzeScore_pointwise. intros m Hm.
      destruct (normalizedMetric_Permutation l l' a m Hm Hperm)
        as (r & r' & Hr & Hr' & Heq).
      exists r', r. repeat split; try assumption. lra. }
    destruct (computeAnalyzeScore_range a (buildMetricStats l)
                (buildMetricStats_usable l)) as (z & Hz & _).
    destruct (computeAnalyzeScore_range a (buildMetricStats l')
                (buildMetricStats_usable l')) as (z' & Hz' & _).
    rewrite Hz, Hz' in Hle, Hge |- *.
    apply leb_Fin in Hle, Hge. rewrite <- Zle_Qle in Hle, Hge.
    assert (z = z') by lia. subst z'. reflexivity.
Qed.

Lemma computeAnalyzeScore_Permutation_witness :
  computeAnalyzeScore Sample.alpha (buildMetricStats [Sample.alpha; Sample.bravo])
  = computeAnalyzeScore Sample.alpha (buildMetricStats [Sample.bravo; Sample.alpha]).
Proof.
  apply (computeAnalyzeScore_Permutation [Sample.alpha; Sample.bravo]
           [Sample.bravo; Sample.alpha] Sample.alpha).
  apply perm_swap.
Defined.

(** ** The score at the ends of the scale *)

Lemma computeAnalyzeScore_all_one (metricStats : gmap string Stats.t)
    (a : Aircraft.t) :
  (forall m, In m ANALYZE_METRICS ->
             normalizedMetric a m metricStats = Fin 1) ->
  computeAnalyzeScore a metricStats = Fin 100.
Proof.
  intros Hall. unfold computeAnalyzeScore, computeScoreOver, ANALYZE_METRICS.
  cbv zeta. cbn [fold_left Metric.weight].
  rewrite !Hall by (unfold ANALYZE_METRICS; cbn [In]; tauto).
  vm_compute. reflexivity.
Qed.

Lemma computeAnalyzeScore_all_zero (metricStats : gmap string Stats.t)
    (a : Aircraft.t) :
  (forall m, In m ANALYZE_METRICS ->
             normalizedMetric a m metricStats = Fin 0) ->
  computeAnalyzeScore a metricStats = Fin 0.
Proof.
  intros Hall. unfold computeAnalyzeScore, computeScoreOver, ANALYZE_METRICS.
  cbv zeta. cbn [fold_left Metric.weight].
  rewrite !Hall by (unfold ANALYZE_METRICS; cbn [In]; tauto).
  vm_compute. reflexivity.
Qed.

Lemma metricStatsEntry_single (b : Aircraft.t) (m : Metric.t) :
  Num.strict_eq (Stats.max (metricStatsEntry [b] m))
                (Stats.min (metricStatsEntry [b] m)) = true.
Proof.
  unfold metricStatsEntry, metricValues. cbn [map length Nat.eqb Stats.max Stats.min].
  destruct (valueOrZero_finite (Aircraft.get b (Metric.key m))) as [q ->].
  unfold Math.max, Math.min. cbn [fold_left].
  change (Math.max2 NegInf (Fin q)) with (Fin q).
  change (Math.min2 PosInf (Fin q)) with (Fin q).
  apply strict_eq_Fin. reflexivity.
Qed.

(** X3: the ends of the scale.  An aircraft scores 0 over a table that
    holds no entry for the configured metrics, such as the empty table, and
    100 over a table in which every configured metric has [max === min];
    such is the table built over a single aircraft, over which every
    aircraft scores 100, whatever its values. *)
Theorem computeAnalyzeScore_ends (a : Aircraft.t) :
  (forall metricStats,
      (forall m, In m ANALYZE_METRICS -> metricStats !! Metric.key m = None) ->
      computeAnalyzeScore a metricStats = Fin 0)
  /\ computeAnalyzeScore a ∅ = Fin 0
  /\ (forall metricStats,
         (forall m, In m ANALYZE_METRICS ->
            exists stats,
              metricStats !! Metric.key m = Some stats
              /\ Num.strict_eq (Stats.max stats) (Stats.min stats) = true) ->
         computeAnalyzeScore a metricStats = Fin 100)
  /\ (forall b, computeAnalyzeScore a (buildMetricStats [b]) = Fin 100).
Proof.
  assert (Hnone : forall metricStats,
            (forall m, In m ANALYZE_METRICS ->
                       metricStats !! Metric.key m = None) ->
            computeAnalyzeScore a metricStats = Fin 0).
  { intros metricStats Hall. apply computeAnalyzeScore_all_zero.
    intros m Hm. unfold normalizedMetric. rewrite (Hall m Hm). reflexivity. }
  assert (Htie : forall metricStats,
            (forall m, In m ANALYZE_METRICS ->
               exists stats,
                 metricStats !! Metric.key m = Some stats
                 /\ Num.strict_eq (Stats.max stats) (Stats.min stats) = true) ->
            computeAnalyzeScore a metricStats = Fin 100).
  { intros metricStats Hall. apply computeAnalyzeScore_all_one.
    intros m Hm. destruct (Hall m Hm) as (stats & Hlookup & Heq).
    unfold normalizedMetric. rewrite Hlookup. cbv zeta. rewrite Heq.
    reflexivity. }
  split; [exact Hnone|]. split.
  - apply Hnone. intros m _. apply lookup_empty.
  - split; [exact Htie|]. intros b. apply Htie. intros m Hm.
    exists (metricStatsEntry [b] m). split.
    + apply buildMetricStats_lookup, Hm.
    + apply metricStatsEntry_single.
Qed.

(** ** Aircraft of the list a table was built from *)

Lemma metricStatsEntry_members (aircraftList : list Aircraft.t) (m : Metric.t) :
  aircraftList <> [] ->
  exists mn mx sp,
    Stats.min (metricStatsEntry aircraftList m) = Fin mn
    /\ Stats.max (metricStatsEntry aircraftList m) = Fin mx
    /\ Stats.span (metricStatsEntry aircraftList m) = Fin sp
    /\ mn <= mx /\ 1 <= sp /\ mx - mn <= sp /\ (sp == mx - mn \/ sp == 1)
    /\ forall a, In a aircraftList ->
         exists q, valueOrZero (Aircraft.get a (Metric.key m)) = Fin q
                   /\ mn <= q <= mx.
Proof.
  intros Hne.
  destruct (metricStatsEntry_attained aircraftList m Hne)
    as (Hmin & Hmax & mn & mx & Emin & Emax & Hinmn & Hlow & Hinmx & Hhigh).
  cbv zeta in Hmin, Hmax.
  destruct (span_finite mn mx) as (sp & Hsp & Hsp1 & Hcases & Hsple).
  exists mn, mx, sp.
  assert (Hspan : Stats.span (metricStatsEntry aircraftList m) = Fin sp).
  { change (Stats.span (metricStatsEntry aircraftList m))
      with (Math.max [(Stats.max (metricStatsEntry aircraftList m)
                       - Stats.min (metricStatsEntry aircraftList m))%num; Fin 1]).
    rewrite Hmin, Hmax, Emin, Emax. exact Hsp. }
  rewrite List.Forall_forall in Hlow, Hhigh.
  split; [rewrite Hmin; exact Emin|]. split; [rewrite Hmax; exact Emax|].
  split; [exact Hspan|].
  split; [apply leb_Fin, (Hhigh _ Hinmn)|].
  split; [exact Hsp1|]. split; [exact Hsple|]. split; [exact Hcases|].
  intros a Ha.
  destruct (valueOrZero_finite (Aircraft.get a (Metric.key m))) as [q Hq].
  exists q. split; [exact Hq|].
  assert (Hin : In (Fin q) (metricValues aircraftList (Metric.key m))).
  { rewrite <- Hq. unfold metricValues.
    apply (in_map (fun x => valueOrZero (Aircraft.get x (Metric.key m)))), Ha. }
  split; [apply leb_Fin, (Hlow _ Hin) | apply leb_Fin, (Hhigh _ Hin)].
Qed.



(** ** The first item of a sorted array *)

Section SortHead.
Context {A : Type} (comparefn : A -> A -> number) (P : A -> Prop).

Hypothesis swap_once :
  forall x y, P x -> P y ->
              Num.ltb (Fin 0) (comparefn x y) = true -> keeps comparefn y x.
Hypothesis keeps_trans :
  forall x y z, P x -> P y -> P z ->
                keeps comparefn x y -> keeps comparefn y z -> keeps comparefn x z.

Lemma sort_head (l : list A) :
  l <> [] -> List.Forall P l ->
  exists best rest,
    Array.sort comparefn l = best :: rest
    /\ In best l
    /\ forall x, In x l -> x = best \/ keeps comparefn best x.
Proof.
  intros Hne HP.
  pose proof (sort_Permutation comparefn l) as Hperm.
  pose proof (sort_sorted comparefn P swap_once keeps_trans l HP) as Hsorted.
  destruct (Array.sort comparefn l) as [|best rest] eqn:Es.
  - apply Permutation_sym, Permutation_nil in Hperm. contradiction.
  - exists best, rest. split; [reflexivity|]. split.
    + apply (Permutation_in best (Permutation_sym Hperm)). left. reflexivity.
    + intros x Hx. apply (Permutation_in x Hperm) in Hx.
      destruct Hx as [E | Hx]; [left; symmetry; exact E|]. right.
      apply StronglySorted_inv in Hsorted. destruct Hsorted as [_ Hall].
      rewrite List.Forall_forall in Hall. apply Hall, Hx.
Qed.

End SortHead.

(** ** Leaders *)

Lemma METRIC_BY_KEY_lookup (m : Metric.t) :
  In m ANALYZE_METRICS -> METRIC_BY_KEY !! Metric.key m = Some m.
Proof.
  intros Hm.
  exact (fold_insert_lookup (fun m => m) ANALYZE_METRICS ∅ m
           ANALYZE_METRICS_keys_NoDup Hm).
Qed.

Section LeaderFacts.

Variable localeCompare : string -> string -> Z.

(** X5: when [metricLeader] has a leader.  Each key of a
    configured metric finds that metric in [METRIC_BY_KEY];
    [metricLeader] returns [null] exactly when it is given no metric or
    an empty list, and what it returns otherwise is an aircraft of the
    list, whatever the table holds. *)
Theorem metricLeader_defined (aircraftList : list Aircraft.t)
    (metric : option Metric.t) (metricStats : gmap string Stats.t) :
  (forall m, In m ANALYZE_METRICS -> METRIC_BY_KEY !! Metric.key m = Some m)
  /\ (metricLeader localeCompare aircraftList metric metricStats = None
      <-> metric = None \/ aircraftList = [])
  /\ (forall leader,
         metricLeader localeCompare aircraftList metric metricStats
         = Some leader ->
         In leader aircraftList).
Proof.
  split; [apply METRIC_BY_KEY_lookup|]. unfold metricLeader.
  destruct metric as [m|].
  - destruct aircraftList as [|a rest]; cbn [length Nat.eqb].
    + split; [|discriminate]. split; [right; reflexivity | reflexivity].
    + pose proof (sort_Permutation (leaderCompare localeCompare m metricStats)
                    (a :: rest)) as Hperm.
      destruct (Array.sort (leaderCompare localeCompare m metricStats) (a :: rest))
        as [|best sorted] eqn:Es.
      { apply Permutation_length in Hperm. discriminate Hperm. }
      cbn [head]. split.
      * split; [discriminate|]. intros [H | H]; discriminate H.
      * intros leader [= <-].
        apply (Permutation_in best (Permutation_sym Hperm)). left. reflexivity.
  - split; [|discriminate]. split; [|reflexivity]. intros _. left. reflexivity.
Qed.

Hypothesis consistent : consistentCompare localeCompare.

Variable metric : Metric.t.
Variable metricStats : gmap string Stats.t.

Let scored (a : Aircraft.t) : Scored.t :=
  Scored.Build a (normalizedMetric a metric metricStats).

Let finiteNorm (a : Aircraft.t) : Prop :=
  Num.is_finite (normalizedMetric a metric metricStats).

Lemma leaderCompare_scoreboard (x y : Aircraft.t) :
  finiteNorm x -> finiteNorm y ->
  leaderCompare localeCompare metric metricStats x y
  = scoreboardCompare localeCompare (scored x) (scored y).
Proof.
  unfold finiteNorm, leaderCompare, scoreboardCompare, scored.
  cbn [Scored.score Scored.name Scored.aircraft]. cbv zeta.
  destruct (normalizedMetric x metric metricStats) as [rx| | |],
    (normalizedMetric y metric metricStats) as [ry| | |]; try contradiction.
  intros _ _. reflexivity.
Qed.

Lemma leaderCompare_keeps (x y : Aircraft.t) :
  finiteNorm x -> finiteNorm y ->
  keeps (leaderCompare localeCompare metric metricStats) x y
  <-> rankedBefore localeCompare (scored x) (scored y).
Proof.
  intros Hx Hy. unfold keeps. rewrite (leaderCompare_scoreboard x y Hx Hy).
  apply (scoreboardCompare_keeps localeCompare (scored x) (scored y)); assumption.
Qed.

Lemma rankedBefore_refl (x : Aircraft.t) :
  finiteNorm x -> rankedBefore localeCompare (scored x) (scored x).
Proof.
  unfold finiteNorm, rankedBefore, scored. cbn [Scored.score Scored.name Scored.aircraft].
  destruct (normalizedMetric x metric metricStats) as [rx| | |]; try contradiction.
  intros _. right. split; [apply strict_eq_Fin; reflexivity|].
  destruct consistent as [Hanti _]. unfold Scored.name. cbn [Scored.aircraft].
  specialize (Hanti (Aircraft.name x) (Aircraft.name x)). lia.
Qed.

(** The first aircraft of the order of [metricLeader] is ranked before
    every aircraft of the list. *)
Lemma leader_head (aircraftList : list Aircraft.t) :
  aircraftList <> [] -> List.Forall finiteNorm aircraftList ->
  exists leader,
    metricLeader localeCompare aircraftList (Some metric) metricStats
    = Some leader
    /\ In leader aircraftList
    /\ forall b, In b aircraftList ->
                 rankedBefore localeCompare (scored leader) (scored b).
Proof.
  intros Hne Hfin.
  destruct (sort_head (leaderCompare localeCompare metric metricStats) finiteNorm)
    with (l := aircraftList) as (best & rest & Es & Hbest & Hall).
  - intros x y Hx Hy Hswap. apply leaderCompare_keeps; [assumption..|].
    apply (rankedBefore_total localeCompare consistent); [assumption..|].
    intros Hr. apply leaderCompare_keeps in Hr; [|assumption..].
    unfold keeps in Hr. congruence.
  - intros x y z Hx Hy Hz Hxy Hyz.
    apply leaderCompare_keeps; [assumption..|].
    apply (rankedBefore_trans localeCompare consistent (scored x) (scored y)
             (scored z)); [assumption..| |];
      apply leaderCompare_keeps; assumption.
  - exact Hne.
  - exact Hfin.
  - exists best. unfold metricLeader. rewrite Es.
    destruct aircraftList as [|a l]; [congruence|]. cbn [length Nat.eqb head].
    split; [reflexivity|]. split; [exact Hbest|].
    rewrite List.Forall_forall in Hfin.
    intros b Hb. destruct (Hall b Hb) as [-> | Hkeeps].
    + apply rankedBefore_refl, Hfin, Hbest.
    + apply leaderCompare_keeps; [apply Hfin, Hbest | apply Hfin, Hb | exact Hkeeps].
Qed.

End LeaderFacts.

(** Among the aircraft a table was built from, the normalized values of a
    configured metric are ordered as the values are, in the direction the
    metric rewards. *)
Lemma member_normalized_order (aircraftData : list Aircraft.t) (m : Metric.t)
    (x y : Aircraft.t) :
  In m ANALYZE_METRICS -> In x aircraftData -> In y aircraftData ->
  exists qx qy rx ry,
    valueOrZero (Aircraft.get x (Metric.key m)) = Fin qx
    /\ valueOrZero (Aircraft.get y (Metric.key m)) = Fin qy
    /\ normalizedMetric x m (buildMetricStats aircraftData) = Fin rx
    /\ normalizedMetric y m (buildMetricStats aircraftData) = Fin ry
    /\ (ry <= rx -> if Metric.higherBetter m then qy <= qx else qx <= qy)
    /\ (qx == qy -> rx == ry).
Proof.
  intros Hm Hx Hy.
  assert (Hne : aircraftData <> []) by (intros ->; destruct Hx).
  destruct (metricStatsEntry_members aircraftData m Hne)
    as (mn & mx & sp & Hmin & Hmax & Hspan & Hmm & Hsp1 & Hsple & Hcases & Hall).
  destruct (Hall x Hx) as (qx & Hqx & Hxrange).
  destruct (Hall y Hy) as (qy & Hqy & Hyrange).
  pose proof (buildMetricStats_lookup aircraftData m Hm) as Hlookup.
  destruct (normalizedMetric_value x m (buildMetricStats aircraftData)
              (metricStatsEntry aircraftData m) mn sp Hlookup Hmin Hspan)
    as (qx' & rx & Hqx' & Hrx & Hrx01 & Htiex & Hvalx); [lra|].
  destruct (normalizedMetric_value y m (buildMetricStats aircraftData)
              (metricStatsEntry aircraftData m) mn sp Hlookup Hmin Hspan)
    as (qy' & ry & Hqy' & Hry & Hry01 & Htiey & Hvaly); [lra|].
  assert (qx' = qx) by congruence. assert (qy' = qy) by congruence. subst qx' qy'.
  exists qx, qy, rx, ry. repeat split; try assumption.
  - intros Hle. rewrite Hmax, Hmin in Hvalx, Hvaly.
    destruct (Num.strict_eq (Fin mx) (Fin mn)) eqn:Etie.
    + apply strict_eq_Fin in Etie. destruct (Metric.higherBetter m); lra.
    + specialize (Hvalx eq_refl). specialize (Hvaly eq_refl).
      cbv zeta in Hvalx, Hvaly.
      destruct Hvalx as (_ & Hx01 & _). destruct Hvaly as (_ & Hy01 & _).
      assert (Hk : 0 < / sp) by (apply Qinv_lt_0_compat; lra).
      assert (Hbx : 0 <= (qx - mn) / sp <= 1).
      { split; [unfold Qdiv; apply Qmult_le_0_compat; lra
               | apply Qle_shift_div_r; lra]. }
      assert (Hby : 0 <= (qy - mn) / sp <= 1).
      { split; [unfold Qdiv; apply Qmult_le_0_compat; lra
               | apply Qle_shift_div_r; lra]. }
      destruct (Metric.higherBetter m).
      * rewrite Hx01, Hy01 in Hle by lra. unfold Qdiv in Hle.
        apply Qmult_le_r in Hle; lra.
      * rewrite Hx01, Hy01 in Hle by lra. unfold Qdiv in Hle.
        assert (Hle' : (qx - mn) * / sp <= (qy - mn) * / sp) by lra.
        apply Qmult_le_r in Hle'; lra.
  - intros Heq. rewrite Hmax, Hmin in Htiex, Htiey, Hvalx, Hvaly.
    destruct (Num.strict_eq (Fin mx) (Fin mn)) eqn:Etie.
    + specialize (Htiex eq_refl). specialize (Htiey eq_refl).
      rewrite Hrx in Htiex. rewrite Hry in Htiey.
      injection Htiex as ->. injection Htiey as ->. reflexivity.
    + specialize (Hvalx eq_refl). specialize (Hvaly eq_refl).
      cbv zeta in Hvalx, Hvaly.
      destruct Hvalx as (_ & Hx01 & _). destruct Hvaly as (_ & Hy01 & _).
      assert (Hbx : 0 <= (qx - mn) / sp <= 1).
      { split; [unfold Qdiv; apply Qmult_le_0_compat;
                [lra | apply Qlt_le_weak, Qinv_lt_0_compat; lra]
               | apply Qle_shift_div_r; lra]. }
      assert (Hby : 0 <= (qy - mn) / sp <= 1).
      { split; [unfold Qdiv; apply Qmult_le_0_compat;
                [lra | apply Qlt_le_weak, Qinv_lt_0_compat; lra]
               | apply Qle_shift_div_r; lra]. }
      assert (Hsame : (qx - mn) / sp == (qy - mn) / sp)
        by (rewrite Heq; reflexivity).
      destruct (Metric.higherBetter m).
      * rewrite Hx01, Hy01 by lra. exact Hsame.
      * rewrite Hx01, Hy01 by lra. rewrite Hsame. reflexivity.
Qed.

Section LeaderExtreme.

Variable localeCompare : string -> string -> Z.
Hypothesis consistent : consistentCompare localeCompare.


End LeaderExtreme.


(** ** The order of a deep-dive card *)


Local Close Scope Q_scope.

(** ** The selection and the lock of the cards *)

(** X8: the lock of a card and [toggleCompare] agree.  The button
    of a card is locked ([compareIds.length >= ANALYZE_LIMIT &&
    !inCompare]) exactly for the identifiers on which [toggleCompare]
    leaves the selection as it is. *)
Theorem toggleCompare_locked (id : string) (current : list string) :
  toggleCompare id current = current <-> compareLocked current id = true.
Proof.
  unfold toggleCompare, compareLocked.
  destruct (includes current id) eqn:E; cbn [negb].
  - rewrite andb_false_r. split; [|discriminate].
    intros H. exfalso. apply includes_In in E. rewrite <- H in E.
    apply filter_In in E. destruct E as [_ E].
    rewrite String.eqb_refl in E. discriminate E.
  - rewrite andb_true_r.
    destruct (Nat.leb ANALYZE_LIMIT (length current)); [tauto|].
    split; [|discriminate].
    intros H. exfalso. apply (f_equal (@length string)) in H.
    rewrite length_app in H. cbn [length] in H. lia.
Qed.

Lemma toggleCompare_add (id : string) (current : list string) :
  ~ In id current -> length current < ANALYZE_LIMIT ->
  toggleCompare id current = current ++ [id].
Proof.
  intros Hout Hlen. unfold toggleCompare.
  apply includes_not_In in Hout. rewrite Hout.
  destruct (Nat.leb ANALYZE_LIMIT (length current)) eqn:E; [|reflexivity].
  apply Nat.leb_le in E. lia.
Qed.

Lemma toggleCompare_remove (id : string) (current : list string) :
  In id current ->
  toggleCompare id current
  = List.filter (fun item => negb (String.eqb item id)) current.
Proof.
  intros Hin. unfold toggleCompare.
  apply includes_In in Hin. rewrite Hin. reflexivity.
Qed.

Lemma filter_id_absent (id : string) (current : list string) :
  ~ In id (List.filter (fun item => negb (String.eqb item id)) current).
Proof.
  intros H. apply filter_In in H. destruct H as [_ H].
  rewrite String.eqb_refl in H. discriminate H.
Qed.

(** X9: toggling the same identifier twice.  Adding an identifier
    and toggling it again gives the selection back; removing a selected
    identifier and toggling it again moves it to the end of the
    selection, which holds the same identifiers as before. *)
Theorem toggleCompare_twice (id : string) (current : list string) :
  (~ In id current -> length current < ANALYZE_LIMIT ->
   toggleCompare id (toggleCompare id current) = current)
  /\ (In id current -> List.NoDup current -> length current <= ANALYZE_LIMIT ->
      toggleCompare id (toggleCompare id current)
      = List.filter (fun item => negb (String.eqb item id)) current ++ [id]
      /\ Permutation current (toggleCompare id (toggleCompare id current))).
Proof.
  split.
  - intros Hout Hlen. rewrite (toggleCompare_add id current Hout Hlen).
    rewrite toggleCompare_remove by (apply in_or_app; right; left; reflexivity).
    rewrite List.filter_app, (filter_other_id id current Hout).
    cbn [List.filter]. rewrite String.eqb_refl. cbn [negb]. apply app_nil_r.
  - intros Hin Hnd Hlen. rewrite (toggleCompare_remove id current Hin).
    destruct (filter_removes_id id current Hnd Hin)
      as (before & after & Hsplit & Hfilter).
    assert (Hadd : toggleCompare id
                     (List.filter (fun item => negb (String.eqb item id)) current)
                   = List.filter (fun item => negb (String.eqb item id)) current
                     ++ [id]).
    { apply toggleCompare_add; [apply filter_id_absent|].
      rewrite Hfilter. rewrite Hsplit in Hlen.
      rewrite length_app in Hlen |- *. cbn [length] in Hlen. lia. }
    split; [exact Hadd|]. rewrite Hadd, Hfilter, Hsplit.
    rewrite <- app_assoc. apply Permutation_app_head.
    change (id :: after) with ([id] ++ after). apply Permutation_app_comm.
Qed.

Lemma toggleCompare_twice_witness :
  toggleCompare "j20" (toggleCompare "j20" ["f22"; "su57"]%string)
  = ["f22"; "su57"]%string
  /\ toggleCompare "f22" (toggleCompare "f22" ["f22"; "su57"]%string)
     = ["su57"; "f22"]%string.
Proof.
  destruct (toggleCompare_twice "j20" ["f22"; "su57"]%string) as [Hadd _].
  destruct (toggleCompare_twice "f22" ["f22"; "su57"]%string) as [_ Hremove].
  split.
  - apply Hadd.
    + intros [H | [H | []]]; discriminate H.
    + unfold ANALYZE_LIMIT. cbn [length]. lia.
  - destruct Hremove as [Hmoved _].
    + left. reflexivity.
    + repeat constructor; cbn [In]; intros H; intuition discriminate.
    + unfold ANALYZE_LIMIT. cbn [length]. lia.
    + exact Hmoved.
Defined.

(** ** Tables by identifier *)

Section MapBy.
Context {A : Type} (key : A -> string).

Let step (table : gmap string A) (item : A) : gmap string A :=
  <[key item := item]> table.

Lemma mapBy_fold_other (items : list A) (table : gmap string A) (k : string) :
  ~ In k (map key items) -> fold_left step items table !! k = table !! k.
Proof.
  revert table. induction items as [|x items IH]; intros table Hk.
  - reflexivity.
  - cbn [fold_left map In] in *. rewrite IH by tauto. unfold step.
    apply lookup_insert_ne. intros E. apply Hk. left. exact E.
Qed.

Lemma mapBy_fold_Some (items : list A) (table : gmap string A) (k : string)
    (a : A) :
  fold_left step items table !! k = Some a ->
  (In a items /\ key a = k) \/ table !! k = Some a.
Proof.
  revert table. induction items as [|x items IH]; intros table Hk.
  - right. exact Hk.
  - cbn [fold_left] in Hk. destruct (IH _ Hk) as [[Hin E] | Hstep].
    + left. split; [right; exact Hin | exact E].
    + unfold step in Hstep. destruct (decide (key x = k)) as [E | E].
      * rewrite E, lookup_insert_eq in Hstep. injection Hstep as ->.
        left. split; [left; reflexivity | exact E].
      * rewrite lookup_insert_ne in Hstep by exact E. right. exact Hstep.
Qed.

Lemma mapBy_Some (items : list A) (k : string) (a : A) :
  mapBy key items !! k = Some a -> In a items /\ key a = k.
Proof.
  intros H. destruct (mapBy_fold_Some items ∅ k a H) as [Hin | Hempty];
    [exact Hin|].
  rewrite lookup_empty in Hempty. discriminate Hempty.
Qed.

Lemma mapBy_last (before after : list A) (a : A) :
  ~ In (key a) (map key after) ->
  mapBy key (before ++ a :: after) !! key a = Some a.
Proof.
  intros Hout. unfold mapBy. rewrite fold_left_app. cbn [fold_left].
  rewrite (mapBy_fold_other after _ (key a) Hout).
  apply lookup_insert_eq.
Qed.

Lemma mapBy_None (items : list A) (k : string) :
  mapBy key items !! k = None <-> ~ In k (map key items).
Proof.
  split.
  - intros Hnone Hin. apply in_map_iff in Hin. destruct Hin as (a & <- & Ha).
    revert Hnone. induction items as [|x items IH] using rev_ind.
    + destruct Ha.
    + apply in_app_or in Ha. destruct (decide (key x = key a)) as [E | E].
      * rewrite <- E.
        rewrite (mapBy_last items [] x) by (intros []). discriminate.
      * destruct Ha as [Ha | [-> | []]]; [|congruence].
        unfold mapBy. rewrite fold_left_app. cbn [fold_left].
        rewrite lookup_insert_ne by exact E. apply IH, Ha.
  - intros Hout. unfold mapBy.
    rewrite (mapBy_fold_other items ∅ k Hout). apply lookup_empty.
Qed.

Lemma mapBy_NoDup (items : list A) (a : A) :
  List.NoDup (map key items) -> In a items -> mapBy key items !! key a = Some a.
Proof.
  intros Hnd Ha. apply in_split in Ha. destruct Ha as (before & after & ->).
  apply mapBy_last. rewrite map_app in Hnd. cbn [map] in Hnd.
  apply List.NoDup_remove_2 in Hnd. intros Hin. apply Hnd.
  apply in_or_app. right. exact Hin.
Qed.

End MapBy.

(** X10: the table by identifier.  A lookup in [aircraftById] returns
    an aircraft of the data that carries the identifier asked for, and
    nothing exactly when no aircraft of the data carries it; of several
    aircraft with one identifier the last one of the data is returned, so
    that, when the identifiers are distinct, every aircraft of the data is
    found under its identifier. *)
Theorem aircraftById_lookup (aircraftData : list Aircraft.t) (id : string) :
  (forall a, aircraftById aircraftData !! id = Some a ->
             In a aircraftData /\ Aircraft.id a = id)
  /\ (aircraftById aircraftData !! id = None
      <-> ~ In id (map Aircraft.id aircraftData))
  /\ (forall before a after,
         aircraftData = before ++ a :: after -> Aircraft.id a = id ->
         ~ In id (map Aircraft.id after) ->
         aircraftById aircraftData !! id = Some a)
  /\ (List.NoDup (map Aircraft.id aircraftData) ->
      forall a, In a aircraftData -> Aircraft.id a = id ->
                aircraftById aircraftData !! id = Some a).
Proof.
  unfold aircraftById. split; [intros a; apply mapBy_Some|].
  split; [apply mapBy_None|]. split.
  - intros before a after -> <- Hout. apply mapBy_last, Hout.
  - intros Hnd a Ha <-. apply mapBy_NoDup; assumption.
Qed.

(** ** The compared aircraft *)

Lemma compareAircraft_cons (byId : gmap string Aircraft.t) (id : string)
    (ids : list string) :
  compareAircraft byId (id :: ids)
  = match byId !! id with
    | Some a => a :: compareAircraft byId ids
    | None => compareAircraft byId ids
    end.
Proof.
  unfold compareAircraft. cbn [map omap list_omap].
  destruct (byId !! id); reflexivity.
Qed.

Lemma compareAircraft_app (byId : gmap string Aircraft.t) (ids ids' : list string) :
  compareAircraft byId (ids ++ ids')
  = compareAircraft byId ids ++ compareAircraft byId ids'.
Proof.
  induction ids as [|id ids IH]; [reflexivity|].
  rewrite <- app_comm_cons, !compareAircraft_cons, IH.
  destruct (byId !! id); reflexivity.
Qed.

Lemma compareAircraft_ids (aircraftData : list Aircraft.t) (ids : list string) :
  map Aircraft.id (compareAircraft (aircraftById aircraftData) ids)
  = List.filter (includes (map Aircraft.id aircraftData)) ids.
Proof.
  induction ids as [|id ids IH]; [reflexivity|].
  rewrite compareAircraft_cons. cbn [List.filter].
  destruct (aircraftById aircraftData !! id) as [a|] eqn:E.
  - apply mapBy_Some in E. destruct E as [Ha Eid].
    assert (Hin : includes (map Aircraft.id aircraftData) id = true).
    { apply includes_In. rewrite <- Eid. apply in_map, Ha. }
    rewrite Hin. cbn [map]. rewrite IH, Eid. reflexivity.
  - apply mapBy_None in E. apply includes_not_In in E. rewrite E. exact IH.
Qed.

Lemma compareReachable_invariant (current : list string) :
  compareReachable current ->
  List.NoDup current /\ length current <= ANALYZE_LIMIT.
Proof.
  induction 1 as [|id current _ IH|current _ _].
  - split; [constructor | cbn [length]; lia].
  - apply toggleCompare_invariant, IH.
  - unfold clearCompare. split; [constructor | cbn [length]; lia].
Qed.

Lemma filter_length_le {A : Type} (f : A -> bool) (l : list A) :
  length (List.filter f l) <= length l.
Proof.
  induction l as [|x l IH]; [reflexivity|].
  cbn [List.filter]. destruct (f x); cbn [length]; lia.
Qed.

(** X11: the compared aircraft follow the selection.  The compared
    aircraft are aircraft of the data, in the order of the selection, one
    for each selected identifier that the data knows; an identifier the
    data does not know is dropped without a trace.  For a selection made
    with [toggleCompare] and [clearCompare] no aircraft appears twice and
    the cards of the dock, filled and awaiting, are always
    [ANALYZE_LIMIT]. *)
Theorem compareAircraft_selection (aircraftData : list Aircraft.t)
    (compareIds : list string) :
  let compared := compareAircraft (aircraftById aircraftData) compareIds in
  map Aircraft.id compared
  = List.filter (includes (map Aircraft.id aircraftData)) compareIds
  /\ List.Forall (fun a => In a aircraftData) compared
  /\ length compared <= length compareIds
  /\ (compareReachable compareIds ->
      List.NoDup (map Aircraft.id compared)
      /\ length compared + emptySlots compared = ANALYZE_LIMIT).
Proof.
  cbv zeta.
  pose proof (compareAircraft_ids aircraftData compareIds) as Hids.
  assert (Hlen : length (compareAircraft (aircraftById aircraftData) compareIds)
                 <= length compareIds).
  { rewrite <- (length_map Aircraft.id), Hids. apply filter_length_le. }
  split; [exact Hids|]. split; [|split; [exact Hlen|]].
  - apply List.Forall_forall. intros a Ha. unfold compareAircraft in Ha.
    apply list_elem_of_In, list_elem_of_omap in Ha.
    destruct Ha as (found & Hfound & Efound). subst found.
    apply list_elem_of_In, in_map_iff in Hfound.
    destruct Hfound as (id & Hid & _).
    apply mapBy_Some in Hid. apply Hid.
  - intros Hreach.
    destruct (compareReachable_invariant compareIds Hreach) as [Hnd Hlimit].
    split.
    + rewrite Hids. apply List.NoDup_filter, Hnd.
    + unfold emptySlots. lia.
Qed.

(** X12: toggling the selection adds or removes one
    compared aircraft.  Removing a selected identifier removes the
    aircraft that carry it and keeps the others in place; adding an
    identifier puts the aircraft the data holds for it, if any, last. *)
Theorem compareAircraft_toggle (aircraftData : list Aircraft.t)
    (id : string) (compareIds : list string) :
  let byId := aircraftById aircraftData in
  (In id compareIds ->
   compareAircraft byId (toggleCompare id compareIds)
   = List.filter (fun a => negb (String.eqb (Aircraft.id a) id))
       (compareAircraft byId compareIds))
  /\ (~ In id compareIds -> length compareIds < ANALYZE_LIMIT ->
      compareAircraft byId (toggleCompare id compareIds)
      = compareAircraft byId compareIds
        ++ match byId !! id with Some a => [a] | None => [] end)
  /\ compareAircraft byId (clearCompare compareIds) = [].
Proof.
  cbv zeta. split; [|split; [|reflexivity]].
  - intros Hin. rewrite (toggleCompare_remove id compareIds Hin). clear Hin.
    induction compareIds as [|x ids IH]; [reflexivity|].
    cbn [List.filter]. rewrite compareAircraft_cons.
    destruct (String.eqb x id) eqn:E; cbn [negb].
    + apply String.eqb_eq in E. subst x.
      destruct (aircraftById aircraftData !! id) as [a|] eqn:Ea; [|exact IH].
      apply mapBy_Some in Ea. destruct Ea as [_ Ea].
      cbn [List.filter]. rewrite Ea, String.eqb_refl. cbn [negb]. exact IH.
    + rewrite compareAircraft_cons.
      destruct (aircraftById aircraftData !! x) as [a|] eqn:Ea; [|exact IH].
      apply mapBy_Some in Ea. destruct Ea as [_ Ea].
      cbn [List.filter]. rewrite Ea, E. cbn [negb]. rewrite IH. reflexivity.
  - intros Hout Hlen. rewrite (toggleCompare_add id compareIds Hout Hlen).
    rewrite compareAircraft_app, compareAircraft_cons.
    destruct (aircraftById aircraftData !! id); reflexivity.
Qed.

Lemma compareAircraft_toggle_witness :
  let byId := aircraftById Fleet.all in
  compareAircraft byId (toggleCompare "alpha" ["alpha"; "bravo"]%string)
  = [Sample.bravo]
  /\ compareAircraft byId (toggleCompare "mike" ["alpha"; "bravo"]%string)
     = [Sample.alpha; Sample.bravo; Sample.mike]
  /\ compareAircraft byId (toggleCompare "ghost" ["alpha"; "bravo"]%string)
     = [Sample.alpha; Sample.bravo].
Proof.
  cbv zeta.
  destruct (compareAircraft_toggle Fleet.all "alpha" ["alpha"; "bravo"]%string)
    as (Hremove & _ & _).
  destruct (compareAircraft_toggle Fleet.all "mike" ["alpha"; "bravo"]%string)
    as (_ & Hadd & _).
  destruct (compareAircraft_toggle Fleet.all "ghost" ["alpha"; "bravo"]%string)
    as (_ & Hunknown & _).
  split; [|split].
  - rewrite Hremove by (left; reflexivity). vm_compute. reflexivity.
  - rewrite Hadd.
    + vm_compute. reflexivity.
    + intros [H | [H | []]]; discriminate H.
    + unfold ANALYZE_LIMIT. cbn [length]. lia.
  - rewrite Hunknown.
    + vm_compute. reflexivity.
    + intros [H | [H | []]]; discriminate H.
    + unfold ANALYZE_LIMIT. cbn [length]. lia.
Defined.

(** ** The model of an aircraft *)

Lemma mapHas_true {A : Type} (table : gmap string A) (key : value) :
  mapHas table key = true
  <-> exists s x, key = VString s /\ table !! s = Some x.
Proof.
  unfold mapHas, mapGet. split.
  - destruct key as [| | |n|s]; try discriminate.
    destruct (table !! s) as [x|] eqn:E; [|discriminate].
    intros _. exists s, x. split; [reflexivity | exact E].
  - intros (s & x & -> & ->). reflexivity.
Qed.

Lemma truthy_string (s : string) :
  truthy (VString s) = true <-> s <> EmptyString.
Proof.
  cbn [truthy]. unfold Str.truthy. rewrite negb_true_iff. split.
  - intros E ->. discriminate E.
  - intros Hne. apply String.eqb_neq, Hne.
Qed.

(** X13: the model of an aircraft comes from the manifest.
    [resolveModel] returns [null] for no aircraft.  An entry it returns is
    an entry of the manifest that either carries the [modelId] of the
    aircraft as its identifier or names the aircraft in [aircraftId]; a
    non-empty [modelId] that the manifest knows wins over the match by
    aircraft; and the result is [null] exactly when neither match exists. *)
Theorem resolveModel_manifest (modelsManifest : list Manifest.item)
    (aircraft : Aircraft.t) :
  resolveModel modelsManifest None = None
  /\ (forall entry,
         resolveModel modelsManifest (Some aircraft) = Some entry ->
         In entry modelsManifest
         /\ (Aircraft.get aircraft "modelId" = VString (Manifest.id entry)
             \/ Manifest.aircraftId entry = Aircraft.id aircraft))
  /\ (forall s,
         Aircraft.get aircraft "modelId" = VString s -> s <> EmptyString ->
         In s (map Manifest.id modelsManifest) ->
         exists entry,
           resolveModel modelsManifest (Some aircraft) = Some entry
           /\ Manifest.id entry = s)
  /\ (resolveModel modelsManifest (Some aircraft) = None
      <-> (forall s, Aircraft.get aircraft "modelId" = VString s ->
                     s = EmptyString
                     \/ ~ In s (map Manifest.id modelsManifest))
          /\ ~ In (Aircraft.id aircraft)
                  (map Manifest.aircraftId modelsManifest)).
Proof.
  split; [reflexivity|]. unfold resolveModel. cbv zeta.
  set (modelId := Aircraft.get aircraft "modelId").
  split; [|split].
  - intros entry.
    destruct (truthy modelId && mapHas (modelsById modelsManifest) modelId) eqn:E.
    + apply andb_true_iff in E. destruct E as [_ E].
      apply mapHas_true in E. destruct E as (s & x & -> & Hx).
      cbn [mapGet]. intros Hentry. apply mapBy_Some in Hentry.
      destruct Hentry as [Hin <-]. split; [exact Hin | left; reflexivity].
    + intros Hentry. apply mapBy_Some in Hentry.
      destruct Hentry as [Hin Eid]. split; [exact Hin | right; exact Eid].
  - intros s -> Hne Hin.
    rewrite (proj2 (truthy_string s) Hne). cbn [andb].
    destruct (modelsById modelsManifest !! s) as [x|] eqn:E.
    + rewrite (proj2 (mapHas_true _ (VString s))) by (exists s, x; auto).
      cbn [mapGet]. exists x. split; [exact E|].
      apply mapBy_Some in E. apply E.
    + apply mapBy_None in E. contradiction.
  - split.
    + destruct (truthy modelId && mapHas (modelsById modelsManifest) modelId) eqn:E.
      * apply andb_true_iff in E. destruct E as [_ E].
        apply mapHas_true in E. destruct E as (s & x & -> & Hx).
        cbn [mapGet]. rewrite Hx. discriminate.
      * intros Hnone. apply mapBy_None in Hnone. split; [|exact Hnone].
        intros s Hs. rewrite Hs in E.
        destruct (string_dec s EmptyString) as [-> | Hne]; [left; reflexivity|].
        right. intros Hin.
        rewrite (proj2 (truthy_string s) Hne) in E. cbn [andb] in E.
        destruct (modelsById modelsManifest !! s) as [x|] eqn:Ex.
        -- rewrite (proj2 (mapHas_true _ (VString s))) in E
             by (exists s, x; auto). discriminate E.
        -- apply mapBy_None in Ex. contradiction.
    + intros [Hid Hout].
      destruct (truthy modelId && mapHas (modelsById modelsManifest) modelId) eqn:E.
      * exfalso. apply andb_true_iff in E. destruct E as [Ht E].
        apply mapHas_true in E. destruct E as (s & x & Hs & Hx).
        rewrite Hs in Ht. apply truthy_string in Ht.
        destruct (Hid s Hs) as [-> | Hnot]; [congruence|].
        apply Hnot. apply mapBy_Some in Hx. destruct Hx as [Hin <-].
        apply in_map, Hin.
      * apply mapBy_None, Hout.
Qed.

(** ** What the viewer shows *)

Lemma probe_find (w : Viewer.world) (primary : value) (candidates : list string)
    (st : Viewer.state) (requests : list string) :
  staysActive w candidates ->
  (Viewer.probe w primary candidates true st requests).1
  = match find (available w) candidates with
    | Some c => Viewer.State Viewer.ready (VString c)
    | None => Viewer.State Viewer.missing primary
    end.
Proof.
  revert requests. induction candidates as [|c rest IH]; intros requests Hactive.
  - reflexivity.
  - inversion Hactive as [|? ? Hc Hrest]; subst.
    cbn [Viewer.probe find]. rewrite Hc. cbn [negb]. unfold available at 1.
    destruct (Viewer.fetch w c) as [status|].
    + destruct (Viewer.ok status || (status =? 405)%Z); [reflexivity|].
      apply IH, Hrest.
    + apply IH, Hrest.
Qed.

Lemma modelPathCandidates_nonempty (path : value) (c : string) :
  In c (modelPathCandidates path) -> c <> EmptyString.
Proof.
  destruct path as [| | |n|p]; try (intros []).
  destruct (string_dec p EmptyString) as [-> | Hne]; [intros []|].
  destruct (String.prefix "/models/verified/" p) eqn:E.
  - apply prefix_split in E. destruct E as [rest ->].
    rewrite modelPathCandidates_verified.
    intros [<- | [<- | []]]; discriminate.
  - rewrite (modelPathCandidates_other p Hne E).
    intros [<- | []]. exact Hne.
Qed.

(** X14: what a mounted viewer shows once the probe is done.
    For a model with a path, when the effect stays active while the
    candidates answer, the viewer shows the canvas on the first candidate
    that is available (status 200-299 or 405), and the fallback message
    when no candidate is. *)
Theorem render_after_probe (w : Viewer.world) (path : value) :
  truthy path = true ->
  staysActive w (modelPathCandidates path) ->
  render (Some (Viewer.Model path)) (mounted w (Some (Viewer.Model path)))
  = match find (available w) (modelPathCandidates path) with
    | Some c => Screen.Canvas (VString c)
    | None => Screen.Fallback
    end.
Proof.
  intros Hpath Hactive. unfold mounted, Viewer.verify.
  cbn [Viewer.pathOf Viewer.path]. rewrite Hpath. cbn [negb].
  rewrite (probe_find w path (modelPathCandidates path) _ [] Hactive).
  destruct (find (available w) (modelPathCandidates path)) as [c|] eqn:E.
  - apply find_some in E. destruct E as [Hc _].
    apply modelPathCandidates_nonempty, truthy_string in Hc.
    unfold render. cbn [Viewer.avail Viewer.resolvedPath isAvailability].
    rewrite Hc. reflexivity.
  - unfold render. cbn [Viewer.avail Viewer.resolvedPath isAvailability].
    rewrite Hpath. reflexivity.
Qed.

Lemma render_after_probe_witness :
  render (Some Sample.f22) (mounted Sample.onlyUnverified (Some Sample.f22))
  = Screen.Canvas (VString "/models/unverified/f22.glb")
  /\ render (Some Sample.f22) (mounted Sample.offline (Some Sample.f22))
     = Screen.Fallback.
Proof.
  unfold Sample.f22. split.
  - rewrite (render_after_probe Sample.onlyUnverified
               (VString "/models/verified/f22.glb")).
    + reflexivity.
    + reflexivity.
    + repeat constructor.
  - rewrite (render_after_probe Sample.offline
               (VString "/models/verified/f22.glb")).
    + reflexivity.
    + reflexivity.
    + repeat constructor.
Defined.

(** X15: a model without a path never reaches the fallback
    message.  When the model has no path (or an empty one), [verify]
    issues no request and sets the state to [missing] with a [null]
    path, and the viewer shows the panel [VERIFYING_MODEL_PATH], before
    the probe as after it, because the test [!resolvedPath] comes before
    the test for [missing]; only the absence of a model shows the
    fallback message. *)
Theorem render_without_path (w : Viewer.world) (model : Viewer.model)
    (st : Viewer.state) :
  truthy (Viewer.path model) = false ->
  Viewer.verify w (Some model) st = (Viewer.State Viewer.missing VNull, [])
  /\ render (Some model) (Viewer.initial (Some model)) = Screen.Verifying
  /\ render (Some model) (mounted w (Some model)) = Screen.Verifying
  /\ render None (mounted w None) = Screen.Fallback.
Proof.
  intros Hpath.
  assert (Hverify : forall st', Viewer.verify w (Some model) st'
                                = (Viewer.State Viewer.missing VNull, [])).
  { intros st'. unfold Viewer.verify. cbn [Viewer.pathOf]. rewrite Hpath.
    reflexivity. }
  split; [apply Hverify|]. split; [|split].
  - unfold render, Viewer.initial. cbn [Viewer.avail isAvailability]. reflexivity.
  - unfold mounted. rewrite Hverify. reflexivity.
  - reflexivity.
Qed.

Lemma render_without_path_witness :
  render (Some (Viewer.Model VUndefined))
    (mounted Sample.offline (Some (Viewer.Model VUndefined)))
  = Screen.Verifying.
Proof.
  apply (render_without_path Sample.offline (Viewer.Model VUndefined)
           (Viewer.initial None)).
  reflexivity.
Defined.

(** ** The requests of the probe *)

Lemma modelPathCandidates_shape (path : value) :
  List.NoDup (modelPathCandidates path)
  /\ length (modelPathCandidates path) <= 2.
Proof.
  destruct path as [| | |n|p]; try (split; [constructor | cbn; lia]).
  destruct (string_dec p EmptyString) as [-> | Hne];
    [split; [constructor | cbn; lia]|].
  destruct (String.prefix "/models/verified/" p) eqn:E.
  - apply prefix_split in E. destruct E as [rest ->].
    rewrite modelPathCandidates_verified. split; [|cbn [length]; lia].
    constructor; [|repeat constructor; intros []].
    intros [H | []]. cbv [String.append] in H. discriminate H.
  - rewrite (modelPathCandidates_other p Hne E).
    split; [repeat constructor; intros [] | cbn [length]; lia].
Qed.

Lemma probe_trace (w : Viewer.world) (primary : value)
    (candidates : list string) (active : bool) (st : Viewer.state)
    (requests : list string) :
  Viewer.avail st <> Viewer.ready ->
  exists probed rest,
    (Viewer.probe w primary candidates active st requests).2 = requests ++ probed
    /\ candidates = probed ++ rest
    /\ (Viewer.avail (Viewer.probe w primary candidates active st requests).1
        = Viewer.ready ->
        exists before c,
          probed = before ++ [c]
          /\ Viewer.resolvedPath
               (Viewer.probe w primary candidates active st requests).1
             = VString c
          /\ available w c = true).
Proof.
  intros Hst. revert active requests.
  induction candidates as [|c candidates IH]; intros active requests.
  - exists [], []. cbn [Viewer.probe].
    destruct (negb active); cbn [fst snd Viewer.avail];
      (split; [symmetry; apply app_nil_r|]); (split; [reflexivity|]);
      intros H; [contradiction | discriminate H].
  - cbn [Viewer.probe].
    assert (Hstop : exists probed rest,
              requests ++ [c] = requests ++ probed
              /\ c :: candidates = probed ++ rest
              /\ (Viewer.avail st = Viewer.ready ->
                  exists before c',
                    probed = before ++ [c']
                    /\ Viewer.resolvedPath st = VString c'
                    /\ available w c' = true)).
    { exists [c], candidates. split; [reflexivity|]. split; [reflexivity|].
      intros H. contradiction. }
    assert (Hnext : exists probed rest,
              (Viewer.probe w primary candidates (Viewer.activeAfter w c) st
                 (requests ++ [c])).2 = requests ++ probed
              /\ c :: candidates = probed ++ rest
              /\ (Viewer.avail
                    (Viewer.probe w primary candidates (Viewer.activeAfter w c)
                       st (requests ++ [c])).1 = Viewer.ready ->
                  exists before c',
                    probed = before ++ [c']
                    /\ Viewer.resolvedPath
                         (Viewer.probe w primary candidates
                            (Viewer.activeAfter w c) st (requests ++ [c])).1
                       = VString c'
                    /\ available w c' = true)).
    { destruct (IH (Viewer.activeAfter w c) (requests ++ [c]))
        as (probed & rest & Hreq & Hcand & Hready).
      exists (c :: probed), rest.
      split; [rewrite Hreq, <- app_assoc; reflexivity|].
      split; [rewrite Hcand; reflexivity|].
      intros H. destruct (Hready H) as (before & c' & -> & Hpath & Havail).
      exists (c :: before), c'. split; [reflexivity|]. split; assumption. }
    destruct (Viewer.fetch w c) as [status|] eqn:Efetch.
    + destruct (negb (Viewer.activeAfter w c)); [exact Hstop|].
      destruct (Viewer.ok status || (status =? 405)%Z) eqn:Eok; [|exact Hnext].
      exists [c], candidates. cbn [fst snd Viewer.avail Viewer.resolvedPath].
      split; [reflexivity|]. split; [reflexivity|].
      intros _. exists [], c. split; [reflexivity|]. split; [reflexivity|].
      unfold available. rewrite Efetch. exact Eok.
    + destruct (negb (Viewer.activeAfter w c)); [exact Hstop | exact Hnext].
Qed.

(** X16: what the probe requests.  Whatever the answers and
    whenever the effect is cleaned up, [verify] requests candidates only,
    in their order and without a gap, at most two and never the same path
    twice; and when it leaves the state [ready], the resolved path is the
    last path requested, and that path was available. *)
Theorem verify_requests (w : Viewer.world) (model : option Viewer.model)
    (st : Viewer.state) :
  let result := Viewer.verify w model st in
  (exists rest,
      modelPathCandidates (Viewer.pathOf model) = result.2 ++ rest)
  /\ length result.2 <= 2
  /\ List.NoDup result.2
  /\ (forall c, In c result.2 -> c <> EmptyString)
  /\ (Viewer.avail result.1 = Viewer.ready ->
      exists before c,
        result.2 = before ++ [c]
        /\ Viewer.resolvedPath result.1 = VString c
        /\ available w c = true).
Proof.
  cbv zeta. unfold Viewer.verify.
  destruct (modelPathCandidates_shape (Viewer.pathOf model)) as [Hnd Hlen].
  destruct (negb (truthy (Viewer.pathOf model))).
  - cbn [fst snd Viewer.avail]. split; [eexists; reflexivity|].
    split; [cbn [length]; lia|]. split; [constructor|].
    split; [intros c []|]. intros H. discriminate H.
  - destruct (probe_trace w (Viewer.pathOf model)
                (modelPathCandidates (Viewer.pathOf model)) true
                (Viewer.State Viewer.checking (Viewer.resolvedPath st)) [])
      as (probed & rest & Hreq & Hcand & Hready); [discriminate|].
    cbn [app] in Hreq. rewrite Hreq.
    split; [exists rest; exact Hcand|].
    rewrite Hcand in Hnd, Hlen. rewrite length_app in Hlen.
    split; [lia|]. split; [apply List.NoDup_app_remove_r in Hnd; exact Hnd|].
    split.
    + intros c Hc. apply (modelPathCandidates_nonempty (Viewer.pathOf model)).
      rewrite Hcand. apply in_or_app. left. exact Hc.
    + exact Hready.
Qed.

(** ** The materials of the model *)

Lemma store_keeps (scene : list Gltf.object3D)
    (stored : gmap string Gltf.Material) (k : string) (v : Gltf.Material) :
  stored !! k = Some v -> Gltf.storeOriginals stored scene !! k = Some v.
Proof.
  revert stored. induction scene as [|x scene IH]; intros stored Hk.
  - exact Hk.
  - unfold Gltf.storeOriginals. cbn [fold_left]. apply IH.
    destruct (Gltf.isMesh x); cbn [andb]; [|exact Hk].
    case_bool_decide as Hx; cbn [negb]; [exact Hk|].
    rewrite lookup_insert_ne; [exact Hk|].
    intros E. apply Hx. rewrite E, Hk. eauto.
Qed.

Lemma store_noop (scene : list Gltf.object3D)
    (stored : gmap string Gltf.Material) :
  (forall o, In o scene -> Gltf.isMesh o = true ->
             is_Some (stored !! Gltf.uuid o)) ->
  Gltf.storeOriginals stored scene = stored.
Proof.
  induction scene as [|x scene IH]; intros Hall; [reflexivity|].
  unfold Gltf.storeOriginals. cbn [fold_left].
  destruct (Gltf.isMesh x) eqn:Ex; cbn [andb].
  - rewrite bool_decide_eq_true_2 by (apply Hall; [left; reflexivity | exact Ex]).
    cbn [negb]. apply IH. intros o Ho. apply Hall. right. exact Ho.
  - apply IH. intros o Ho. apply Hall. right. exact Ho.
Qed.

Lemma store_lookup (scene : list Gltf.object3D)
    (stored : gmap string Gltf.Material) :
  (forall o, In o scene -> Gltf.isMesh o = true ->
             stored !! Gltf.uuid o = None) ->
  List.NoDup (map Gltf.uuid (List.filter Gltf.isMesh scene)) ->
  forall o, In o scene -> Gltf.isMesh o = true ->
            Gltf.storeOriginals stored scene !! Gltf.uuid o
            = Some (Gltf.material o).
Proof.
  revert stored. induction scene as [|x scene IH]; intros stored Hfresh Hnd o Ho Hmesh.
  - destruct Ho.
  - unfold Gltf.storeOriginals. cbn [fold_left]. cbn [List.filter] in Hnd.
    destruct (Gltf.isMesh x) eqn:Ex; cbn [andb].
    + rewrite bool_decide_eq_false_2
        by (rewrite (Hfresh x (or_introl eq_refl) Ex); intros [? H]; discriminate H).
      cbn [negb]. cbn [map] in Hnd. inversion Hnd as [|? ? Hnotin Hnd']; subst.
      destruct Ho as [-> | Ho].
      * apply store_keeps, lookup_insert_eq.
      * apply IH; [|exact Hnd' | exact Ho | exact Hmesh].
        intros o' Ho' Hmesh'. rewrite lookup_insert_ne.
        -- apply Hfresh; [right; exact Ho' | exact Hmesh'].
        -- intros E. apply Hnotin. rewrite E. apply in_map.
           apply filter_In. split; assumption.
    + destruct Ho as [-> | Ho]; [congruence|].
      apply IH; [|exact Hnd | exact Ho | exact Hmesh].
      intros o' Ho' Hmesh'. apply Hfresh; [right; exact Ho' | exact Hmesh'].
Qed.

Lemma switchObject_again (w w' : bool) (stored : gmap string Gltf.Material)
    (o : Gltf.object3D) :
  (Gltf.isMesh o = true -> is_Some (stored !! Gltf.uuid o)) ->
  Gltf.switchObject w stored (Gltf.switchObject w' stored o)
  = Gltf.switchObject w stored o.
Proof.
  intros Hstored. unfold Gltf.switchObject.
  destruct (Gltf.isMesh o) eqn:Eo; [|rewrite Eo; reflexivity].
  destruct (Hstored eq_refl) as [original Horiginal].
  destruct w'; cbn [Gltf.isMesh Gltf.uuid Gltf.material];
    destruct w; try reflexivity; rewrite Horiginal; reflexivity.
Qed.

Lemma switchObject_keeps (w : bool) (stored : gmap string Gltf.Material)
    (o : Gltf.object3D) :
  Gltf.uuid (Gltf.switchObject w stored o) = Gltf.uuid o
  /\ Gltf.isMesh (Gltf.switchObject w stored o) = Gltf.isMesh o.
Proof.
  unfold Gltf.switchObject.
  destruct (Gltf.isMesh o) eqn:Eo; [|split; [reflexivity | exact Eo]].
  destruct w; split; reflexivity.
Qed.

Section WireframeFacts.

Variable stored0 : gmap string Gltf.Material.
Variable scene0 : list Gltf.object3D.

Hypothesis fresh :
  forall o, In o scene0 -> Gltf.isMesh o = true ->
            stored0 !! Gltf.uuid o = None.
Hypothesis distinct :
  List.NoDup (map Gltf.uuid (List.filter Gltf.isMesh scene0)).

Let originals : gmap string Gltf.Material := Gltf.storeOriginals stored0 scene0.

Let shape (last : option bool) : list Gltf.object3D :=
  match last with
  | None => scene0
  | Some w => Gltf.switchMaterials w originals scene0
  end.

Lemma originals_stored (o : Gltf.object3D) :
  In o scene0 -> Gltf.isMesh o = true ->
  originals !! Gltf.uuid o = Some (Gltf.material o).
Proof. apply store_lookup; assumption. Qed.

Lemma shape_stored (last : option bool) (o : Gltf.object3D) :
  In o (shape last) -> Gltf.isMesh o = true ->
  is_Some (originals !! Gltf.uuid o).
Proof.
  destruct last as [w|]; cbn [shape].
  - unfold Gltf.switchMaterials. intros Ho Hmesh. apply in_map_iff in Ho.
    destruct Ho as (o0 & <- & Ho0).
    destruct (switchObject_keeps w originals o0) as [-> E].
    rewrite E in Hmesh. rewrite (originals_stored o0 Ho0 Hmesh). eauto.
  - intros Ho Hmesh. rewrite (originals_stored o Ho Hmesh). eauto.
Qed.

Lemma run_shape (effects : list Gltf.effect) (c : Gltf.component)
    (last : option bool) :
  Gltf.stored c = originals -> Gltf.scene c = shape last ->
  Gltf.stored (Gltf.run c effects) = originals
  /\ Gltf.scene (Gltf.run c effects)
     = shape (fold_left
                (fun last e =>
                   match e with Gltf.Switch w => Some w | Gltf.Store => last end)
                effects last).
Proof.
  revert c last. induction effects as [|e effects IH]; intros c last Hstored Hscene.
  - split; assumption.
  - unfold Gltf.run. cbn [fold_left]. apply IH.
    + destruct e as [|w]; cbn [Gltf.fire Gltf.stored]; [|exact Hstored].
      rewrite Hstored, Hscene. apply store_noop. apply shape_stored.
    + destruct e as [|w]; cbn [Gltf.fire Gltf.scene]; [exact Hscene|].
      rewrite Hstored, Hscene. cbn [shape].
      destruct last as [w'|]; cbn [shape]; [|reflexivity].
      unfold Gltf.switchMaterials. rewrite map_map. apply map_ext_in.
      intros o Ho. apply switchObject_again. intros Hmesh.
      rewrite (originals_stored o Ho Hmesh). eauto.
Qed.

(** X17: the wireframe switch loses no material.  For a scene
    whose meshes have distinct [uuid]s, none of them stored yet, after
    the first effect has run and whatever runs of the two effects
    follow: the stored map is the one the first run left, and holds the
    material each mesh came with; the scene is as it was loaded when the
    second effect has not run; every mesh carries [hackerMaterial] and
    casts no shadow when its last run was for the wireframe; and every
    mesh carries the material it came with, shadows on, when its last run
    was for the textured view.  Other objects are never touched. *)
Theorem wireframe_round_trip (effects : list Gltf.effect) :
  let c := Gltf.run (Gltf.Component stored0 scene0) (Gltf.Store :: effects) in
  Gltf.stored c = Gltf.storeOriginals stored0 scene0
  /\ (forall o, In o scene0 -> Gltf.isMesh o = true ->
                Gltf.stored c !! Gltf.uuid o = Some (Gltf.material o))
  /\ Gltf.scene c
     = match Gltf.lastSwitch effects with
       | None => scene0
       | Some true =>
           map (fun o =>
                  if Gltf.isMesh o
                  then Gltf.Object3D (Gltf.uuid o) (Gltf.isMesh o)
                         Gltf.hackerMaterial false false
                  else o) scene0
       | Some false =>
           map (fun o =>
                  if Gltf.isMesh o
                  then Gltf.Object3D (Gltf.uuid o) (Gltf.isMesh o)
                         (Gltf.material o) true true
                  else o) scene0
       end.
Proof.
  cbv zeta. unfold Gltf.run. cbn [fold_left Gltf.fire Gltf.stored Gltf.scene].
  destruct (run_shape effects
              (Gltf.Component (Gltf.storeOriginals stored0 scene0) scene0) None)
    as [Hstored Hscene]; [reflexivity | reflexivity |].
  unfold Gltf.run in Hstored, Hscene.
  split; [exact Hstored|]. split.
  - intros o Ho Hmesh. rewrite Hstored. apply originals_stored; assumption.
  - rewrite Hscene. unfold Gltf.lastSwitch.
    destruct (fold_left _ effects None) as [[|]|]; cbn [shape].
    + reflexivity.
    + unfold Gltf.switchMaterials. apply map_ext_in. intros o Ho.
      unfold Gltf.switchObject. destruct (Gltf.isMesh o) eqn:Eo; [|reflexivity].
      rewrite (originals_stored o Ho Eo). reflexivity.
    + reflexivity.
Qed.

End WireframeFacts.

Lemma wireframe_round_trip_witness :
  let c :=
    Gltf.run (Gltf.Component ∅ Fleet.scene)
      [Gltf.Store; Gltf.Switch true; Gltf.Store; Gltf.Switch false] in
  Gltf.stored c !! "hull"%string = Some (Gltf.Loaded 1)
  /\ map Gltf.material (Gltf.scene c)
     = [Gltf.hackerMaterial; Gltf.Loaded 1; Gltf.Loaded 2].
Proof.
  cbv zeta.
  destruct (wireframe_round_trip ∅ Fleet.scene) with
    (effects := [Gltf.Switch true; Gltf.Store; Gltf.Switch false])
    as (_ & Hstored & Hscene).
  - intros o _ _. apply lookup_empty.
  - cbn. repeat constructor; cbn [In]; intros H; intuition discriminate.
  - split.
    + apply (Hstored (Gltf.Object3D "hull" true (Gltf.Loaded 1) false false)).
      * right. left. reflexivity.
      * reflexivity.
    + rewrite Hscene. reflexivity.
Defined.

Local Open Scope Q_scope.

(** ** The progress bar *)

Lemma random_floor (q : Q) :
  0 <= q < 1 -> (0 <= Qfloor (q * 25) <= 24)%Z.
Proof.
  intros [H0 H1].
  pose proof (Qfloor_le (q * 25)) as Hle.
  pose proof (Qlt_floor (q * 25)) as Hlt.
  split.
  - assert (H : (0 < Qfloor (q * 25) + 1)%Z).
    { rewrite Zlt_Qlt. apply Qle_lt_trans with (q * 25); [|exact Hlt].
      change (inject_Z 0) with 0. lra. }
    lia.
  - assert (H : (Qfloor (q * 25) < 25)%Z).
    { rewrite Zlt_Qlt. apply Qle_lt_trans with (q * 25); [exact Hle|].
      change (inject_Z 25) with 25. lra. }
    lia.
Qed.

Lemma bootProgress_step (r : number) (p : Q) :
  isRandom r -> 0 <= p <= 100 ->
  exists p',
    bootProgress r (Fin p) = Fin p'
    /\ p <= p' <= 100 /\ p' <= p + 29
    /\ (p' == 100 \/ p + 5 <= p')
    /\ ((exists z, p == inject_Z z) -> exists z, p' == inject_Z z).
Proof.
  intros Hr Hp. destruct r as [q| | |]; try contradiction. cbn [isRandom] in Hr.
  unfold bootProgress.
  destruct (Num.leb (Fin 100) (Fin p)) eqn:E.
  - apply leb_Fin in E. exists 100. repeat split; try lra.
    intros _. exists 100%Z. reflexivity.
  - assert (Hp100 : p < 100).
    { destruct (Qlt_le_dec p 100) as [H | H]; [exact H|].
      apply leb_Fin in H. congruence. }
    cbn [Num.mul Math_floor Num.add]. unfold Math.min. cbn [fold_left].
    change (Math.min2 PosInf (Fin 100)) with (Fin 100). rewrite min2_Fin.
    pose proof (random_floor q Hr) as Hk.
    set (k := Qfloor (q * 25)) in *.
    assert (Hk' : 0 <= inject_Z k <= 24).
    { split; [change 0 with (inject_Z 0) | change 24 with (inject_Z 24)];
        rewrite <- Zle_Qle; lia. }
    destruct (Num.ltb (Fin (p + inject_Z k + 5)) (Fin 100)) eqn:Elt.
    + apply ltb_Fin in Elt. exists (p + inject_Z k + 5).
      repeat split; try lra.
      intros [z Hz]. exists (z + k + 5)%Z.
      rewrite !inject_Z_plus, Hz. reflexivity.
    + apply ltb_Fin_false in Elt. exists 100. repeat split; try lra.
      intros _. exists 100%Z. reflexivity.
Qed.

Lemma bootTicks_from (randoms : list number) (p lo hi : Q) :
  List.Forall isRandom randoms ->
  0 <= p <= 100 -> p <= hi -> (p == 100 \/ lo <= p) ->
  (exists z, p == inject_Z z) ->
  exists p',
    fold_left (fun current random => bootProgress random current) randoms (Fin p)
    = Fin p'
    /\ p <= p' <= 100
    /\ p' <= hi + 29 * inject_Z (Z.of_nat (length randoms))
    /\ (p' == 100 \/ lo + 5 * inject_Z (Z.of_nat (length randoms)) <= p')
    /\ exists z, p' == inject_Z z.
Proof.
  revert p lo hi. induction randoms as [|r randoms IH];
    intros p lo hi Hall Hp Hhi Hlo Hint.
  - exists p. cbn [fold_left length]. change (inject_Z (Z.of_nat 0)) with 0.
    split; [reflexivity|]. split; [lra|]. split; [lra|].
    split; [|exact Hint].
    destruct Hlo as [H | H]; [left; exact H | right; lra].
  - inversion Hall as [|? ? Hr Hrest]; subst.
    destruct (bootProgress_step r p Hr Hp) as (p1 & Hp1 & Hrange & Hup & Hdown & Hint1).
    cbn [fold_left]. rewrite Hp1.
    destruct (IH p1 (lo + 5) (hi + 29) Hrest) as (p' & Hp' & Hr' & Hhi' & Hlo' & Hint');
      [lra | lra | | exact (Hint1 Hint) |].
    { destruct Hdown as [H | H]; [left; exact H|].
      destruct Hlo as [H' | H']; [left; lra | right; lra]. }
    exists p'. split; [exact Hp'|].
    assert (Hlen : inject_Z (Z.of_nat (length (r :: randoms)))
                   == 1 + inject_Z (Z.of_nat (length randoms))).
    { cbn [length]. rewrite Nat2Z.inj_succ. unfold Z.succ.
      rewrite inject_Z_plus. change (inject_Z 1) with 1. lra. }
    rewrite Hlen. split; [lra|]. split; [lra|]. split; [|exact Hint'].
    destruct Hlo' as [H | H]; [left; exact H | right; lra].
Qed.

(** X18: the progress bar of the page transition.  Whatever numbers
    [Math.random()] returns, the progress after any number of ticks is an
    integer between 0 and 100 that no tick lowers; each tick adds between
    5 and 29 until 100 is reached, so the bar is full after 20 ticks at
    the latest and after 4 ticks at the earliest. *)
Theorem bootTicks_progress (randoms : list number) :
  List.Forall isRandom randoms ->
  exists p,
    bootTicks randoms = Fin p
    /\ 0 <= p <= 100
    /\ (exists z, p == inject_Z z)
    /\ (p == 100 \/ 5 * inject_Z (Z.of_nat (length randoms)) <= p)
    /\ p <= 29 * inject_Z (Z.of_nat (length randoms))
    /\ ((20 <= length randoms)%nat -> p == 100)
    /\ ((length randoms <= 3)%nat -> p < 100)
    /\ forall r, isRandom r ->
         exists p', bootTicks (randoms ++ [r]) = Fin p' /\ p <= p' <= 100.
Proof.
  intros Hall. unfold bootTicks.
  destruct (bootTicks_from randoms 0 0 0 Hall) as (p & Hp & Hrange & Hhi & Hlo & Hint);
    [lra | lra | right; lra | exists 0%Z; reflexivity |].
  exists p. split; [exact Hp|]. split; [lra|]. split; [exact Hint|].
  split; [destruct Hlo as [H | H]; [left; exact H | right; lra]|].
  split; [lra|]. split; [|split].
  - intros Hlen. destruct Hlo as [H | H]; [exact H|].
    assert (H20 : 20 <= inject_Z (Z.of_nat (length randoms))).
    { change 20 with (inject_Z 20). rewrite <- Zle_Qle. lia. }
    lra.
  - intros Hlen.
    assert (H3 : inject_Z (Z.of_nat (length randoms)) <= 3).
    { change 3 with (inject_Z 3). rewrite <- Zle_Qle. lia. }
    lra.
  - intros r Hr. rewrite fold_left_app, Hp. cbn [fold_left].
    destruct (bootProgress_step r p Hr) as (p' & Hp' & Hrange' & _); [lra|].
    exists p'. split; [exact Hp' | exact Hrange'].
Qed.

Lemma bootTicks_progress_witness :
  exists p,
    bootTicks [Fin (1 # 2); Fin 0; Fin (99 # 100)] = Fin p
    /\ 0 <= p <= 100 /\ p < 100.
Proof.
  destruct (bootTicks_progress [Fin (1 # 2); Fin 0; Fin (99 # 100)])
    as (p & Hp & Hrange & _ & _ & _ & _ & Hearly & _).
  - repeat constructor; cbn [isRandom]; lra.
  - exists p. split; [exact Hp|]. split; [exact Hrange|].
    apply Hearly. cbn [length]. lia.
Defined.

Local Close Scope Q_scope.

(** ** The serialized key of the titles *)

Lemma distinct_complete (seen titles : list string) (t : string) :
  In t titles -> ~ In t seen -> In t (Wiki.distinct seen titles).
Proof.
  revert seen. induction titles as [|x titles IH]; intros seen Hin Hout.
  - destruct Hin.
  - cbn [Wiki.distinct]. destruct (includes seen x) eqn:E.
    + destruct Hin as [-> | Hin]; [|apply IH; assumption].
      apply includes_In in E. contradiction.
    + destruct (string_dec x t) as [-> | Hne]; [left; reflexivity|].
      right. destruct Hin as [E' | Hin]; [contradiction|].
      apply IH; [exact Hin|]. intros [E' | Hs]; [contradiction | exact (Hout Hs)].
Qed.

(** X19: the serialized key stands for the distinct titles.
    When no title holds the separator NUL, splitting the key gives back
    the distinct non-empty titles in their order of first appearance, each
    once; so two renders have the same key, and the effect does not run
    again, exactly when their distinct non-empty titles are the same. *)
Theorem titlesKey_round_trip (titles titles' : list string) :
  List.Forall (fun t => hasChar Wiki.NUL t = false) titles ->
  Wiki.currentTitles (Wiki.titlesKey titles) = Wiki.uniqueTitles titles
  /\ List.NoDup (Wiki.uniqueTitles titles)
  /\ (forall t, In t (Wiki.uniqueTitles titles)
                <-> In t titles /\ t <> EmptyString)
  /\ (List.Forall (fun t => hasChar Wiki.NUL t = false) titles' ->
      (Wiki.titlesKey titles = Wiki.titlesKey titles'
       <-> Wiki.uniqueTitles titles = Wiki.uniqueTitles titles')).
Proof.
  intros Hnul. split; [apply currentTitles_unique, Hnul|].
  split; [apply distinct_NoDup|]. split.
  - intros t. unfold Wiki.uniqueTitles. split.
    + intros Ht. apply distinct_In in Ht. destruct Ht as [Ht _].
      apply List.filter_In in Ht. destruct Ht as [Ht Htrue].
      split; [exact Ht|]. intros ->. discriminate Htrue.
    + intros [Ht Hne]. apply distinct_complete; [|intros []].
      apply List.filter_In. split; [exact Ht|].
      unfold Str.truthy. apply negb_true_iff, String.eqb_neq, Hne.
  - intros Hnul'. split.
    + intros Hkey.
      rewrite <- (currentTitles_unique titles Hnul),
              <- (currentTitles_unique titles' Hnul'), Hkey.
      reflexivity.
    + intros Hsame. unfold Wiki.titlesKey. rewrite Hsame. reflexivity.
Qed.

Lemma titlesKey_round_trip_witness :
  Wiki.currentTitles
    (Wiki.titlesKey ["F-22 Raptor"; EmptyString; "Su-57"; "F-22 Raptor"]%string)
  = ["F-22 Raptor"; "Su-57"]%string.
Proof.
  destruct (titlesKey_round_trip
              ["F-22 Raptor"; EmptyString; "Su-57"; "F-22 Raptor"]%string [])
    as (Hsplit & _).
  - repeat constructor.
  - rewrite Hsplit. reflexivity.
Defined.

(** ** Answers that are not successes *)



(** ** What the hook publishes *)

Lemma cleanup_items (h : Wiki.hook) : Wiki.items (Wiki.cleanup h) = Wiki.items h.
Proof. unfold Wiki.cleanup. destruct (Wiki.live h); reflexivity. Qed.

Lemma open_eq (c : gmap string (option Wiki.summary)) (t : string) :
  Wiki.open c t = (t, c !! t).
Proof. unfold Wiki.open. destruct (c !! t); reflexivity. Qed.

Lemma open_lookup (c : gmap string (option Wiki.summary)) (ts : list string)
    (j : nat) (t : string) (r : option (option Wiki.summary)) :
  map (Wiki.open c) ts !! j = Some (t, r) -> r = c !! t.
Proof.
  revert j. induction ts as [|x ts IH]; intros j Hj.
  - destruct j; discriminate Hj.
  - destruct j as [|j]; [|apply (IH j Hj)].
    cbn in Hj. rewrite open_eq in Hj. injection Hj as <- <-. reflexivity.
Qed.

Lemma fire_render (h : Wiki.hook) (titles : list string) :
  Wiki.fire h (Wiki.Render titles)
  = let ts := Wiki.currentTitles (Wiki.titlesKey titles) in
    if Nat.eqb (length ts) 0 then Wiki.cleanup h
    else
      let slots := map (Wiki.open (Wiki.cache h)) ts in
      Wiki.Hook (Wiki.cache h) (Wiki.publish slots (Wiki.items h)) (Some slots)
        (Wiki.stale (Wiki.cleanup h))
        (Wiki.requests h ++ Wiki.pendingTitles slots).
Proof.
  cbn [Wiki.fire]. unfold Wiki.effect. cbv zeta.
  destruct (Nat.eqb _ 0); [reflexivity|].
  rewrite cleanup_cache, cleanup_items, cleanup_requests. reflexivity.
Qed.

Local Abbreviation entriesStep :=
  (fun (acc : option (gmap string (option Wiki.summary))) (s : Wiki.slot) =>
     match acc, s.2 with
     | Some m, Some r => Some (<[s.1 := r]> m)
     | _, _ => None
     end).

Lemma entries_none (slots : list Wiki.slot) :
  foldl
    entriesStep None slots = None.
Proof. induction slots as [|s slots IH]; [reflexivity | exact IH]. Qed.

Lemma entries_fold (slots : list Wiki.slot)
    (acc m : gmap string (option Wiki.summary)) (t : string)
    (r : option Wiki.summary) :
  foldl
    entriesStep (Some acc) slots = Some m ->
  m !! t = Some r ->
  (exists j, slots !! j = Some (t, Some r)) \/ acc !! t = Some r.
Proof.
  revert acc. induction slots as [|[t0 r0] slots IH]; intros acc Hfold Hm.
  - cbn in Hfold. injection Hfold as ->. right. exact Hm.
  - cbn [foldl fst snd] in Hfold. destruct r0 as [r0|].
    + destruct (IH _ Hfold Hm) as [[j Hj] | Hacc].
      * left. exists (S j). exact Hj.
      * destruct (decide (t0 = t)) as [-> | Hne].
        -- rewrite lookup_insert_eq in Hacc. injection Hacc as ->.
           left. exists 0. reflexivity.
        -- rewrite lookup_insert_ne in Hacc by exact Hne. right. exact Hacc.
    + rewrite entries_none in Hfold. discriminate Hfold.
Qed.

Lemma entries_lookup (slots : list Wiki.slot)
    (m : gmap string (option Wiki.summary)) (t : string)
    (r : option Wiki.summary) :
  Wiki.entries slots = Some m -> m !! t = Some r ->
  exists j, slots !! j = Some (t, Some r).
Proof.
  intros Hentries Hm.
  destruct (entries_fold slots ∅ m t r Hentries Hm) as [Hj | Hempty];
    [exact Hj|].
  rewrite lookup_empty in Hempty. discriminate Hempty.
Qed.

Lemma entries_settled (slots : list Wiki.slot)
    (acc : gmap string (option Wiki.summary)) :
  Wiki.pendingTitles slots = [] ->
  exists m,
    foldl
      entriesStep (Some acc) slots = Some m
    /\ (forall t, is_Some (acc !! t) -> is_Some (m !! t))
    /\ forall j t r, slots !! j = Some (t, r) -> is_Some (m !! t).
Proof.
  revert acc. induction slots as [|[t0 r0] slots IH]; intros acc Hpending.
  - exists acc. split; [reflexivity|]. split; [auto|].
    intros j t r Hj. destruct j; discriminate Hj.
  - unfold Wiki.pendingTitles in Hpending. cbn [omap list_omap snd fst] in Hpending.
    destruct r0 as [r0|]; [|discriminate Hpending].
    cbn [foldl fst snd].
    destruct (IH (<[t0 := r0]> acc) Hpending) as (m & Hm & Hkeeps & Hall).
    exists m. split; [exact Hm|]. split.
    + intros t Ht. apply Hkeeps.
      destruct (decide (t0 = t)) as [-> | Hne];
        [rewrite lookup_insert_eq; eauto|].
      rewrite lookup_insert_ne by exact Hne. exact Ht.
    + intros j t r Hj. destruct j as [|j].
      * cbn in Hj. injection Hj as <- <-. apply Hkeeps.
        rewrite lookup_insert_eq. eauto.
      * apply (Hall j t r Hj).
Qed.

Lemma NoDup_fst_lookup (slots : list Wiki.slot) (i j : nat) (t : string)
    (r r' : option (option Wiki.summary)) :
  List.NoDup (map fst slots) ->
  slots !! i = Some (t, r) -> slots !! j = Some (t, r') -> i = j.
Proof.
  revert i j. induction slots as [|[t0 r0] slots IH]; intros i j Hnd Hi Hj.
  - destruct i; discriminate Hi.
  - cbn [map fst] in Hnd. inversion Hnd as [|? ? Hnotin Hnd']; subst.
    assert (Hin : forall k x, slots !! k = Some (t0, x) -> False).
    { intros k x Hk. apply Hnotin.
      apply (in_map fst slots (t0, x)).
      apply list_elem_of_In. apply list_elem_of_lookup. exists k. exact Hk. }
    destruct i as [|i], j as [|j]; try reflexivity.
    + cbn in Hi. injection Hi as -> _. exfalso. apply (Hin j r' Hj).
    + cbn in Hj. injection Hj as -> _. exfalso. apply (Hin i r Hi).
    + f_equal. apply (IH i j Hnd' Hi Hj).
Qed.

Lemma publish_from_slots (slots : list Wiki.slot)
    (c items : gmap string (option Wiki.summary)) :
  (forall j t s, slots !! j = Some (t, Some (Some s)) -> c !! t = Some (Some s)) ->
  (forall t s, items !! t = Some (Some s) -> c !! t = Some (Some s)) ->
  forall t s, Wiki.publish slots items !! t = Some (Some s) ->
              c !! t = Some (Some s).
Proof.
  intros Hslots Hitems t s. unfold Wiki.publish.
  destruct (Wiki.entries slots) as [m|] eqn:E; cbn [default].
  - intros Hm. destruct (entries_lookup slots m t (Some s) E Hm) as [j Hj].
    apply (Hslots j t s Hj).
  - apply Hitems.
Qed.

Lemma fire_agrees (h : Wiki.hook) (e : Wiki.event) :
  nulFree e -> itemsFromCache h /\ slotsAgree h ->
  itemsFromCache (Wiki.fire h e) /\ slotsAgree (Wiki.fire h e).
Proof.
  intros Hnul [Hitems Hslots]. destruct e as [titles|i n|title|].
  - rewrite fire_render. cbv zeta. cbn [nulFree] in Hnul.
    rewrite (currentTitles_unique titles Hnul).
    destruct (Nat.eqb (length (Wiki.uniqueTitles titles)) 0).
    + split.
      * intros t s. rewrite cleanup_items, cleanup_cache. apply Hitems.
      * unfold slotsAgree. rewrite cleanup_live. exact I.
    + assert (Hopen : forall j t s,
                map (Wiki.open (Wiki.cache h)) (Wiki.uniqueTitles titles) !! j
                = Some (t, Some (Some s)) ->
                Wiki.cache h !! t = Some (Some s)).
      { intros j t s Hj. apply open_lookup in Hj. symmetry. exact Hj. }
      split.
      * unfold itemsFromCache. cbn [Wiki.items Wiki.cache].
        apply publish_from_slots; assumption.
      * unfold slotsAgree. cbn [Wiki.live Wiki.cache].
        split; [rewrite open_fst; apply distinct_NoDup|].
        split; [exact Hopen|].
        intros j t Hj. apply open_lookup in Hj. symmetry. exact Hj.
  - destruct (settle_cases h i) as [(slots & title & Hlive & Hslot) | Hidle].
    + rewrite (fire_settle h i n slots title Hlive Hslot). cbv zeta.
      unfold slotsAgree in Hslots. rewrite Hlive in Hslots.
      destruct Hslots as (Hnd & Hdone & Hpending).
      set (o := Wiki.fetchSummary n).
      assert (Hother : forall j t r, j <> i -> slots !! j = Some (t, r) ->
                (Wiki.settle title o (Wiki.cache h)).1 !! t = Wiki.cache h !! t).
      { intros j t r Hji Hj. apply settle_cache_other. intros ->.
        apply Hji. apply (NoDup_fst_lookup slots j i t r None Hnd Hj Hslot). }
      assert (Hdone' : forall j t s,
                <[i := (title, Some (Wiki.settle title o (Wiki.cache h)).2)]> slots
                  !! j = Some (t, Some (Some s)) ->
                (Wiki.settle title o (Wiki.cache h)).1 !! t = Some (Some s)).
      { intros j t s Hj. destruct (decide (i = j)) as [<- | Hne].
        - rewrite list_lookup_insert_eq in Hj
            by (apply lookup_lt_Some in Hslot; exact Hslot).
          injection Hj as <- Hr.
          destruct o as [s'| |]; cbn [Wiki.settle fst snd] in Hr |- *;
            try discriminate Hr.
          subst s'. apply lookup_insert_eq.
        - rewrite list_lookup_insert_ne in Hj by exact Hne.
          rewrite (Hother j t _ (not_eq_sym Hne) Hj). apply (Hdone j t s Hj). }
      split.
      * unfold itemsFromCache. cbn [Wiki.items Wiki.cache].
        apply publish_from_slots; [exact Hdone'|].
        intros t s Ht. specialize (Hitems t s Ht).
        rewrite settle_cache_other; [exact Hitems|].
        intros ->. rewrite (Hpending i t Hslot) in Hitems. discriminate Hitems.
      * unfold slotsAgree. cbn [Wiki.live Wiki.cache].
        split; [rewrite (insert_fst slots i title None _ Hslot); exact Hnd|].
        split; [exact Hdone'|].
        intros j t Hj. destruct (decide (i = j)) as [<- | Hne].
        -- rewrite list_lookup_insert_eq in Hj
             by (apply lookup_lt_Some in Hslot; exact Hslot).
           discriminate Hj.
        -- rewrite list_lookup_insert_ne in Hj by exact Hne.
           rewrite (Hother j t _ (not_eq_sym Hne) Hj). apply (Hpending j t Hj).
    + rewrite (fire_settle_idle h i n Hidle). split; assumption.
  - cbn [Wiki.fire]. destruct (includes (Wiki.stale h) title); [|split; assumption].
    split; [exact Hitems | exact Hslots].
  - cbn [Wiki.fire]. split.
    + intros t s. rewrite cleanup_items, cleanup_cache. apply Hitems.
    + unfold slotsAgree. rewrite cleanup_live. exact I.
Qed.

Lemma fire_published (h : Wiki.hook) (e : Wiki.event) :
  itemsPublished h -> itemsPublished (Wiki.fire h e).
Proof.
  intros Hpub. destruct e as [titles|i n|title|].
  - rewrite fire_render. cbv zeta.
    destruct (Nat.eqb _ 0).
    + intros slots m Hlive. rewrite cleanup_live in Hlive. discriminate Hlive.
    + intros slots m Hlive Hentries. cbn [Wiki.live Wiki.items] in *.
      injection Hlive as <-. unfold Wiki.publish. rewrite Hentries. reflexivity.
  - destruct (settle_cases h i) as [(slots & title & Hlive & Hslot) | Hidle].
    + rewrite (fire_settle h i n slots title Hlive Hslot). cbv zeta.
      intros slots' m Hlive' Hentries. cbn [Wiki.live Wiki.items] in *.
      injection Hlive' as <-. unfold Wiki.publish. rewrite Hentries. reflexivity.
    + rewrite (fire_settle_idle h i n Hidle). exact Hpub.
  - cbn [Wiki.fire]. destruct (includes (Wiki.stale h) title); exact Hpub.
  - cbn [Wiki.fire]. intros slots m Hlive.
    rewrite cleanup_live in Hlive. discriminate Hlive.
Qed.

Lemma run_agrees (events : list Wiki.event) (h : Wiki.hook) :
  List.Forall nulFree events -> itemsFromCache h /\ slotsAgree h ->
  itemsFromCache (Wiki.run h events) /\ slotsAgree (Wiki.run h events).
Proof.
  revert h. induction events as [|e events IH]; intros h Hall Hh; [exact Hh|].
  inversion Hall as [|? ? He Hrest]; subst.
  apply IH; [exact Hrest | apply fire_agrees; assumption].
Qed.

Lemma run_published (events : list Wiki.event) (h : Wiki.hook) :
  itemsPublished h -> itemsPublished (Wiki.run h events).
Proof.
  revert h. induction events as [|e events IH]; intros h Hh; [exact Hh|].
  apply IH, fire_published, Hh.
Qed.

(** X21: what the hook hands to the page.  In every state reached
    from the initial one: once no request of the current run is in
    flight, [items] holds an entry for each title of the run; when no
    title holds NUL, every summary of [items] is the one the cache holds
    for its title; and neither the rejection of an aborted request nor the
    unmount changes [items]. *)
Theorem items_published (events : list Wiki.event) :
  let h := Wiki.run Wiki.initial events in
  (forall slots,
      Wiki.live h = Some slots -> Wiki.pendingTitles slots = [] ->
      forall j t r, slots !! j = Some (t, r) -> is_Some (Wiki.items h !! t))
  /\ (List.Forall nulFree events -> itemsFromCache h)
  /\ (forall title, Wiki.items (Wiki.fire h (Wiki.Rejects title)) = Wiki.items h)
  /\ Wiki.items (Wiki.fire h Wiki.Unmount) = Wiki.items h.
Proof.
  cbv zeta. split; [|split; [|split]].
  - intros slots Hlive Hpending j t r Hj.
    destruct (entries_settled slots ∅ Hpending) as (m & Hm & _ & Hall).
    assert (Hpub : itemsPublished (Wiki.run Wiki.initial events)).
    { apply run_published. intros s m' Hl. discriminate Hl. }
    rewrite (Hpub slots m Hlive Hm). apply (Hall j t r Hj).
  - intros Hnul. apply run_agrees; [exact Hnul|]. split.
    + intros t s Ht. cbn in Ht. rewrite lookup_empty in Ht. discriminate Ht.
    + exact I.
  - intros title. cbn [Wiki.fire].
    destruct (includes _ title); reflexivity.
  - cbn [Wiki.fire]. apply cleanup_items.
Qed.

Lemma items_published_witness :
  let h :=
    Wiki.run Wiki.initial
      [Wiki.Render ["F-22 Raptor"%string];
       Wiki.Settle 0 (Wiki.Answer true (Wiki.Json Sample.page))] in
  is_Some (Wiki.items h !! "F-22 Raptor"%string) /\ itemsFromCache h.
Proof.
  cbv zeta.
  destruct (items_published
              [Wiki.Render ["F-22 Raptor"%string];
               Wiki.Settle 0 (Wiki.Answer true (Wiki.Json Sample.page))])
    as (Hall & Hcache & _).
  split.
  - eapply (Hall _ eq_refl eq_refl 0). reflexivity.
  - apply Hcache. repeat constructor.
Defined.

(** ** The titles that are requested *)

Lemma fire_requests_titles (h : Wiki.hook) (e : Wiki.event) (t : string) :
  In t (Wiki.requests (Wiki.fire h e)) ->
  In t (Wiki.requests h)
  \/ exists titles,
       e = Wiki.Render titles
       /\ In t (Wiki.currentTitles (Wiki.titlesKey titles)).
Proof.
  destruct e as [titles|i n|title|].
  - rewrite fire_render. cbv zeta.
    destruct (Nat.eqb _ 0).
    + rewrite cleanup_requests. intros H. left. exact H.
    + cbn [Wiki.requests]. intros H. apply in_app_or in H.
      destruct H as [H | H]; [left; exact H|]. right.
      exists titles. split; [reflexivity|].
      apply pending_open in H. apply H.
  - destruct (settle_cases h i) as [(slots & title & Hlive & Hslot) | Hidle].
    + rewrite (fire_settle h i n slots title Hlive Hslot). cbv zeta.
      cbn [Wiki.requests]. intros H. left. exact H.
    + rewrite (fire_settle_idle h i n Hidle). intros H. left. exact H.
  - cbn [Wiki.fire]. destruct (includes (Wiki.stale h) title);
      intros H; left; exact H.
  - cbn [Wiki.fire]. rewrite cleanup_requests. intros H. left. exact H.
Qed.

Lemma run_requests_titles (events : list Wiki.event) (h : Wiki.hook) (t : string) :
  In t (Wiki.requests (Wiki.run h events)) ->
  In t (Wiki.requests h)
  \/ exists titles,
       In (Wiki.Render titles) events
       /\ In t (Wiki.currentTitles (Wiki.titlesKey titles)).
Proof.
  revert h. induction events as [|e events IH]; intros h Ht.
  - left. exact Ht.
  - unfold Wiki.run in Ht. cbn [fold_left] in Ht.
    destruct (IH _ Ht) as [Hfire | (titles & Hin & Htitle)].
    + destruct (fire_requests_titles h e t Hfire) as [H | (titles & -> & Htitle)].
      * left. exact H.
      * right. exists titles. split; [left; reflexivity | exact Htitle].
    + right. exists titles. split; [right; exact Hin | exact Htitle].
Qed.

(** X22: only titles of a render are requested.  Every
    request the hook has issued is for a non-empty title that is one of
    the current titles of some render; when the titles of that render hold
    no NUL, it is one of the titles handed to the hook. *)
Theorem requests_are_titles (events : list Wiki.event) (t : string) :
  In t (Wiki.requests (Wiki.run Wiki.initial events)) ->
  t <> EmptyString
  /\ exists titles,
       In (Wiki.Render titles) events
       /\ In t (Wiki.currentTitles (Wiki.titlesKey titles))
       /\ (List.Forall (fun title => hasChar Wiki.NUL title = false) titles ->
           In t titles).
Proof.
  intros Ht.
  destruct (run_requests_titles events Wiki.initial t Ht)
    as [[] | (titles & Hin & Htitle)].
  assert (Htruthy : Str.truthy t = true).
  { unfold Wiki.currentTitles in Htitle. apply List.filter_In in Htitle.
    apply Htitle. }
  split; [intros ->; discriminate Htruthy|].
  exists titles. split; [exact Hin|]. split; [exact Htitle|].
  intros Hnul. rewrite (currentTitles_unique titles Hnul) in Htitle.
  unfold Wiki.uniqueTitles in Htitle. apply distinct_In in Htitle.
  destruct Htitle as [Htitle _]. apply List.filter_In in Htitle. apply Htitle.
Qed.

Lemma requests_are_titles_witness :
  "Su-57"%string <> EmptyString
  /\ exists titles,
       In (Wiki.Render titles)
          [Wiki.Render [EmptyString; "Su-57"%string]; Wiki.Unmount]
       /\ In "Su-57"%string (Wiki.currentTitles (Wiki.titlesKey titles)).
Proof.
  destruct (requests_are_titles
              [Wiki.Render [EmptyString; "Su-57"%string]; Wiki.Unmount] "Su-57")
    as (Hne & titles & Hin & Htitle & _).
  - left. reflexivity.
  - split; [exact Hne|]. exists titles. split; assumption.
Defined.

(** ** Ranks and scores by identifier *)

Lemma mapOf_fold_other {V : Type} (entries : list (string * V))
    (table : gmap string V) (k : string) :
  ~ In k (map fst entries) ->
  fold_left (fun table (entry : string * V) => <[entry.1 := entry.2]> table)
    entries table !! k = table !! k.
Proof.
  revert table. induction entries as [|[k0 v0] entries IH]; intros table Hk.
  - reflexivity.
  - cbn [fold_left map fst snd In] in *. rewrite IH by tauto.
    apply lookup_insert_ne. intros E. apply Hk. left. exact E.
Qed.

Lemma mapOf_NoDup {V : Type} (entries : list (string * V)) (k : string) (v : V) :
  List.NoDup (map fst entries) -> In (k, v) entries ->
  mapOf entries !! k = Some v.
Proof.
  unfold mapOf. generalize (∅ : gmap string V).
  induction entries as [|[k0 v0] entries IH]; intros table Hnd Hin.
  - destruct Hin.
  - cbn [map fst] in Hnd. inversion Hnd as [|? ? Hnotin Hnd']; subst.
    cbn [fold_left fst snd]. destruct Hin as [[= -> ->] | Hin].
    + rewrite (mapOf_fold_other entries _ k Hnotin). apply lookup_insert_eq.
    + apply IH; assumption.
Qed.

Lemma mapIndexed_lookup {A B : Type} (f : A -> nat -> B) (l : list A)
    (index k : nat) (x : A) :
  l !! k = Some x -> In (f x (index + k)) (mapIndexed f index l).
Proof.
  revert index k. induction l as [|y l IH]; intros index k Hk.
  - destruct k; discriminate Hk.
  - destruct k as [|k].
    + cbn in Hk. injection Hk as ->. left. f_equal. lia.
    + right. replace (index + S k) with (S index + k) by lia.
      apply IH. exact Hk.
Qed.

Lemma mapIndexed_fst {A V : Type} (key : A -> string) (g : nat -> V)
    (l : list A) (index : nat) :
  map fst (mapIndexed (fun item i => (key item, g i)) index l) = map key l.
Proof.
  revert index. induction l as [|y l IH]; intros index; [reflexivity|].
  cbn [mapIndexed map fst]. rewrite IH. reflexivity.
Qed.

Section RankFacts.

Variable localeCompare : string -> string -> Z.

(** X23: ranks and scores of the dock.  When the compared aircraft
    have distinct identifiers, the two tables built from the scoreboard
    give, for the item at position [k] (from 0), the rank [k + 1] and its
    score; so every compared aircraft finds a rank between 1 and the
    number of compared aircraft, and its own composite score. *)
Theorem compareRank_lookup (compareAircraft : list Aircraft.t)
    (metricStats : gmap string Stats.t) :
  List.NoDup (map Aircraft.id compareAircraft) ->
  let compareScoreboard :=
    scoreboardFor localeCompare compareAircraft metricStats in
  (forall k item,
      compareScoreboard !! k = Some item ->
      compareRankById compareScoreboard !! Aircraft.id (Scored.aircraft item)
      = Some (k + 1)
      /\ compareScoreById compareScoreboard !! Aircraft.id (Scored.aircraft item)
         = Some (Scored.score item))
  /\ (forall a,
         In a compareAircraft ->
         exists k,
           k < length compareAircraft
           /\ compareRankById compareScoreboard !! Aircraft.id a = Some (k + 1)
           /\ compareScoreById compareScoreboard !! Aircraft.id a
              = Some (computeAnalyzeScore a metricStats)).
Proof.
  intros Hnd compareScoreboard.
  pose proof (sort_Permutation (scoreboardCompare localeCompare)
                (map (withScore metricStats) compareAircraft)) as Hperm.
  fold (scoreboardFor localeCompare compareAircraft metricStats) in Hperm.
  fold compareScoreboard in Hperm.
  assert (Hids : List.NoDup
                   (map (fun item => Aircraft.id (Scored.aircraft item))
                        compareScoreboard)).
  { apply (Permutation_NoDup
             (Permutation_map (fun item => Aircraft.id (Scored.aircraft item))
                Hperm)).
    rewrite map_map. cbn [withScore Scored.aircraft]. exact Hnd. }
  assert (Hat : forall k item,
            compareScoreboard !! k = Some item ->
            compareRankById compareScoreboard !! Aircraft.id (Scored.aircraft item)
            = Some (k + 1)
            /\ compareScoreById compareScoreboard
                 !! Aircraft.id (Scored.aircraft item)
               = Some (Scored.score item)).
  { intros k item Hk. split.
    - unfold compareRankById. apply mapOf_NoDup.
      + rewrite (mapIndexed_fst (fun item => Aircraft.id (Scored.aircraft item))
                   (fun i => i + 1)). exact Hids.
      + apply (mapIndexed_lookup
                 (fun item index =>
                    (Aircraft.id (Scored.aircraft item), index + 1))
                 compareScoreboard 0 k item Hk).
    - unfold compareScoreById. apply mapOf_NoDup.
      + rewrite map_map. cbn [fst]. exact Hids.
      + apply (in_map (fun item =>
                         (Aircraft.id (Scored.aircraft item), Scored.score item))).
        apply list_elem_of_In, list_elem_of_lookup. exists k. exact Hk. }
  split; [exact Hat|].
  intros a Ha.
  assert (Hin : In (withScore metricStats a) compareScoreboard).
  { apply (Permutation_in _ Hperm), in_map, Ha. }
  apply list_elem_of_In, list_elem_of_lookup in Hin. destruct Hin as [k Hk].
  exists k. split.
  - apply lookup_lt_Some in Hk.
    rewrite <- (Permutation_length Hperm), length_map in Hk. exact Hk.
  - apply (Hat k (withScore metricStats a) Hk).
Qed.

End RankFacts.

Lemma compareRank_lookup_witness :
  let compareScoreboard :=
    scoreboardFor codeUnitCompare [Sample.alpha; Sample.bravo]
      (buildMetricStats [Sample.alpha; Sample.bravo]) in
  compareRankById compareScoreboard !! "bravo"%string = Some 1
  /\ compareRankById compareScoreboard !! "alpha"%string = Some 2.
Proof.
  cbv zeta.
  destruct (compareRank_lookup codeUnitCompare [Sample.alpha; Sample.bravo]
              (buildMetricStats [Sample.alpha; Sample.bravo])) as [Hat _].
  - repeat constructor; cbn [In]; intros H; intuition discriminate.
  - split.
    + apply (Hat 0 (Scored.Build Sample.bravo (Fin 96))). vm_compute. reflexivity.
    + apply (Hat 1 (Scored.Build Sample.alpha (Fin 90))). vm_compute. reflexivity.
Defined.

(** ** The list of the catalog *)

Lemma filter_and {A : Type} (f g : A -> bool) (l : list A) :
  List.filter f (List.filter g l) = List.filter (fun x => g x && f x) l.
Proof.
  induction l as [|x l IH]; [reflexivity|].
  cbn [List.filter]. destruct (g x); cbn [andb List.filter].
  - destruct (f x); rewrite IH; reflexivity.
  - exact IH.
Qed.

Section CatalogFacts.

Variable localeCompare : string -> string -> Z.
Variable toLowerCase : string -> string.
Variable trim : string -> string.
Variable toString : value -> string.
Variable toNumber : value -> number.
Variable query : string.
Variable roleFilter : string.
Variable countryFilter : string.
Variable generationFilter : string.
Variable sortBy : string.

Local Abbreviation filteredList :=
  (filtered localeCompare toLowerCase trim toString toNumber query roleFilter
     countryFilter generationFilter sortBy).

Local Abbreviation passes :=
  (passesAll toLowerCase trim toString query roleFilter countryFilter
     generationFilter).

(** X24: the catalog lists what passes the filters.  Whatever the
    sort key, the list of the catalog holds exactly the aircraft of the
    data that pass the query and the three filters, each as often as the
    data holds it; a filter set to ['All'] and a query that trims to the
    empty string let every aircraft pass; and for a sort key other than
    the eight numeric ones the list is in the order of [localeCompare] on
    the names, when that comparison is consistent. *)
Theorem catalog_filtered (aircraft : list Aircraft.t) :
  Permutation (List.filter passes aircraft) (filteredList aircraft)
  /\ (forall item, In item (filteredList aircraft)
                   <-> In item aircraft /\ passes item = true)
  /\ (trim query = EmptyString -> roleFilter = "All"%string ->
      countryFilter = "All"%string -> generationFilter = "All"%string ->
      Permutation aircraft (filteredList aircraft))
  /\ (~ In sortBy ["speed"; "range"; "combatRadius"; "ceiling"; "stealth";
                   "cost"; "firstFlight"; "introduced"]%string ->
      consistentCompare localeCompare ->
      StronglySorted
        (fun a b => (localeCompare (Aircraft.name a) (Aircraft.name b) <= 0)%Z)
        (filteredList aircraft)).
Proof.
  assert (Hfilter :
            List.filter
              (passesFilter generationFilter "generation")
              (List.filter (passesFilter countryFilter "country")
                 (List.filter (passesFilter roleFilter "role")
                    (List.filter
                       (passesQuery toLowerCase trim toString query) aircraft)))
            = List.filter passes aircraft).
  { rewrite !filter_and. apply List.filter_ext. intros item.
    unfold passesAll. rewrite !andb_assoc. reflexivity. }
  assert (Hperm : Permutation (List.filter passes aircraft) (filteredList aircraft)).
  { unfold filtered. cbv zeta. rewrite Hfilter.
    repeat (destruct (String.eqb sortBy _); [apply sort_Permutation|]).
    apply sort_Permutation. }
  split; [exact Hperm|]. split; [|split].
  - intros item. rewrite <- filter_In. split.
    + apply Permutation_in, Permutation_sym, Hperm.
    + apply Permutation_in, Hperm.
  - intros Hquery Hrole Hcountry Hgeneration.
    assert (Hall : List.filter passes aircraft = aircraft).
    { apply forallb_filter_id. apply forallb_forall. intros item _.
      unfold passesAll, passesQuery, passesFilter.
      rewrite Hquery, Hrole, Hcountry, Hgeneration. reflexivity. }
    rewrite Hall in Hperm. exact Hperm.
  - intros Hkey [Hanti Htrans]. unfold filtered. cbv zeta. rewrite Hfilter.
    cbn [In] in Hkey.
    repeat match goal with
           | |- context [String.eqb sortBy ?k] =>
               destruct (String.eqb_spec sortBy k) as [E | _];
               [exfalso; apply Hkey; rewrite E; tauto|]
           end.
    set (cmp := fun a b : Aircraft.t =>
                  Num.of_Z (localeCompare (Aircraft.name a) (Aircraft.name b))).
    apply (StronglySorted_impl (keeps cmp) _ (fun _ => True)).
    + intros x y _ _ Hk. unfold keeps, cmp, Num.of_Z in Hk.
      apply ltb_Fin_false in Hk. change 0%Q with (inject_Z 0) in Hk.
      rewrite <- Zle_Qle in Hk. exact Hk.
    + apply List.Forall_forall. intros x _. exact I.
    + apply (sort_sorted cmp (fun _ => True)).
      * intros x y _ _ Hswap. unfold keeps, cmp, Num.of_Z in Hswap |- *.
        apply ltb_Fin in Hswap. apply ltb_Fin_false.
        change 0%Q with (inject_Z 0) in Hswap |- *.
        rewrite <- Zlt_Qlt in Hswap. rewrite <- Zle_Qle.
        specialize (Hanti (Aircraft.name x) (Aircraft.name y)). lia.
      * intros x y z _ _ _ Hxy Hyz. unfold keeps, cmp, Num.of_Z in Hxy, Hyz |- *.
        apply ltb_Fin_false in Hxy, Hyz. apply ltb_Fin_false.
        change 0%Q with (inject_Z 0) in Hxy, Hyz |- *.
        rewrite <- Zle_Qle in Hxy, Hyz |- *.
        apply (Htrans _ _ _ Hxy Hyz).
      * apply List.Forall_forall. intros x _. exact I.
Qed.

End CatalogFacts.

Local Open Scope Q_scope.

(** ** The geometry statistics *)

Lemma visit_filter (scene : list ModelStats.object3D) (acc : ModelStats.t) :
  fold_left ModelStats.visit (List.filter ModelStats.isMesh scene) acc
  = fold_left ModelStats.visit scene acc.
Proof.
  revert acc. induction scene as [|o scene IH]; intros acc; [reflexivity|].
  cbn [List.filter fold_left]. destruct (ModelStats.isMesh o) eqn:E.
  - cbn [fold_left]. apply IH.
  - rewrite IH. f_equal. unfold ModelStats.visit. rewrite E. reflexivity.
Qed.

Lemma visit_meshes (scene : list ModelStats.object3D) (acc : ModelStats.t) (m : Q) :
  ModelStats.meshes acc = Fin m ->
  exists m',
    ModelStats.meshes (fold_left ModelStats.visit scene acc) = Fin m'
    /\ m' == m + inject_Z (Z.of_nat (length (List.filter ModelStats.isMesh scene))).
Proof.
  revert acc m. induction scene as [|o scene IH]; intros acc m Hm.
  - exists m. split; [exact Hm|]. cbn [List.filter length].
    change (inject_Z (Z.of_nat 0)) with 0. lra.
  - cbn [fold_left List.filter]. destruct (ModelStats.isMesh o) eqn:E.
    + assert (Hstep : ModelStats.meshes (ModelStats.visit acc o) = Fin (m + 1)).
      { unfold ModelStats.visit. rewrite E, Hm.
        destruct (ModelStats.geo o); reflexivity. }
      destruct (IH _ _ Hstep) as (m' & Hm' & Heq).
      exists m'. split; [exact Hm'|]. rewrite Heq. cbn [length].
      rewrite Nat2Z.inj_succ. unfold Z.succ. rewrite inject_Z_plus.
      change (inject_Z 1) with 1. lra.
    + assert (Hstep : ModelStats.visit acc o = acc)
        by (unfold ModelStats.visit; rewrite E; reflexivity).
      rewrite Hstep. apply IH, Hm.
Qed.

Lemma round_whole (x : Q) (n : Z) :
  x == inject_Z n -> Math.round (Fin x) = Fin (inject_Z n).
Proof.
  intros Hx. unfold Math.round. do 2 f_equal.
  assert (Hlow : (n <= Qfloor (x + (1 # 2)))%Z).
  { rewrite <- (Qfloor_Z n). apply Qfloor_resp_le. lra. }
  assert (Hhigh : (Qfloor (x + (1 # 2)) < n + 1)%Z).
  { rewrite Zlt_Qlt. apply Qle_lt_trans with (x + (1 # 2)); [apply Qfloor_le|].
    rewrite inject_Z_plus. change (inject_Z 1) with 1. lra. }
  lia.
Qed.

Lemma visit_triangleList (scene : list ModelStats.object3D) (acc : ModelStats.t)
    (n : Z) (t v : Q) :
  List.Forall ModelStats.triangleList scene ->
  (0 <= n)%Z ->
  ModelStats.triangles acc = Fin t -> t == inject_Z n ->
  ModelStats.vertices acc = Fin v -> v == inject_Z (3 * n) ->
  exists (n' : Z) (t' v' : Q),
    (n <= n')%Z
    /\ ModelStats.triangles (fold_left ModelStats.visit scene acc) = Fin t'
    /\ t' == inject_Z n'
    /\ ModelStats.vertices (fold_left ModelStats.visit scene acc) = Fin v'
    /\ v' == inject_Z (3 * n').
Proof.
  revert acc n t v. induction scene as [|o scene IH];
    intros acc n t v Hall Hn Ht Htn Hv Hvn.
  - exists n, t, v. repeat split; try assumption. lia.
  - inversion Hall as [|? ? Ho Hrest]; subst. cbn [fold_left].
    destruct (ModelStats.isMesh o) eqn:E.
    + destruct (Ho E) as (k & Hk & Hgeo).
      assert (Hstep : ModelStats.visit acc o
                      = ModelStats.Stats (Fin (t + inject_Z (3 * k) / 3))
                          (Fin (v + inject_Z (3 * k)))
                          (ModelStats.meshes acc + Fin 1)%num).
      { unfold ModelStats.visit. rewrite E, Hgeo, Ht, Hv. reflexivity. }
      rewrite Hstep.
      destruct (IH (ModelStats.Stats (Fin (t + inject_Z (3 * k) / 3))
                      (Fin (v + inject_Z (3 * k)))
                      (ModelStats.meshes acc + Fin 1)%num)
                  (n + k)%Z (t + inject_Z (3 * k) / 3) (v + inject_Z (3 * k))
                  Hrest) as (n' & t' & v' & Hle & Ht' & Htn' & Hv' & Hvn');
        try reflexivity; [lia | | |].
      * rewrite Htn, !inject_Z_plus, inject_Z_mult.
        change (inject_Z 3) with 3. field.
      * rewrite Hvn, !inject_Z_mult, inject_Z_plus. ring.
      * exists n', t', v'. repeat split; try assumption. lia.
    + assert (Hstep : ModelStats.visit acc o = acc)
        by (unfold ModelStats.visit; rewrite E; reflexivity).
      rewrite Hstep. apply (IH acc n t v); assumption.
Qed.

(** X25: the statistics of the loaded model.  The callback
    counts the meshes of the scene and nothing else: the number of meshes
    is the number of objects that are meshes, and the objects that are not
    meshes change no count.  When every mesh is a plain list of triangles
    (no index, a number of positions that is a multiple of three), the
    triangles are a whole number and the vertices are three times the
    triangles. *)
Theorem onSceneReady_counts (scene : list ModelStats.object3D) :
  ModelStats.onSceneReady (List.filter ModelStats.isMesh scene)
  = ModelStats.onSceneReady scene
  /\ (exists m,
         ModelStats.meshes (ModelStats.onSceneReady scene) = Fin m
         /\ m == inject_Z (Z.of_nat (length (List.filter ModelStats.isMesh scene))))
  /\ (List.Forall ModelStats.triangleList scene ->
      exists (n : Z) (v : Q),
        (0 <= n)%Z
        /\ ModelStats.triangles (ModelStats.onSceneReady scene) = Fin (inject_Z n)
        /\ ModelStats.vertices (ModelStats.onSceneReady scene) = Fin v
        /\ v == inject_Z (3 * n)).
Proof.
  split; [|split].
  - unfold ModelStats.onSceneReady. rewrite visit_filter. reflexivity.
  - unfold ModelStats.onSceneReady. cbn [ModelStats.meshes].
    destruct (visit_meshes scene (ModelStats.Stats (Fin 0) (Fin 0) (Fin 0)) 0
                eq_refl) as (m & Hm & Heq).
    exists m. split; [exact Hm|]. rewrite Heq. lra.
  - intros Hall. unfold ModelStats.onSceneReady.
    cbn [ModelStats.triangles ModelStats.vertices].
    destruct (visit_triangleList scene (ModelStats.Stats (Fin 0) (Fin 0) (Fin 0))
                0 0 0 Hall) as (n & t & v & Hn & Ht & Htn & Hv & Hvn);
      try reflexivity; try lia.
    exists n, v. split; [exact Hn|]. rewrite Ht, Hv.
    split; [apply round_whole, Htn|]. split; [reflexivity | exact Hvn].
Qed.
